(** * graph-data-structure: a shallow embedding of [index.js]

    The module exports one constructor, [Graph(serialized)], whose closure
    holds three plain JavaScript objects used as dictionaries ([edges],
    [edgeWeights], [edgeData]) and the functions of the returned handle.

    Modelling choices.
    - Node identifiers are JavaScript strings ([string]).  Property keys of
      an object are strings, and the code compares identifiers with [===].
    - An object used as a dictionary is the list of its own properties in
      insertion order ([JsObject.obj]); [Object.keys] lists the array-index
      keys first, in ascending numeric order, then the others in insertion
      order, as the language prescribes.
    - A property read [o[k]] finds the own property or else the member of
      [Object.prototype] of that name.  The development has two embeddings.
      The functions on [graph] read own properties only; they are the code
      on identifiers that name no member of the prototype ([plain]).  The
      module [Program] reads through the prototype, raises the [TypeError]
      of a method called on a value that has none, and threads the store
      through every function; it is the code on every identifier, and the
      two are proved to agree on plain ones.  A theorem stated on [graph]
      alone is at inputs where the two agree; the others speak of
      [Program]: on every store, or on every well formed one, where that
      can be had, and else on the stores [embed g] of plain graphs.
    - Edge weights are integers ([Z]); the values stored in the distance
      table of [shortestPath] are numbers, [Infinity] or, for a read of a
      missing entry, [NaN] ([num]).  The code adds doubles, which is exact
      on integers up to [2^53]; the theorems about sums of weights assume
      [bounded_weights], which keeps every sum of the run within that.
    - Loops and recursion whose termination is not structural carry fuel;
      [None], or [OutOfFuel] in [Program], stands for fuel that ran out,
      and the theorems show that this does not happen. *)

From Stdlib Require Import List String Ascii ZArith NArith Lia Bool Arith.
From Stdlib Require Import Permutation Relations.
Import ListNotations.

Local Open Scope string_scope.
Local Open Scope list_scope.

(** ** Objects used as dictionaries *)

Module JsObject.

Section Dictionary.

Context {V : Type}.

Definition obj : Type := list (string * V).

Definition empty : obj := [].

(** [o[k]], on own properties: [None] is [undefined]. *)
Fixpoint get (o : obj) (k : string) : option V :=
  match o with
  | [] => None
  | (k', v) :: r => if String.eqb k' k then Some v else get r k
  end.

(** [o[k] = v]: an existing property keeps its place, a new one goes last. *)
Fixpoint set (o : obj) (k : string) (v : V) : obj :=
  match o with
  | [] => [(k, v)]
  | (k', v') :: r =>
      if String.eqb k' k then (k', v) :: r else (k', v') :: set r k v
  end.

(** [delete o[k]]. *)
Fixpoint del (o : obj) (k : string) : obj :=
  match o with
  | [] => []
  | (k', v') :: r => if String.eqb k' k then r else (k', v') :: del r k
  end.

(** [k in o], on own properties. *)
Definition has (o : obj) (k : string) : bool :=
  match get o k with Some _ => true | None => false end.

End Dictionary.

Arguments obj : clear implicits.

(** *** The order of [Object.keys] *)

Definition digit_of (c : ascii) : option N :=
  let n := N_of_ascii c in
  if ((48 <=? n) && (n <=? 57))%N then Some (n - 48)%N else None.

Fixpoint parse_digits (acc : N) (s : string) : option N :=
  match s with
  | EmptyString => Some acc
  | String c r =>
      match digit_of c with
      | Some d => parse_digits (10 * acc + d)%N r
      | None => None
      end
  end.

(** A key is an array index when it is the canonical decimal form of an
    integer below [2^32 - 1]. *)
Definition array_index (s : string) : option N :=
  match s with
  | EmptyString => None
  | String "0"%char EmptyString => Some 0%N
  | String "0"%char _ => None
  | _ =>
      match parse_digits 0 s with
      | Some n => if (n <? 4294967295)%N then Some n else None
      | None => None
      end
  end.

Fixpoint insert_index (n : N) (k : string) (l : list (N * string))
  : list (N * string) :=
  match l with
  | [] => [(n, k)]
  | (m, k') :: r =>
      if (n <? m)%N then (n, k) :: l else (m, k') :: insert_index n k r
  end.

(** Splits the keys into the array indices, sorted, and the other names,
    in their order of insertion. *)
Fixpoint own_keys (ks : list string) : list (N * string) * list string :=
  match ks with
  | [] => ([], [])
  | k :: r =>
      let (idx, names) := own_keys r in
      match array_index k with
      | Some n => (insert_index n k idx, names)
      | None => (idx, k :: names)
      end
  end.

Definition order_keys (ks : list string) : list string :=
  let (idx, names) := own_keys ks in map snd idx ++ names.

(** [Object.keys(o)]. *)
Definition keys {V : Type} (o : obj V) : list string :=
  order_keys (map fst o).

End JsObject.

Import JsObject.

(** ** Numbers of the distance table *)

Inductive num : Type :=
| Fin (z : Z)
| Infinity
| NaN.

(** [ToNumber] of a property read: [undefined] converts to [NaN]. *)
Definition to_num (x : option num) : num :=
  match x with Some n => n | None => NaN end.

(** [a + w] for a table entry [a] and a weight [w]. *)
Definition num_add (a : num) (w : Z) : num :=
  match a with
  | Fin z => Fin (z + w)
  | Infinity => Infinity
  | NaN => NaN
  end.

(** [a < b]; every comparison with [NaN] is false. *)
Definition num_lt (a b : num) : bool :=
  match a, b with
  | Fin x, Fin y => (x <? y)%Z
  | Fin _, Infinity => true
  | _, _ => false
  end.

(** [a > b]. *)
Definition num_gt (a b : num) : bool := num_lt b a.

(** ** The store *)

(** An edge payload: a flat record of string fields; [{}] is the empty one. *)
Definition data : Type := obj string.

Definition empty_record : data := [].

Record graph : Type := mkGraph {
  edges : obj (list string);
  edgeWeights : obj Z;
  edgeData : obj data
}.

(** The state of a new [Graph()]. *)
Definition empty_graph : graph := mkGraph empty empty empty.

Definition with_edges (g : graph) (e : obj (list string)) : graph :=
  mkGraph e (edgeWeights g) (edgeData g).

(** ** Nodes and edges *)

(** [adjacent(node)]: [edges[node] || []]; an array is truthy. *)
Definition adjacent (g : graph) (node : string) : list string :=
  match get (edges g) node with
  | Some l => l
  | None => []
  end.

(** [addNode(node)]: [edges[node] = adjacent(node)]. *)
Definition addNode (g : graph) (node : string) : graph :=
  with_edges g (set (edges g) node (adjacent g node)).

(** [removeEdge(u, v)]. *)
Definition removeEdge (g : graph) (u v : string) : graph :=
  match get (edges g) u with
  | Some _ =>
      with_edges g
        (set (edges g) u
           (filter (fun _v => negb (String.eqb _v v)) (adjacent g u)))
  | None => g
  end.

(** [removeNode(node)].  The outer loop runs over the keys that [edges] has
    when it starts; [edges[u]] is read when the turn of [u] comes (for a key
    [u] it is [adjacent g u]), and the inner loop runs over that array while
    [removeEdge] replaces it. *)
Definition removeNode (g : graph) (node : string) : graph :=
  let g1 :=
    fold_left
      (fun g0 u =>
         fold_left
           (fun g' v => if String.eqb v node then removeEdge g' u v else g')
           (adjacent g0 u) g0)
      (keys (edges g)) g in
  with_edges g1 (del (edges g1) node).

(** [nodes()]. *)
Definition nodeSet_of (g : graph) : obj bool :=
  fold_left
    (fun ns u => fold_left (fun ns' v => set ns' v true) (adjacent g u)
                   (set ns u true))
    (keys (edges g)) empty.

Definition nodes (g : graph) : list string := keys (nodeSet_of g).

(** [encodeEdge(u, v)] and [encodeDataEdge(u, v)]. *)
Definition encodeEdge (u v : string) : string := u ++ "|" ++ v.

Definition encodeDataEdge (u v : string) : string := u ++ "||" ++ v.

Definition setEdgeWeight (g : graph) (u v : string) (weight : Z) : graph :=
  mkGraph (edges g) (set (edgeWeights g) (encodeEdge u v) weight) (edgeData g).

Definition setEdgeData (g : graph) (u v : string) (d : data) : graph :=
  mkGraph (edges g) (edgeWeights g) (set (edgeData g) (encodeDataEdge u v) d).

(** [getEdgeWeight(u, v)]: 1 when no weight is stored. *)
Definition getEdgeWeight (g : graph) (u v : string) : Z :=
  match get (edgeWeights g) (encodeEdge u v) with
  | Some weight => weight
  | None => 1%Z
  end.

(** [getEdgeData(u, v)]: [{}] when no payload is stored. *)
Definition getEdgeData (g : graph) (u v : string) : data :=
  match get (edgeData g) (encodeDataEdge u v) with
  | Some d => d
  | None => empty_record
  end.

(** [addEdge(u, v, weight, data)]; an argument left out is [None].
    [adjacent(u).push(v)] appends to the array that [edges[u]] holds. *)
Definition addEdge (g : graph) (u v : string)
  (weight : option Z) (d : option data) : graph :=
  let g1 := addNode g u in
  let g2 := addNode g1 v in
  let g3 := with_edges g2 (set (edges g2) u (adjacent g2 u ++ [v])) in
  let g4 := match weight with
            | Some w => setEdgeWeight g3 u v w
            | None => g3
            end in
  match d with
  | Some x => setEdgeData g4 u v x
  | None => g4
  end.

(** [indegree(node)]. *)
Definition indegree (g : graph) (node : string) : nat :=
  fold_left
    (fun degree u =>
       fold_left
         (fun degree' v => if String.eqb v node then S degree' else degree')
         (adjacent g u) degree)
    (keys (edges g)) 0.

(** [outdegree(node)]. *)
Definition outdegree (g : graph) (node : string) : nat :=
  if has (edges g) node then List.length (adjacent g node) else 0.

(** ** Depth-first search and topological sort *)

(** The two local variables of [depthFirstSearch]. *)
Record dfs_state : Type := mkDfs {
  visited : obj bool;
  nodeList : list string
}.

(** Truthiness of a read of [visited]. *)
Definition truthy (x : option bool) : bool :=
  match x with Some b => b | None => false end.

(** [l.forEach(f)] for a callback that may run out of fuel. *)
Fixpoint forEachM {S A : Type} (f : A -> S -> option S) (l : list A) (st : S)
  : option S :=
  match l with
  | [] => Some st
  | a :: r =>
      match f a st with
      | Some st' => forEachM f r st'
      | None => None
      end
  end.

Definition mark (node : string) (st : dfs_state) : dfs_state :=
  mkDfs (set (visited st) node true) (nodeList st).

Definition push (node : string) (st : dfs_state) : dfs_state :=
  mkDfs (visited st) (nodeList st ++ [node]).

(** [DFSVisit(node)]; [fuel] bounds the depth of the recursion. *)
Fixpoint DFSVisit (fuel : nat) (g : graph) (node : string) (st : dfs_state)
  : option dfs_state :=
  match fuel with
  | O => None
  | S fuel' =>
      if truthy (get (visited st) node) then Some st
      else
        match forEachM (DFSVisit fuel' g) (adjacent g node) (mark node st) with
        | Some st' => Some (push node st')
        | None => None
        end
  end.

(** The body of [depthFirstSearch(sourceNodes, includeSourceNodes)], up to
    its final state.  An argument left out is [None]; an array is truthy,
    and anything but a boolean makes [includeSourceNodes] true. *)
Definition dfs_run (g : graph) (sourceNodes : option (list string))
  (includeSourceNodes : option bool) : option dfs_state :=
  let sourceNodes :=
    match sourceNodes with Some l => l | None => nodes g end in
  let includeSourceNodes :=
    match includeSourceNodes with Some b => b | None => true end in
  let fuel := S (List.length (nodes g)) in
  let st0 := mkDfs empty [] in
  if includeSourceNodes then forEachM (DFSVisit fuel g) sourceNodes st0
  else
    forEachM (fun node => forEachM (DFSVisit fuel g) (adjacent g node))
      sourceNodes (fold_left (fun st node => mark node st) sourceNodes st0).

Definition depthFirstSearch (g : graph) (sourceNodes : option (list string))
  (includeSourceNodes : option bool) : option (list string) :=
  option_map nodeList (dfs_run g sourceNodes includeSourceNodes).

(** [depthFirstSearch(sourceNodes, includeSourceNodes).reverse()]. *)
Definition topologicalSort (g : graph) (sourceNodes : option (list string))
  (includeSourceNodes : option bool) : option (list string) :=
  option_map (@rev string) (depthFirstSearch g sourceNodes includeSourceNodes).

(** ** Shortest path *)

(** The three [throw new Error(...)] of [shortestPath]. *)
Inductive error : Type :=
| SourceNotInGraph
| DestinationNotInGraph
| NoPathFound.

Inductive completion (A : Type) : Type :=
| Normal (a : A)
| Throw (e : error).

Arguments Normal {A} a.
Arguments Throw {A} e.

(** The tables [d], [p] and [q].  A predecessor is what [extractMin]
    returned: a key of [q], or [null] ([None]). *)
Record sp_state : Type := mkSp {
  d : obj num;
  p : obj (option string);
  q : obj bool
}.

(** [String(u)] for what [extractMin] returned: [null] reads as a key and
    concatenates as ["null"]. *)
Definition key_of (u : option string) : string :=
  match u with Some s => s | None => "null" end.

Definition is_infinity (x : option num) : bool :=
  match x with Some Infinity => true | _ => false end.

Definition initializeSingleSource (g : graph) (source destination : string)
  (st : sp_state) : completion sp_state :=
  let d1 := fold_left (fun d0 node => set d0 node Infinity) (nodes g) (d st) in
  if negb (is_infinity (get d1 source)) then Throw SourceNotInGraph
  else if negb (is_infinity (get d1 destination)) then
    Throw DestinationNotInGraph
  else Normal (mkSp (set d1 source (Fin 0)) (p st) (q st)).

Definition initializePriorityQueue (g : graph) (st : sp_state) : sp_state :=
  mkSp (d st) (p st)
    (fold_left (fun q0 node => set q0 node true) (nodes g) (q st)).

Definition priorityQueueEmpty (st : sp_state) : bool :=
  Nat.eqb (List.length (keys (q st))) 0.

(** The linear scan of [extractMin]: the pair [(min, minNode)]. *)
Definition scan_min (dt : obj num) (ks : list string) : num * option string :=
  fold_left
    (fun '(min, minNode) node =>
       if num_lt (to_num (get dt node)) min
       then (to_num (get dt node), Some node)
       else (min, minNode))
    ks (Infinity, None).

Definition extractMin (st : sp_state) : option string * sp_state :=
  match snd (scan_min (d st) (keys (q st))) with
  | None => (None, mkSp (d st) (p st) empty)
  | Some minNode => (Some minNode, mkSp (d st) (p st) (del (q st) minNode))
  end.

Definition relax (g : graph) (st : sp_state) (u : option string) (v : string)
  : sp_state :=
  let w := getEdgeWeight g (key_of u) v in
  let du := to_num (get (d st) (key_of u)) in
  if num_gt (to_num (get (d st) v)) (num_add du w)
  then mkSp (set (d st) v (num_add du w)) (set (p st) v u) (q st)
  else st.

(** One turn of the [while] loop of [dijkstra]. *)
Definition dijkstra_step (g : graph) (st : sp_state) : sp_state :=
  let (u, st1) := extractMin st in
  fold_left (fun s v => relax g s u v) (adjacent g (key_of u)) st1.

Fixpoint dijkstra_loop (fuel : nat) (g : graph) (st : sp_state)
  : option sp_state :=
  if priorityQueueEmpty st then Some st
  else
    match fuel with
    | O => None
    | S fuel' => dijkstra_loop fuel' g (dijkstra_step g st)
    end.

(** Truthiness of [p[node]]: [undefined], [null] and the empty string are
    falsy. *)
Definition truthy_pred (x : option (option string)) : option string :=
  match x with
  | Some (Some u) => if String.eqb u "" then None else Some u
  | _ => None
  end.

(** The [while (p[node])] loop of [path]: the final [node], [nodeList] and
    [weight]. *)
Fixpoint path_loop (fuel : nat) (g : graph) (pt : obj (option string))
  (node : string) (nodeList0 : list string) (weight : Z)
  : option (string * list string * Z) :=
  match truthy_pred (get pt node) with
  | None => Some (node, nodeList0, weight)
  | Some u =>
      match fuel with
      | O => None
      | S fuel' =>
          path_loop fuel' g pt u (nodeList0 ++ [node])
            (weight + getEdgeWeight g u node)
      end
  end.

(** [path()]: the node list comes with its [weight] property. *)
Definition path (fuel : nat) (g : graph) (source destination : string)
  (st : sp_state) : option (completion (list string * Z)) :=
  match path_loop fuel g (p st) destination [] 0%Z with
  | None => None
  | Some (node, nodeList0, weight) =>
      if negb (String.eqb node source) then Some (Throw NoPathFound)
      else Some (Normal (rev (nodeList0 ++ [node]), weight))
  end.

(** The tables when [dijkstra()] is over. *)
Definition dijkstra (g : graph) (source destination : string)
  : option (completion sp_state) :=
  match initializeSingleSource g source destination (mkSp empty empty empty) with
  | Throw e => Some (Throw e)
  | Normal st1 =>
      let st2 := initializePriorityQueue g st1 in
      match dijkstra_loop (List.length (keys (q st2))) g st2 with
      | Some st3 => Some (Normal st3)
      | None => None
      end
  end.

(** [shortestPath(source, destination)]. *)
Definition shortestPath (g : graph) (source destination : string)
  : option (completion (list string * Z)) :=
  match dijkstra g source destination with
  | None => None
  | Some (Throw e) => Some (Throw e)
  | Some (Normal st) =>
      path (S (List.length (nodes g))) g source destination st
  end.

(** ** Serialization *)

Module Serialized.

Record node : Type := mkNode { id : string }.

(** A link; [weight] and [data] may be missing in a document. *)
Record link : Type := mkLink {
  source : string;
  target : string;
  weight : option Z;
  data : option (obj string)
}.

Record t : Type := mk { nodes : list node; links : list link }.

End Serialized.

Definition serialize (g : graph) : Serialized.t :=
  let ns := map Serialized.mkNode (nodes g) in
  Serialized.mk ns
    (flat_map
       (fun n =>
          let source := Serialized.id n in
          map (fun target =>
                 Serialized.mkLink source target
                   (Some (getEdgeWeight g source target))
                   (Some (getEdgeData g source target)))
            (adjacent g source))
       ns).

Definition deserialize (g : graph) (doc : Serialized.t) : graph :=
  fold_left
    (fun g0 l =>
       addEdge g0 (Serialized.source l) (Serialized.target l)
         (Serialized.weight l) (Serialized.data l))
    (Serialized.links doc)
    (fold_left (fun g0 n => addNode g0 (Serialized.id n))
       (Serialized.nodes doc) g).

(** [Graph(serialized)]. *)
Definition Graph (doc : option Serialized.t) : graph :=
  match doc with
  | Some s => deserialize empty_graph s
  | None => empty_graph
  end.

(** ** The handle as a state machine

    One constructor per function of the returned [graph] object.  A call runs
    on the store and leaves a store; the mutators return the handle. *)

Inductive call : Type :=
| AddNode (node : string)
| RemoveNode (node : string)
| Nodes
| Adjacent (node : string)
| AddEdge (u v : string) (weight : option Z) (payload : option data)
| RemoveEdge (u v : string)
| SetEdgeWeight (u v : string) (weight : Z)
| GetEdgeWeight (u v : string)
| SetEdgeData (u v : string) (payload : data)
| GetEdgeData (u v : string)
| Indegree (node : string)
| Outdegree (node : string)
| DepthFirstSearch (sourceNodes : option (list string))
    (includeSourceNodes : option bool)
| TopologicalSort (sourceNodes : option (list string))
    (includeSourceNodes : option bool)
| ShortestPath (source destination : string)
| Serialize
| Deserialize (doc : Serialized.t).

Inductive value : Type :=
| Handle
| NodeList (l : list string)
| Weight (z : Z)
| Degree (n : nat)
| Payload (x : data)
| Path (l : list string) (weight : Z)
| Document (doc : Serialized.t).

Inductive outcome : Type :=
| Returns (v : value)
| Raises (e : error)
| OutOfFuel.

Definition of_list (r : option (list string)) : outcome :=
  match r with
  | Some l => Returns (NodeList l)
  | None => OutOfFuel
  end.

Definition of_path (r : option (completion (list string * Z))) : outcome :=
  match r with
  | Some (Normal (l, w)) => Returns (Path l w)
  | Some (Throw e) => Raises e
  | None => OutOfFuel
  end.

Definition exec (c : call) (g : graph) : outcome * graph :=
  match c with
  | AddNode node => (Returns Handle, addNode g node)
  | RemoveNode node => (Returns Handle, removeNode g node)
  | Nodes => (Returns (NodeList (nodes g)), g)
  | Adjacent node => (Returns (NodeList (adjacent g node)), g)
  | AddEdge u v w x => (Returns Handle, addEdge g u v w x)
  | RemoveEdge u v => (Returns Handle, removeEdge g u v)
  | SetEdgeWeight u v w => (Returns Handle, setEdgeWeight g u v w)
  | GetEdgeWeight u v => (Returns (Weight (getEdgeWeight g u v)), g)
  | SetEdgeData u v x => (Returns Handle, setEdgeData g u v x)
  | GetEdgeData u v => (Returns (Payload (getEdgeData g u v)), g)
  | Indegree node => (Returns (Degree (indegree g node)), g)
  | Outdegree node => (Returns (Degree (outdegree g node)), g)
  | DepthFirstSearch s i => (of_list (depthFirstSearch g s i), g)
  | TopologicalSort s i => (of_list (topologicalSort g s i), g)
  | ShortestPath s t => (of_path (shortestPath g s t), g)
  | Serialize => (Returns (Document (serialize g)), g)
  | Deserialize doc => (Returns Handle, deserialize g doc)
  end.

(** The functions that only read the store. *)
Definition read_only (c : call) : bool :=
  match c with
  | Nodes | Adjacent _ | Indegree _ | Outdegree _
  | DepthFirstSearch _ _ | TopologicalSort _ _
  | ShortestPath _ _ | Serialize => true
  | _ => false
  end.

Definition is_shortestPath (c : call) : bool :=
  match c with ShortestPath _ _ => true | _ => false end.

(** ** Vocabulary of the statements *)

(** [v] is in the adjacency array of [u]. *)
Definition edge (g : graph) (u v : string) : Prop := In v (adjacent g u).

Definition reach (g : graph) : string -> string -> Prop :=
  clos_refl_trans string (edge g).

Definition on_cycle (g : graph) (u : string) : Prop :=
  clos_trans string (edge g) u u.

(** No node that the sources reach lies on a cycle. *)
Definition acyclic_from (g : graph) (sources : list string) : Prop :=
  forall s u, In s sources -> reach g s u -> ~ on_cycle g u.

(** [x] comes before [y] in [l]. *)
Definition precedes (x y : string) (l : list string) : Prop :=
  exists l1 l2 l3, l = l1 ++ x :: l2 ++ y :: l3.

Definition member (x : string) (l : list string) : bool :=
  existsb (String.eqb x) l.

(** Every step of the sequence is an edge of the graph. *)
Fixpoint follows_edges (g : graph) (l : list string) : bool :=
  match l with
  | x :: ((y :: _) as r) => member y (adjacent g x) && follows_edges g r
  | _ => true
  end.

(** The sum of the weights along a sequence, read with [getEdgeWeight]. *)
Fixpoint weight_of (g : graph) (l : list string) : Z :=
  match l with
  | x :: ((y :: _) as r) => (getEdgeWeight g x y + weight_of g r)%Z
  | _ => 0%Z
  end.

(** A route from [s] to [t]: a sequence of nodes that starts at [s], ends
    at [t] and follows edges. *)
Definition route (g : graph) (s t : string) (l : list string) : Prop :=
  hd_error l = Some s /\ last l s = t /\ l <> [] /\ follows_edges g l = true.

(** The weights of the edges that [s] reaches are not negative. *)
Definition nonnegative_from (g : graph) (s : string) : Prop :=
  forall u v, reach g s u -> edge g u v -> (0 <= getEdgeWeight g u v)%Z.

Definition is_visited (st : dfs_state) (x : string) : Prop :=
  truthy (get (visited st) x) = true.

(** The two errors that the specification calls [UnknownNodeError]. *)
Definition unknown_node (e : error) : bool :=
  match e with
  | SourceNotInGraph | DestinationNotInGraph => true
  | NoPathFound => false
  end.

(** ** Reads through the prototype

    The objects of the store are object literals: a read of a key that is
    not an own property finds the member of [Object.prototype] of that name,
    when there is one. *)

Module ObjectPrototype.

Definition members : list string :=
  ["constructor"; "hasOwnProperty"; "isPrototypeOf"; "propertyIsEnumerable";
   "toLocaleString"; "toString"; "valueOf"; "__proto__";
   "__defineGetter__"; "__defineSetter__";
   "__lookupGetter__"; "__lookupSetter__"].

Definition inherited (k : string) : bool := member k members.

Inductive property (V : Type) : Type :=
| Own (v : V)
| Member (name : string)
| Undefined.

Arguments Own {V} v.
Arguments Member {V} name.
Arguments Undefined {V}.

(** [o[k]]. *)
Definition read {V : Type} (o : obj V) (k : string) : property V :=
  match get o k with
  | Some v => Own v
  | None => if inherited k then Member k else Undefined
  end.

(** [edges[node] || []]: a member of the prototype is a function or an
    object, hence truthy. *)
Definition adjacent (g : graph) (node : string) : property (list string) :=
  match read (edges g) node with
  | Undefined => Own []
  | x => x
  end.

(** [removeEdge(u, v)] on a store whose own properties are arrays, as a
    [graph] is: [None] is the [TypeError] of calling [filter] on a value
    that has no such method.  A store in which [addNode] has put a member
    of the prototype is a [Program.store]. *)
Definition removeEdge (g : graph) (u v : string) : option graph :=
  match read (edges g) u with
  | Undefined => Some g
  | Own _ =>
      match adjacent g u with
      | Own l =>
          Some (with_edges g
                  (set (edges g) u
                     (filter (fun _v => negb (String.eqb _v v)) l)))
      | _ => None
      end
  | Member _ => None
  end.

End ObjectPrototype.


(** ** Identifiers that name no member of the prototype

    On a key that names no member of [Object.prototype], a read [o[k]]
    finds an own property or [undefined], [k in o] tells whether [o] has
    the own property, and [o[k] = v] makes or changes the own property:
    there the reading on own properties is the reading of the code. *)

Definition plain (k : string) : bool := negb (ObjectPrototype.inherited k).

Definition all_plain (l : list string) : bool := forallb plain l.

(** ** The program on every identifier

    The embedding above reads a dictionary on its own properties.  The one
    of this module reads it as the language does, through
    [Object.prototype], raises the [TypeError] of a method called on a value
    that has none, and threads the store through every function, the
    readers too.  It is the reference for the identifiers that name a member
    of the prototype; on the others the two embeddings agree. *)

Module Program.

(** What a property of [edges] holds: an array of identifiers or, once
    [addNode] has been called with the name of a member of
    [Object.prototype], that member ([edges[node] = adjacent(node)] stores
    what the read of [edges[node]] found). *)
Inductive entry : Type :=
| Arr (l : list string)
| Builtin (name : string).

Record store : Type := mkStore {
  edges : obj entry;
  edgeWeights : obj Z;
  edgeData : obj data
}.

(** The state of a new [Graph()]. *)
Definition empty_store : store := mkStore empty empty empty.

(** How a call ends when it does not return: with the [TypeError] of the
    engine, with one of the errors that [shortestPath] throws, at a point
    where the run converts a built-in function to text (which the language
    leaves to the engine), or for want of fuel. *)
Inductive abrupt : Type :=
| TypeError
| Thrown (e : error)
| Unmodelled
| OutOfFuel.

Inductive result (A : Type) : Type :=
| Ok (a : A)
| Stop (why : abrupt).

Arguments Ok {A} a.
Arguments Stop {A} why.

(** A function of the handle: it runs on a store and leaves a store. *)
Definition M (A : Type) : Type := store -> result A * store.

Definition ret {A : Type} (a : A) : M A := fun s => (Ok a, s).

Definition stop {A : Type} (why : abrupt) : M A := fun s => (Stop why, s).

Definition bind {A B : Type} (m : M A) (f : A -> M B) : M B :=
  fun s =>
    match m s with
    | (Ok a, s') => f a s'
    | (Stop why, s') => (Stop why, s')
    end.

Notation "x <- m ;; k" := (bind m (fun x => k))
  (at level 61, m at next level, right associativity).

Notation "m ;;; k" := (bind m (fun _ => k))
  (at level 61, right associativity).

(** [l.forEach(f)], for a callback that updates the local variables [st]. *)
Fixpoint forEach {A S : Type} (l : list A) (f : A -> S -> M S) (st : S) : M S :=
  match l with
  | [] => ret st
  | a :: r => st' <- f a st ;; forEach r f st'
  end.

(** *** Reads and writes of the store *)

(** [edges[k]]: the own property, else the member of the prototype of that
    name, else [undefined] ([None]). *)
Definition edges_at (k : string) : M (option entry) :=
  fun s =>
    (Ok match ObjectPrototype.read (edges s) k with
        | ObjectPrototype.Own e => Some e
        | ObjectPrototype.Member name => Some (Builtin name)
        | ObjectPrototype.Undefined => None
        end, s).

(** [Object.keys(edges)]. *)
Definition keys_of_edges : M (list string) := fun s => (Ok (keys (edges s)), s).

(** [k in edges]. *)
Definition in_edges (k : string) : M bool :=
  fun s => (Ok (has (edges s) k || ObjectPrototype.inherited k), s).

(** [edges[k] = e].  Under the key ["__proto__"] the setter of the prototype
    runs instead: the value is then the prototype itself, which the read of
    [edges["__proto__"]] found, and nothing changes. *)
Definition set_edges (k : string) (e : entry) : M unit :=
  fun s =>
    (Ok tt,
     if String.eqb k "__proto__" then s
     else mkStore (set (edges s) k e) (edgeWeights s) (edgeData s)).

(** [delete edges[k]]. *)
Definition delete_edges (k : string) : M unit :=
  fun s => (Ok tt, mkStore (del (edges s) k) (edgeWeights s) (edgeData s)).

(** [edgeWeights[k]] and [edgeData[k]], for a key made by [encodeEdge] or
    [encodeDataEdge]: it has the character ["|"], so it names no member of
    the prototype. *)
Definition edgeWeights_at (k : string) : M (option Z) :=
  fun s => (Ok (get (edgeWeights s) k), s).

Definition edgeData_at (k : string) : M (option data) :=
  fun s => (Ok (get (edgeData s) k), s).

Definition set_edgeWeights (k : string) (w : Z) : M unit :=
  fun s => (Ok tt, mkStore (edges s) (set (edgeWeights s) k w) (edgeData s)).

Definition set_edgeData (k : string) (x : data) : M unit :=
  fun s => (Ok tt, mkStore (edges s) (edgeWeights s) (set (edgeData s) k x)).

(** *** Local dictionaries *)

(** [o[k] = v] on a local object literal, for a value [v] that is no
    object: the own property is made or changed, and under the key
    ["__proto__"] the setter of the prototype ignores the value. *)
Definition assign {V : Type} (o : obj V) (k : string) (v : V) : obj V :=
  if String.eqb k "__proto__" then o else set o k v.

(** Truthiness of [visited[node]]: a member of the prototype is truthy. *)
Definition marked (o : obj bool) (k : string) : bool :=
  match ObjectPrototype.read o k with
  | ObjectPrototype.Own b => b
  | ObjectPrototype.Member _ => true
  | ObjectPrototype.Undefined => false
  end.

(** [ToNumber] of [d[k]] in a comparison with a number: [undefined] and the
    members of the prototype convert to [NaN]. *)
Definition number (o : obj num) (k : string) : num :=
  match ObjectPrototype.read o k with
  | ObjectPrototype.Own n => n
  | _ => NaN
  end.

(** [d[k] !== Infinity]. *)
Definition not_infinity (o : obj num) (k : string) : bool :=
  match ObjectPrototype.read o k with
  | ObjectPrototype.Own Infinity => false
  | _ => true
  end.

(** *** Nodes and edges *)

(** [adjacent(node)]: [edges[node] || []]; arrays and members of the
    prototype are truthy. *)
Definition adjacent (node : string) : M entry :=
  e <- edges_at node ;;
  ret match e with Some x => x | None => Arr [] end.

(** [addNode(node)]. *)
Definition addNode (node : string) : M unit :=
  e <- adjacent node ;; set_edges node e.

(** [removeEdge(u, v)]. *)
Definition removeEdge (u v : string) : M unit :=
  e <- edges_at u ;;
  match e with
  | Some _ =>
      a <- adjacent u ;;
      match a with
      | Arr l => set_edges u (Arr (filter (fun _v => negb (String.eqb _v v)) l))
      | Builtin _ => stop TypeError
      end
  | None => ret tt
  end.

(** [edges[u].forEach(...)] for a key [u]: the array that the loop runs
    over, or the [TypeError] of a value without [forEach]. *)
Definition array_at (u : string) : M (list string) :=
  e <- edges_at u ;;
  match e with
  | Some (Arr l) => ret l
  | _ => stop TypeError
  end.

(** [removeNode(node)]. *)
Definition removeNode (node : string) : M unit :=
  ks <- keys_of_edges ;;
  forEach ks
    (fun u _ =>
       l <- array_at u ;;
       forEach l
         (fun v _ => if String.eqb v node then removeEdge u v else ret tt) tt)
    tt ;;;
  delete_edges node.

(** [nodes()]. *)
Definition nodes : M (list string) :=
  ks <- keys_of_edges ;;
  nodeSet <-
    forEach ks
      (fun u nodeSet =>
         l <- array_at u ;;
         ret (fold_left (fun ns v => assign ns v true) l
                (assign nodeSet u true)))
      empty ;;
  ret (keys nodeSet).

Definition setEdgeWeight (u v : string) (weight : Z) : M unit :=
  set_edgeWeights (encodeEdge u v) weight.

Definition setEdgeData (u v : string) (x : data) : M unit :=
  set_edgeData (encodeDataEdge u v) x.

Definition getEdgeWeight (u v : string) : M Z :=
  weight <- edgeWeights_at (encodeEdge u v) ;;
  ret match weight with Some w => w | None => 1%Z end.

Definition getEdgeData (u v : string) : M data :=
  x <- edgeData_at (encodeDataEdge u v) ;;
  ret match x with Some x' => x' | None => empty_record end.

(** [addEdge(u, v, weight, data)].  After [addNode(u)] the array that
    [adjacent(u)] returns is the one that [edges[u]] holds, and [push]
    appends to it; a member of the prototype has no [push]. *)
Definition addEdge (u v : string) (weight : option Z) (x : option data)
  : M unit :=
  addNode u ;;;
  addNode v ;;;
  a <- adjacent u ;;
  match a with
  | Arr l => set_edges u (Arr (l ++ [v]))
  | Builtin _ => stop TypeError
  end ;;;
  match weight with Some w => setEdgeWeight u v w | None => ret tt end ;;;
  match x with Some x' => setEdgeData u v x' | None => ret tt end.

(** [indegree(node)]. *)
Definition indegree (node : string) : M nat :=
  ks <- keys_of_edges ;;
  forEach ks
    (fun u degree =>
       l <- array_at u ;;
       ret (fold_left
              (fun degree' v => if String.eqb v node then S degree' else degree')
              l degree))
    0.

(** The [length] of a member of the prototype: the number of parameters of
    the function; the prototype itself, read under ["__proto__"], has
    none. *)
Definition builtin_length (name : string) : option nat :=
  if String.eqb name "__proto__" then None
  else if member name ["toLocaleString"; "toString"; "valueOf"] then Some 0
  else if member name ["__defineGetter__"; "__defineSetter__"] then Some 2
  else Some 1.

(** [outdegree(node)]; [None] is [undefined]. *)
Definition outdegree (node : string) : M (option nat) :=
  b <- in_edges node ;;
  if b then
    e <- edges_at node ;;
    ret match e with
        | Some (Arr l) => Some (List.length l)
        | Some (Builtin name) => builtin_length name
        | None => None
        end
  else ret (Some 0).

(** *** Depth-first search and topological sort *)

(** The identifiers that the store mentions; their number bounds the depth
    of the recursion. *)
Definition identifiers (s : store) : list string :=
  flat_map
    (fun kv => fst kv :: match snd kv with Arr l => l | Builtin _ => [] end)
    (edges s).

(** [adjacent(node).forEach(...)]: the array that the loop runs over. *)
Definition adjacent_array (node : string) : M (list string) :=
  a <- adjacent node ;;
  match a with
  | Arr l => ret l
  | Builtin _ => stop TypeError
  end.

Definition mark (node : string) (st : dfs_state) : dfs_state :=
  mkDfs (assign (visited st) node true) (nodeList st).

Fixpoint DFSVisit (fuel : nat) (node : string) (st : dfs_state) : M dfs_state :=
  match fuel with
  | O => stop OutOfFuel
  | S fuel' =>
      if marked (visited st) node then ret st
      else
        l <- adjacent_array node ;;
        st' <- forEach l (DFSVisit fuel') (mark node st) ;;
        ret (push node st')
  end.

(** The fuel of a traversal: more than the number of identifiers in the
    store. *)
Definition with_fuel {A : Type} (body : nat -> M A) : M A :=
  fun s => body (S (List.length (identifiers s))) s.

(** [depthFirstSearch(sourceNodes, includeSourceNodes)]. *)
Definition depthFirstSearch (sourceNodes : option (list string))
  (includeSourceNodes : option bool) : M (list string) :=
  sourceNodes <- match sourceNodes with Some l => ret l | None => nodes end ;;
  let includeSourceNodes :=
    match includeSourceNodes with Some b => b | None => true end in
  let st0 := mkDfs empty [] in
  with_fuel
    (fun fuel =>
       st <-
         (if includeSourceNodes then forEach sourceNodes (DFSVisit fuel) st0
          else
            forEach sourceNodes
              (fun node st1 =>
                 l <- adjacent_array node ;; forEach l (DFSVisit fuel) st1)
              (fold_left (fun st1 node => mark node st1) sourceNodes st0)) ;;
       ret (nodeList st)).

Definition topologicalSort (sourceNodes : option (list string))
  (includeSourceNodes : option bool) : M (list string) :=
  l <- depthFirstSearch sourceNodes includeSourceNodes ;; ret (rev l).

(** *** Shortest path *)

Definition initializeSingleSource (source destination : string)
  (st : sp_state) : M sp_state :=
  ns <- nodes ;;
  let d1 := fold_left (fun d0 node => assign d0 node Infinity) ns (d st) in
  if not_infinity d1 source then stop (Thrown SourceNotInGraph)
  else if not_infinity d1 destination then stop (Thrown DestinationNotInGraph)
  else ret (mkSp (assign d1 source (Fin 0)) (p st) (q st)).

Definition initializePriorityQueue (st : sp_state) : M sp_state :=
  ns <- nodes ;;
  ret (mkSp (d st) (p st)
         (fold_left (fun q0 node => assign q0 node true) ns (q st))).

Definition scan_min (dt : obj num) (ks : list string) : num * option string :=
  fold_left
    (fun '(min, minNode) node =>
       if num_lt (number dt node) min then (number dt node, Some node)
       else (min, minNode))
    ks (Infinity, None).

Definition extractMin (st : sp_state) : option string * sp_state :=
  match snd (scan_min (d st) (keys (q st))) with
  | None => (None, mkSp (d st) (p st) empty)
  | Some minNode => (Some minNode, mkSp (d st) (p st) (del (q st) minNode))
  end.

(** [relax(u, v)].  Were [d[u]] a member of the prototype, [d[u] + w] would
    be a text; [extractMin] returns a key whose entry is a number, or
    [null]. *)
Definition relax (u : option string) (v : string) (st : sp_state)
  : M sp_state :=
  w <- getEdgeWeight (key_of u) v ;;
  match ObjectPrototype.read (d st) (key_of u) with
  | ObjectPrototype.Member _ => stop Unmodelled
  | _ =>
      let sum := num_add (number (d st) (key_of u)) w in
      if num_gt (number (d st) v) sum
      then ret (mkSp (assign (d st) v sum) (assign (p st) v u) (q st))
      else ret st
  end.

Fixpoint dijkstra_loop (fuel : nat) (st : sp_state) : M sp_state :=
  if priorityQueueEmpty st then ret st
  else
    match fuel with
    | O => stop OutOfFuel
    | S fuel' =>
        let (u, st1) := extractMin st in
        l <- adjacent_array (key_of u) ;;
        st2 <- forEach l (relax u) st1 ;;
        dijkstra_loop fuel' st2
    end.

Definition dijkstra (source destination : string) : M sp_state :=
  st1 <- initializeSingleSource source destination (mkSp empty empty empty) ;;
  st2 <- initializePriorityQueue st1 ;;
  dijkstra_loop (List.length (keys (q st2))) st2.

(** The [while (p[node])] loop of [path].  A member of the prototype is
    truthy, and the walk would go on from its text. *)
Fixpoint path_loop (fuel : nat) (pt : obj (option string)) (node : string)
  (nodeList0 : list string) (weight : Z) : M (string * list string * Z) :=
  match ObjectPrototype.read pt node with
  | ObjectPrototype.Member _ => stop Unmodelled
  | ObjectPrototype.Own (Some u) =>
      if String.eqb u "" then ret (node, nodeList0, weight)
      else
        match fuel with
        | O => stop OutOfFuel
        | S fuel' =>
            w <- getEdgeWeight u node ;;
            path_loop fuel' pt u (nodeList0 ++ [node]) (weight + w)
        end
  | _ => ret (node, nodeList0, weight)
  end.

Definition path (source destination : string) (st : sp_state)
  : M (list string * Z) :=
  r <- path_loop (S (List.length (keys (d st)))) (p st) destination [] 0%Z ;;
  let '(node, nodeList0, weight) := r in
  if negb (String.eqb node source) then stop (Thrown NoPathFound)
  else ret (rev (nodeList0 ++ [node]), weight).

(** [shortestPath(source, destination)]. *)
Definition shortestPath (source destination : string) : M (list string * Z) :=
  st <- dijkstra source destination ;; path source destination st.

(** *** Serialization *)

Definition serialize : M Serialized.t :=
  ns <- nodes ;;
  links <-
    forEach ns
      (fun source links =>
         l <- adjacent_array source ;;
         forEach l
           (fun target links' =>
              w <- getEdgeWeight source target ;;
              x <- getEdgeData source target ;;
              ret (links' ++ [Serialized.mkLink source target (Some w) (Some x)]))
           links)
      [] ;;
  ret (Serialized.mk (map Serialized.mkNode ns) links).

Definition deserialize (doc : Serialized.t) : M unit :=
  forEach (Serialized.nodes doc) (fun n _ => addNode (Serialized.id n)) tt ;;;
  forEach (Serialized.links doc)
    (fun l _ =>
       addEdge (Serialized.source l) (Serialized.target l)
         (Serialized.weight l) (Serialized.data l))
    tt.

(** [Graph(serialized)]: the outcome of the constructor and its store. *)
Definition Graph (doc : option Serialized.t) : result unit * store :=
  match doc with
  | Some x => deserialize x empty_store
  | None => (Ok tt, empty_store)
  end.

(** *** The handle *)

Inductive value : Type :=
| Handle
| NodeList (l : list string)
| Adjacency (a : entry)
| Weight (z : Z)
| Degree (n : option nat)
| Payload (x : data)
| Path (l : list string) (weight : Z)
| Document (doc : Serialized.t).

Definition returning {A : Type} (v : A -> value) (m : M A) : M value :=
  a <- m ;; ret (v a).

(** A call of a function of the handle. *)
Definition run (c : call) : M value :=
  match c with
  | AddNode node => returning (fun _ => Handle) (addNode node)
  | RemoveNode node => returning (fun _ => Handle) (removeNode node)
  | Nodes => returning NodeList nodes
  | Adjacent node => returning Adjacency (adjacent node)
  | AddEdge u v w x => returning (fun _ => Handle) (addEdge u v w x)
  | RemoveEdge u v => returning (fun _ => Handle) (removeEdge u v)
  | SetEdgeWeight u v w => returning (fun _ => Handle) (setEdgeWeight u v w)
  | GetEdgeWeight u v => returning Weight (getEdgeWeight u v)
  | SetEdgeData u v x => returning (fun _ => Handle) (setEdgeData u v x)
  | GetEdgeData u v => returning Payload (getEdgeData u v)
  | Indegree node => returning (fun n => Degree (Some n)) (indegree node)
  | Outdegree node => returning Degree (outdegree node)
  | DepthFirstSearch s i => returning NodeList (depthFirstSearch s i)
  | TopologicalSort s i => returning NodeList (topologicalSort s i)
  | ShortestPath s t => returning (fun r => Path (fst r) (snd r)) (shortestPath s t)
  | Serialize => returning Document serialize
  | Deserialize doc => returning (fun _ => Handle) (deserialize doc)
  end.

(** A computation that leaves every store as it finds it. *)
Definition reads {A : Type} (m : M A) : Prop := forall s, snd (m s) = s.

(** A computation that keeps a property of the store, however it ends. *)
Definition keeps {A : Type} (P : store -> Prop) (m : M A) : Prop :=
  forall s, P s -> P (snd (m s)).

(** What the entries of [edges] are like in every store of the program:
    an array is under a key that names no member of the prototype, and a
    member of the prototype is under its own name, which is not
    ["__proto__"]. *)
Definition entry_ok (kv : string * entry) : bool :=
  match snd kv with
  | Arr _ => plain (fst kv)
  | Builtin name =>
      String.eqb name (fst kv) && ObjectPrototype.inherited name
      && negb (String.eqb name "__proto__")
  end.

Definition well_formed (s : store) : bool := forallb entry_ok (edges s).

End Program.

(** ** Stores and arguments without the names of the prototype *)

(** Every key of [edges] and every entry of an adjacency array is plain. *)
Definition plain_store (g : graph) : bool :=
  forallb (fun kv => plain (fst kv) && all_plain (snd kv)) (edges g).

Definition plain_sources (sourceNodes : option (list string)) : bool :=
  match sourceNodes with Some l => all_plain l | None => true end.

Definition plain_document (doc : Serialized.t) : bool :=
  forallb (fun n => plain (Serialized.id n)) (Serialized.nodes doc)
  && forallb
       (fun l => plain (Serialized.source l) && plain (Serialized.target l))
       (Serialized.links doc).

(** The identifiers that a call passes are plain; [removeNode], [indegree]
    and [shortestPath] read no property of [edges] under their arguments. *)
Definition plain_call (c : call) : bool :=
  match c with
  | AddNode node | Adjacent node | Outdegree node => plain node
  | AddEdge u v _ _ => plain u && plain v
  | RemoveEdge u _ => plain u
  | DepthFirstSearch s _ | TopologicalSort s _ => plain_sources s
  | Deserialize doc => plain_document doc
  | _ => true
  end.

(** The store of the program that a graph stands for: every property of
    [edges] holds an array. *)
Definition embed (g : graph) : Program.store :=
  Program.mkStore
    (map (fun kv => (fst kv, Program.Arr (snd kv))) (edges g))
    (edgeWeights g) (edgeData g).

(** The arrays of a store, as a graph: the properties of [edges] that hold
    an array. *)
Definition arrays (s : Program.store) : graph :=
  mkGraph
    (flat_map
       (fun kv =>
          match snd kv with
          | Program.Arr l => [(fst kv, l)]
          | Program.Builtin _ => []
          end)
       (Program.edges s))
    (Program.edgeWeights s) (Program.edgeData s).

(** The same without the entries of the arrays that name a member of the
    prototype: [visited] reads as truthy for them, so that no traversal
    goes into them. *)
Definition plain_arrays (s : Program.store) : graph :=
  mkGraph
    (map (fun kv => (fst kv, filter plain (snd kv))) (edges (arrays s)))
    (Program.edgeWeights s) (Program.edgeData s).

(** The source nodes of a call on a store: the argument, or what [nodes()]
    returns or raises without one. *)
Definition sources_of (s : Program.store) (sourceNodes : option (list string))
  : Program.result (list string) :=
  match sourceNodes with
  | Some l => Program.Ok l
  | None => fst (Program.nodes s)
  end.

(** No property of [visited] holds [false]: the code stores [true] only. *)
Definition marks_true (st : dfs_state) : Prop :=
  forall k, get (visited st) k <> Some false.

(** The outcome of a computation that may run out of fuel, that may throw,
    or both. *)
Definition fuelled {A : Type} (r : option A) : Program.result A :=
  match r with
  | Some a => Program.Ok a
  | None => Program.Stop Program.OutOfFuel
  end.

Definition thrown {A : Type} (r : completion A) : Program.result A :=
  match r with
  | Normal a => Program.Ok a
  | Throw e => Program.Stop (Program.Thrown e)
  end.

Definition completed {A : Type} (r : option (completion A)) : Program.result A :=
  match r with
  | Some (Normal a) => Program.Ok a
  | Some (Throw e) => Program.Stop (Program.Thrown e)
  | None => Program.Stop Program.OutOfFuel
  end.

(** What a call of the program returns when the function on graphs gives
    the outcome [o]. *)
Definition agreed (c : call) (o : outcome) : Program.result Program.value :=
  match o with
  | Returns v =>
      Program.Ok
        match v with
        | Handle => Program.Handle
        | NodeList l =>
            match c with
            | Adjacent _ => Program.Adjacency (Program.Arr l)
            | _ => Program.NodeList l
            end
        | Weight z => Program.Weight z
        | Degree n => Program.Degree (Some n)
        | Payload x => Program.Payload x
        | Path l w => Program.Path l w
        | Document doc => Program.Document doc
        end
  | Raises e => Program.Stop (Program.Thrown e)
  | OutOfFuel => Program.Stop Program.OutOfFuel
  end.

(** The derived node set of the specification: the keys of [edges] and the
    entries of the adjacency arrays. *)
Definition in_graph (g : graph) (x : string) : Prop :=
  has (edges g) x = true \/ exists u, edge g u x.

(** ** Weights whose sums are exact

    Weights are integers here, and the numbers of the code are doubles; a
    sum of doubles that are integers is exact when it is at most [2^53].
    Under [bounded_weights g W] every stored weight lies between 0 and [W],
    as does the default weight 1, and a sum of as many weights as there are
    nodes, and one more, stays within [2^53]. *)
Definition bounded_weights (g : graph) (W : Z) : bool :=
  forallb (fun kw => (0 <=? snd kw)%Z && (snd kw <=? W)%Z) (edgeWeights g)
  && (1 <=? W)%Z
  && ((Z.of_nat (List.length (nodes g)) + 1) * W <=? 2 ^ 53)%Z.

(** ** Vocabulary of the traversal proofs *)

(** The source nodes of a call: the argument, or [nodes()] without one. *)
Definition chosen_sources (g : graph) (sourceNodes : option (list string))
  : list string :=
  match sourceNodes with Some l => l | None => nodes g end.

(** Whether the sources are left out: [includeSourceNodes] is [false]. *)
Definition excludes (includeSourceNodes : option bool) : bool :=
  match includeSourceNodes with Some b => negb b | None => false end.

(** What a traversal started at [roots] adds between two of its states: the
    nodes [news], appended to [nodeList] and marked, none of them marked
    before, each reached from a root; and every entry [v] of the adjacency
    array of a new node [u] is marked, and either it was appended before
    [u], or it was marked and not appended when the traversal started, or
    it reaches [u]. *)
Definition dfs_step (g : graph) (roots : list string) (st st' : dfs_state)
  : Prop :=
  exists news,
    nodeList st' = nodeList st ++ news /\
    (forall x, is_visited st' x <-> is_visited st x \/ In x news) /\
    NoDup news /\
    (forall x, In x news -> ~ is_visited st x) /\
    (forall x, In x news -> exists r, In r roots /\ reach g r x) /\
    (forall u v, In u news -> edge g u v ->
       is_visited st' v /\
       (precedes v u (nodeList st')
        \/ (is_visited st v /\ ~ In v (nodeList st))
        \/ reach g v u)).

(** The nodes of the graph that a state has not marked. *)
Definition unvisited (g : graph) (st : dfs_state) : list string :=
  filter (fun x => negb (truthy (get (visited st) x))) (nodes g).

(** ** Graphs of the examples *)

(** The graph with the edges A->B, B->C and A->C, each of weight 1. *)
Definition triangle : graph :=
  addEdge
    (addEdge (addEdge empty_graph "A" "B" (Some 1%Z) None) "B" "C" (Some 1%Z) None)
    "A" "C" (Some 1%Z) None.

Definition triangle_rank (u : string) : nat :=
  if String.eqb "A" u then 0 else if String.eqb "B" u then 1 else 2.

(** The graph with the single edge from the empty identifier to ["a"]. *)
Definition from_empty_id : graph := addEdge empty_graph "" "a" None None.

(** ** Vocabulary of the serialization proofs *)

(** One turn of the second loop of [deserialize]. *)
Definition add_link (g0 : graph) (l : Serialized.link) : graph :=
  addEdge g0 (Serialized.source l) (Serialized.target l)
    (Serialized.weight l) (Serialized.data l).

(** The links of a document that leave [x], in their order. *)
Definition links_from (x : string) (ls : list Serialized.link)
  : list Serialized.link :=
  filter (fun l => String.eqb (Serialized.source l) x) ls.

(** The links that [serialize] writes for the node [n]. *)
Definition links_of (g : graph) (n : string) : list Serialized.link :=
  map (fun target =>
         Serialized.mkLink n target
           (Some (getEdgeWeight g n target))
           (Some (getEdgeData g n target)))
    (adjacent g n).

(** Whether a link of the list has the weight key, or the payload key, of
    the pair [(a, b)]. *)
Definition weight_key_in (a b : string) (ls : list Serialized.link) : bool :=
  existsb
    (fun l =>
       String.eqb (encodeEdge (Serialized.source l) (Serialized.target l))
         (encodeEdge a b))
    ls.

Definition data_key_in (a b : string) (ls : list Serialized.link) : bool :=
  existsb
    (fun l =>
       String.eqb (encodeDataEdge (Serialized.source l) (Serialized.target l))
         (encodeDataEdge a b))
    ls.

(** ** Vocabulary of the invariants *)

(** [_v !== v], the test of the filter in [removeEdge]. *)
Definition differs (v : string) (_v : string) : bool := negb (String.eqb _v v).

(** One turn of the outer loop of [removeNode]. *)
Definition remove_incoming (node : string) (g0 : graph) (u : string) : graph :=
  fold_left
    (fun g' v => if String.eqb v node then removeEdge g' u v else g')
    (adjacent g0 u) g0.

(** What [addNode] and [addEdge] keep of a store: [edges] has no key
    twice, and every entry of an adjacency array is a key of [edges]. *)
Definition store_inv (g : graph) : Prop :=
  NoDup (map fst (edges g)) /\
  forall u v, edge g u v -> has (edges g) v = true.

(** ** Vocabulary of the shortest-path proofs *)

Definition inq (st : sp_state) (x : string) : Prop := has (q st) x = true.

(** The entry of [x] in the distance table is the number [z]. *)
Definition fin (st : sp_state) (x : string) (z : Z) : Prop :=
  get (d st) x = Some (Fin z).

(** The entry of [x] in the distance table is [Infinity]. *)
Definition inf (st : sp_state) (x : string) : Prop :=
  get (d st) x = Some Infinity.

(** The nodes that [extractMin] has returned, the last one first: none
    twice, in the order of their distances, the oldest being the source,
    and each of the others with its predecessor among the older ones, at
    the distance of the predecessor plus the weight of the edge. *)
Fixpoint pred_ok (g : graph) (s : string) (st : sp_state) (done : list string)
  : Prop :=
  match done with
  | [] => True
  | v :: older =>
      pred_ok g s st older /\ ~ In v older /\
      (forall u zu zv, In u older -> fin st u zu -> fin st v zv -> (zu <= zv)%Z) /\
      ((v = s /\ older = [])
       \/ (v <> s /\
           exists u zu,
             get (p st) v = Some (Some u) /\ In u older /\ fin st u zu /\
             edge g u v /\ fin st v (zu + getEdgeWeight g u v)%Z))
  end.

(** The invariant of the loop of [dijkstra], for the source [s] and the
    extracted nodes [done]; [E] tells the edges that have been relaxed
    among those that leave an extracted node. *)
Record sp_inv (g : graph) (s : string) (E : string -> string -> Prop)
  (done : list string) (st : sp_state) : Prop := mk_sp_inv {
  inv_q_nodup : NoDup (map fst (q st));
  inv_q_nodes : forall x, inq st x -> In x (nodes g) /\ ~ In x done;
  inv_done_nodes : forall x, In x done -> In x (nodes g);
  inv_rest :
    (forall x, In x (nodes g) -> ~ In x done -> inq st x)
    \/ (q st = [] /\ forall x, In x (nodes g) -> ~ In x done -> inf st x);
  inv_d_nodes : forall x, In x (nodes g) -> (exists z, fin st x z) \/ inf st x;
  inv_d_other : forall x, ~ In x (nodes g) -> get (d st) x = None;
  inv_done_fin : forall x, In x done -> exists z, fin st x z;
  inv_source : fin st s 0 /\ get (p st) s = None /\ (done <> [] -> In s done);
  inv_relaxed :
    forall u v zu, In u done -> fin st u zu -> edge g u v -> E u v ->
      exists zv, fin st v zv /\ (zv <= zu + getEdgeWeight g u v)%Z;
  inv_order :
    forall u v zu zv, In u done -> fin st u zu -> inq st v -> fin st v zv ->
      (zu <= zv)%Z;
  inv_reach : forall x z, fin st x z -> reach g s x;
  inv_pred_q :
    forall v z, ~ In v done -> fin st v z -> v <> s ->
      exists u zu,
        get (p st) v = Some (Some u) /\ In u done /\ fin st u zu /\
        edge g u v /\ z = (zu + getEdgeWeight g u v)%Z;
  inv_pred_inf : forall v, ~ (exists z, fin st v z) -> get (p st) v = None;
  inv_pred_ok : pred_ok g s st done
}.

(** Every edge counts. *)
Definition all_edges (u v : string) : Prop := True.

(** The edges relaxed in the middle of a turn: all those that leave the
    older extracted nodes, and those from [m] to the nodes of [seen]. *)
Definition edges_but (m : string) (seen : list string) (u v : string) : Prop :=
  u <> m \/ In v seen.

(** The state that the loop of [dijkstra] starts from. *)
Definition sp_init (g : graph) (s : string) : sp_state :=
  initializePriorityQueue g
    (mkSp (set (fold_left (fun d0 node => set d0 node Infinity) (nodes g) empty)
             s (Fin 0))
       empty empty).

(** ** Identifiers without the separator *)

(** The identifier has no character ["|"]. *)
Fixpoint no_bar (s : string) : bool :=
  match s with
  | EmptyString => true
  | String c r => negb (Ascii.eqb c "|"%char) && no_bar r
  end.

(** * Properties *)

(** ** Dictionaries *)

Section DictionaryFacts.

Context {V : Type}.

Implicit Types (o : obj V) (k : string) (v : V).

Lemma get_set_same o k v : get (set o k v) k = Some v.
Proof.
  induction o as [|[k' v'] r IH]; simpl.
  - now rewrite String.eqb_refl.
  - destruct (String.eqb k' k) eqn:E; simpl; rewrite E; auto.
Qed.

Lemma get_set_other o k k' v : k <> k' -> get (set o k v) k' = get o k'.
Proof.
  intros Hne. induction o as [|[k0 v0] r IH]; simpl.
  - apply String.eqb_neq in Hne. now rewrite Hne.
  - destruct (String.eqb k0 k) eqn:E; simpl.
    + apply String.eqb_eq in E. subst k0.
      apply String.eqb_neq in Hne. now rewrite Hne.
    + destruct (String.eqb k0 k'); auto.
Qed.

Lemma get_set o k k' v :
  get (set o k v) k' = if String.eqb k k' then Some v else get o k'.
Proof.
  destruct (String.eqb k k') eqn:E.
  - apply String.eqb_eq in E. subst. apply get_set_same.
  - apply String.eqb_neq in E. now apply get_set_other.
Qed.

Lemma get_In o k v : get o k = Some v -> In k (map fst o).
Proof.
  induction o as [|[k' v'] r IH]; simpl; [discriminate|].
  destruct (String.eqb k' k) eqn:E.
  - apply String.eqb_eq in E. auto.
  - auto.
Qed.

Lemma In_get o k : In k (map fst o) -> exists v, get o k = Some v.
Proof.
  induction o as [|[k' v'] r IH]; simpl; [tauto|].
  intros [->|H].
  - rewrite String.eqb_refl. eauto.
  - destruct (String.eqb k' k); eauto.
Qed.

Lemma get_None o k : get o k = None <-> ~ In k (map fst o).
Proof.
  split.
  - intros E H. apply In_get in H. destruct H as [v H]. congruence.
  - intros H. destruct (get o k) eqn:E; auto.
    apply get_In in E. tauto.
Qed.

Lemma has_In o k : has o k = true <-> In k (map fst o).
Proof.
  unfold has. split.
  - destruct (get o k) eqn:E; [|discriminate]. intros _. eapply get_In; eauto.
  - intros H. apply In_get in H. destruct H as [v ->]. reflexivity.
Qed.

Lemma map_fst_set o k v :
  map fst (set o k v) = if has o k then map fst o else map fst o ++ [k].
Proof.
  unfold has. induction o as [|[k' v'] r IH]; simpl; auto.
  destruct (String.eqb k' k) eqn:E; simpl; auto.
  rewrite IH. now destruct (get r k).
Qed.

Lemma In_set o k v x : In x (map fst (set o k v)) <-> x = k \/ In x (map fst o).
Proof.
  rewrite map_fst_set. destruct (has o k) eqn:E.
  - apply has_In in E. split; [tauto|]. intros [->|H]; auto.
  - rewrite in_app_iff. simpl. split; intros H; intuition auto.
Qed.

Lemma NoDup_set o k v : NoDup (map fst o) -> NoDup (map fst (set o k v)).
Proof.
  intros H. rewrite map_fst_set. destruct (has o k) eqn:E; auto.
  assert (~ In k (map fst o)) as Hk.
  { intros Hin. apply has_In in Hin. congruence. }
  clear E. induction (map fst o) as [|a l IH]; simpl.
  - constructor; [tauto | constructor].
  - inversion H; subst. constructor.
    + rewrite in_app_iff. simpl in *. intuition auto.
    + apply IH; auto. simpl in Hk. tauto.
Qed.

Lemma get_del_other o k k' : k <> k' -> get (del o k) k' = get o k'.
Proof.
  intros Hne. induction o as [|[k0 v0] r IH]; simpl; auto.
  destruct (String.eqb k0 k) eqn:E; simpl.
  - apply String.eqb_eq in E. subst k0.
    apply String.eqb_neq in Hne. now rewrite Hne.
  - destruct (String.eqb k0 k'); auto.
Qed.

Lemma In_del o k x : In x (map fst (del o k)) -> In x (map fst o).
Proof.
  induction o as [|[k0 v0] r IH]; simpl; auto.
  destruct (String.eqb k0 k); simpl; intuition auto.
Qed.

Lemma get_del_same o k : NoDup (map fst o) -> get (del o k) k = None.
Proof.
  induction o as [|[k0 v0] r IH]; simpl; auto.
  intros H. inversion H; subst.
  destruct (String.eqb k0 k) eqn:E; simpl.
  - apply String.eqb_eq in E. subst k0. now apply get_None.
  - rewrite E. auto.
Qed.

Lemma NoDup_del o k : NoDup (map fst o) -> NoDup (map fst (del o k)).
Proof.
  induction o as [|[k0 v0] r IH]; simpl; auto.
  intros H. inversion H; subst.
  destruct (String.eqb k0 k); simpl; auto.
  constructor; auto. intros Hin. apply In_del in Hin. tauto.
Qed.

End DictionaryFacts.

(** [Object.keys] lists the own keys, each once. *)

Lemma insert_index_perm n k l :
  Permutation (map snd (insert_index n k l)) (k :: map snd l).
Proof.
  induction l as [|[m k'] r IH]; simpl; auto.
  destruct (n <? m)%N; simpl; auto.
  rewrite IH. apply perm_swap.
Qed.

Lemma order_keys_perm ks : Permutation (order_keys ks) ks.
Proof.
  unfold order_keys. induction ks as [|k r IH]; simpl; auto.
  destruct (own_keys r) as [idx names].
  destruct (array_index k).
  - rewrite insert_index_perm. simpl. auto.
  - symmetry. apply Permutation_cons_app. now symmetry.
Qed.

Lemma keys_perm {V : Type} (o : obj V) : Permutation (keys o) (map fst o).
Proof. apply order_keys_perm. Qed.

Lemma In_keys {V : Type} (o : obj V) k : In k (keys o) <-> In k (map fst o).
Proof.
  split; apply Permutation_in; [|symmetry]; apply keys_perm.
Qed.

Lemma keys_has {V : Type} (o : obj V) k : In k (keys o) <-> has o k = true.
Proof. rewrite In_keys. symmetry. apply has_In. Qed.

Lemma NoDup_keys {V : Type} (o : obj V) :
  NoDup (map fst o) -> NoDup (keys o).
Proof.
  intros H. eapply Permutation_NoDup; [|exact H]. symmetry. apply keys_perm.
Qed.

Lemma keys_length {V : Type} (o : obj V) :
  List.length (keys o) = List.length o.
Proof.
  rewrite (Permutation_length (keys_perm o)). apply length_map.
Qed.

(** ** The derived node set *)

Lemma set_all_In (l : list string) (ns : obj bool) x :
  In x (map fst (fold_left (fun ns' v => set ns' v true) l ns))
  <-> In x l \/ In x (map fst ns).
Proof.
  revert ns. induction l as [|a l IH]; simpl; intros ns.
  - tauto.
  - rewrite IH, In_set. intuition auto.
Qed.

Lemma set_all_NoDup (l : list string) (ns : obj bool) :
  NoDup (map fst ns) ->
  NoDup (map fst (fold_left (fun ns' v => set ns' v true) l ns)).
Proof.
  revert ns. induction l as [|a l IH]; simpl; intros ns H; auto.
  apply IH. now apply NoDup_set.
Qed.

Lemma nodeSet_fold_In (g : graph) (ks : list string) (ns : obj bool) x :
  In x (map fst
          (fold_left
             (fun ns0 u =>
                fold_left (fun ns' v => set ns' v true) (adjacent g u)
                  (set ns0 u true))
             ks ns))
  <-> (In x ks \/ exists u, In u ks /\ In x (adjacent g u))
      \/ In x (map fst ns).
Proof.
  revert ns. induction ks as [|k ks IH]; simpl; intros ns.
  - split; [tauto|]. intros [[[]|(u & [] & _)]|H]; auto.
  - rewrite IH, set_all_In, In_set. split.
    + intros [[H|(u & Hu & Hx)]|[H|[->|H]]]; eauto 6.
    + intros [[[->|H]|(u & [->|Hu] & Hx)]|H]; eauto 6.
Qed.

Lemma nodeSet_fold_NoDup (g : graph) (ks : list string) (ns : obj bool) :
  NoDup (map fst ns) ->
  NoDup (map fst
           (fold_left
              (fun ns0 u =>
                 fold_left (fun ns' v => set ns' v true) (adjacent g u)
                   (set ns0 u true))
              ks ns)).
Proof.
  revert ns. induction ks as [|k ks IH]; simpl; intros ns H; auto.
  apply IH, set_all_NoDup. now apply NoDup_set.
Qed.

Lemma adjacent_has (g : graph) u x :
  In x (adjacent g u) -> has (edges g) u = true.
Proof.
  unfold adjacent, has. destruct (get (edges g) u); simpl; tauto.
Qed.

(** A node is a key of [edges] or an entry of an adjacency array. *)
Lemma In_nodes (g : graph) x :
  In x (nodes g) <-> has (edges g) x = true \/ exists u, edge g u x.
Proof.
  unfold nodes, nodeSet_of, edge. rewrite In_keys, nodeSet_fold_In. simpl.
  split.
  - intros [[H|(u & Hu & Hx)]|[]]; [left; now apply keys_has | eauto].
  - intros [H|(u & Hx)]; left; [left; now apply keys_has|].
    right. exists u. split; auto. apply keys_has. eapply adjacent_has; eauto.
Qed.

Lemma NoDup_nodes (g : graph) : NoDup (nodes g).
Proof.
  apply NoDup_keys, nodeSet_fold_NoDup. constructor.
Qed.

(** ** Weights and payloads *)

Lemma removeEdge_edgeWeights g u v :
  edgeWeights (removeEdge g u v) = edgeWeights g.
Proof. unfold removeEdge. now destruct (get (edges g) u). Qed.

Lemma removeEdge_edgeData g u v : edgeData (removeEdge g u v) = edgeData g.
Proof. unfold removeEdge. now destruct (get (edges g) u). Qed.

Lemma getEdgeWeight_ext g g' u v :
  edgeWeights g' = edgeWeights g -> getEdgeWeight g' u v = getEdgeWeight g u v.
Proof. unfold getEdgeWeight. now intros ->. Qed.

Lemma getEdgeData_ext g g' u v :
  edgeData g' = edgeData g -> getEdgeData g' u v = getEdgeData g u v.
Proof. unfold getEdgeData. now intros ->. Qed.

Lemma getEdgeWeight_set g u v w : getEdgeWeight (setEdgeWeight g u v w) u v = w.
Proof. unfold getEdgeWeight, setEdgeWeight. simpl. now rewrite get_set_same. Qed.

Lemma getEdgeData_set g u v x : getEdgeData (setEdgeData g u v x) u v = x.
Proof. unfold getEdgeData, setEdgeData. simpl. now rewrite get_set_same. Qed.

(** [addEdge] without a weight and without a payload leaves both tables. *)
Lemma addEdge_without_metadata g u v :
  edgeWeights (addEdge g u v None None) = edgeWeights g /\
  edgeData (addEdge g u v None None) = edgeData g.
Proof. split; reflexivity. Qed.

(** ** The keys of the metadata tables *)

(** C7, at the identifiers ["a|b"], ["c"] and ["a"], ["b|c"]: the two pairs
    differ and share the key ["a|b|c"], so a weight set for the first is
    read for the second; the pairs ["a|"], ["b"] and ["a"], ["|b"] share a
    payload in the same way. *)
Theorem encodeEdge_collision :
  ("a|b", "c") <> ("a", "b|c") /\
  encodeEdge "a|b" "c" = encodeEdge "a" "b|c" /\
  getEdgeWeight empty_graph "a" "b|c" = 1%Z /\
  getEdgeWeight (setEdgeWeight empty_graph "a|b" "c" 5) "a" "b|c" = 5%Z /\
  ("a|", "b") <> ("a", "|b") /\
  getEdgeData empty_graph "a" "|b" = empty_record /\
  getEdgeData (setEdgeData empty_graph "a|" "b" [("k", "v")]) "a" "|b"
  = [("k", "v")].
Proof. repeat split; try reflexivity; discriminate. Qed.

(** ** Unknown nodes in [shortestPath] *)

Lemma member_In x l : member x l = true <-> In x l.
Proof.
  unfold member. rewrite existsb_exists. split.
  - intros (y & Hy & E). apply String.eqb_eq in E. now subst.
  - intros H. exists x. split; auto. apply String.eqb_refl.
Qed.

Lemma member_false x l : member x l = false <-> ~ In x l.
Proof.
  rewrite <- member_In. destruct (member x l); split; intros; congruence.
Qed.

Lemma get_set_all {V : Type} (c : V) (l : list string) (o : obj V) x :
  get (fold_left (fun o' node => set o' node c) l o) x
  = if member x l then Some c else get o x.
Proof.
  revert o. induction l as [|a l IH]; simpl; intros o; auto.
  rewrite IH. destruct (member x l); simpl.
  - now rewrite orb_true_r.
  - rewrite orb_false_r, get_set, String.eqb_sym. reflexivity.
Qed.

Lemma map_fst_set_all {V : Type} (c : V) (l : list string) (o : obj V) x :
  In x (map fst (fold_left (fun o' node => set o' node c) l o))
  <-> In x l \/ In x (map fst o).
Proof.
  revert o. induction l as [|a l IH]; simpl; intros o; [tauto|].
  rewrite IH, In_set. intuition auto.
Qed.

Lemma NoDup_set_all {V : Type} (c : V) (l : list string) (o : obj V) :
  NoDup (map fst o) ->
  NoDup (map fst (fold_left (fun o' node => set o' node c) l o)).
Proof.
  revert o. induction l as [|a l IH]; simpl; intros o H; auto.
  apply IH. now apply NoDup_set.
Qed.

(** The first table after the loop of [initializeSingleSource]. *)
Lemma initial_distance g x :
  get (fold_left (fun d0 node => set d0 node Infinity) (nodes g) empty) x
  = if member x (nodes g) then Some Infinity else None.
Proof. now rewrite get_set_all. Qed.

Lemma initializeSingleSource_spec g s t :
  initializeSingleSource g s t (mkSp empty empty empty)
  = if negb (member s (nodes g)) then Throw SourceNotInGraph
    else if negb (member t (nodes g)) then Throw DestinationNotInGraph
    else Normal
           (mkSp (set (fold_left (fun d0 node => set d0 node Infinity)
                         (nodes g) empty) s (Fin 0))
              empty empty).
Proof.
  unfold initializeSingleSource. simpl. rewrite !initial_distance.
  destruct (member s (nodes g)); simpl; auto.
  destruct (member t (nodes g)); simpl; auto.
Qed.

Lemma path_error fuel g s t st e :
  path fuel g s t st = Some (Throw e) -> e = NoPathFound.
Proof.
  unfold path. destruct (path_loop fuel g (p st) t [] 0%Z) as [[[n l] w]|];
    [|discriminate].
  destruct (negb (String.eqb n s)); congruence.
Qed.

(** [shortestPath] raises one of the two errors of an unknown node exactly
    when [source] or [destination] is not in the list of [nodes]. *)
Lemma unknown_node_raised (g : graph) (source destination : string) :
  (exists e, shortestPath g source destination = Some (Throw e)
             /\ unknown_node e = true)
  <-> (~ In source (nodes g) \/ ~ In destination (nodes g)).
Proof.
  unfold shortestPath, dijkstra. rewrite initializeSingleSource_spec.
  destruct (member source (nodes g)) eqn:Es; simpl.
  - destruct (member destination (nodes g)) eqn:Et; simpl.
    + apply member_In in Es, Et. split; [|tauto].
      intros (e & H & He).
      match type of H with
      | context [dijkstra_loop ?f ?g ?st] =>
          destruct (dijkstra_loop f g st); [|discriminate]
      end.
      apply path_error in H. subst e. discriminate.
    + apply member_false in Et. split; [tauto|]. intros _.
      exists DestinationNotInGraph. split; reflexivity.
  - apply member_false in Es. split; [tauto|]. intros _.
    exists SourceNotInGraph. split; reflexivity.
Qed.

(** ** Depth-first search *)

Ltac list_norm :=
  repeat first [rewrite <- app_assoc | rewrite <- app_comm_cons];
  simpl; try reflexivity.

Lemma precedes_app_l x y l l' : precedes x y l -> precedes x y (l ++ l').
Proof.
  intros (l1 & l2 & l3 & ->). exists l1, l2, (l3 ++ l'). list_norm.
Qed.

Lemma precedes_split x y l l' : In x l -> In y l' -> precedes x y (l ++ l').
Proof.
  intros Hx Hy. apply in_split in Hx, Hy.
  destruct Hx as (a & b & ->), Hy as (c & e & ->).
  exists a, (b ++ c), e. list_norm.
Qed.

Lemma precedes_In x y l : precedes x y l -> In x l /\ In y l.
Proof.
  intros (l1 & l2 & l3 & ->). split.
  - apply in_or_app. right. now left.
  - apply in_or_app. right. right. apply in_or_app. right. now left.
Qed.

Lemma precedes_rev x y l : precedes x y l -> precedes y x (rev l).
Proof.
  intros (l1 & l2 & l3 & ->). exists (rev l3), (rev l2), (rev l1).
  rewrite rev_app_distr. simpl. rewrite rev_app_distr. simpl. list_norm.
Qed.

Lemma is_visited_mark n st x :
  is_visited (mark n st) x <-> x = n \/ is_visited st x.
Proof.
  unfold is_visited, mark. simpl. rewrite get_set.
  destruct (String.eqb n x) eqn:E; simpl.
  - apply String.eqb_eq in E. intuition auto.
  - apply String.eqb_neq in E. intuition congruence.
Qed.

Lemma is_visited_dec st x : {is_visited st x} + {~ is_visited st x}.
Proof. unfold is_visited. destruct (truthy (get (visited st) x)); auto. Qed.

Lemma dfs_step_refl g roots st : dfs_step g roots st st.
Proof.
  exists []. rewrite app_nil_r. split; [reflexivity|].
  split; [intros x; simpl; tauto|]. split; [constructor|].
  split; [intros x []|]. split; [intros x []|intros u v []].
Qed.

Lemma dfs_step_visited g roots st st' x :
  dfs_step g roots st st' -> is_visited st x -> is_visited st' x.
Proof. intros (news & _ & H & _) Hx. apply H. auto. Qed.

Lemma dfs_step_trans g r1 r2 roots st st1 st2 :
  incl r1 roots -> incl r2 roots ->
  dfs_step g r1 st st1 -> dfs_step g r2 st1 st2 -> dfs_step g roots st st2.
Proof.
  intros I1 I2 (n1 & L1 & V1 & D1 & F1 & R1 & E1) (n2 & L2 & V2 & D2 & F2 & R2 & E2).
  exists (n1 ++ n2). split; [|split; [|split; [|split; [|split]]]].
  - rewrite L2, L1. now rewrite app_assoc.
  - intros x. rewrite V2, V1, in_app_iff. tauto.
  - apply NoDup_app; auto. intros x H1 H2. apply (F2 x H2). apply V1. auto.
  - intros x H. apply in_app_iff in H. destruct H as [H|H]; auto.
    intros Hx. apply (F2 x H). apply V1. auto.
  - intros x H. apply in_app_iff in H. destruct H as [H|H].
    + destruct (R1 x H) as (r & Hr & Hp). eauto.
    + destruct (R2 x H) as (r & Hr & Hp). eauto.
  - intros u v Hu Huv. apply in_app_iff in Hu. destruct Hu as [Hu|Hu].
    + destruct (E1 u v Hu Huv) as (Hv & Ho). split.
      * apply V2. auto.
      * destruct Ho as [Ho|[Ho|Ho]]; auto.
        left. rewrite L2. now apply precedes_app_l.
    + destruct (E2 u v Hu Huv) as (Hv & Ho). split; auto.
      destruct Ho as [Ho|[(Hv1 & Hn)|Ho]]; auto.
      right. left. rewrite L1 in Hn. rewrite in_app_iff in Hn.
      apply V1 in Hv1. tauto.
Qed.

Lemma forEachM_dfs_step g (f : string -> dfs_state -> option dfs_state) :
  (forall n st st', f n st = Some st' ->
     dfs_step g [n] st st' /\ is_visited st' n) ->
  forall l st st', forEachM f l st = Some st' ->
    dfs_step g l st st' /\ forall x, In x l -> is_visited st' x.
Proof.
  intros Hf. induction l as [|a l IH]; simpl; intros st st' H.
  - inversion H; subst. split; [apply dfs_step_refl | tauto].
  - destruct (f a st) as [st1|] eqn:E; [|discriminate].
    destruct (Hf _ _ _ E) as (S1 & Va).
    destruct (IH _ _ H) as (S2 & Vl). split.
    + eapply dfs_step_trans; [| |exact S1|exact S2].
      * intros x [->|[]]. now left.
      * intros x Hx. now right.
    + intros x [->|Hx]; auto. eapply dfs_step_visited; eauto.
Qed.

Lemma reach_edge g a b c : edge g a b -> reach g b c -> reach g a c.
Proof.
  intros H1 H2. eapply rt_trans; [apply rt_step; exact H1 | exact H2].
Qed.

Lemma DFSVisit_dfs_step g fuel :
  forall n st st', DFSVisit fuel g n st = Some st' ->
    dfs_step g [n] st st' /\ is_visited st' n.
Proof.
  induction fuel as [|fuel IH]; simpl; intros n st st' H; [discriminate|].
  destruct (truthy (get (visited st) n)) eqn:Vn.
  - inversion H; subst. split; [apply dfs_step_refl | exact Vn].
  - destruct (forEachM (DFSVisit fuel g) (adjacent g n) (mark n st))
      as [sc|] eqn:E; [|discriminate].
    inversion H; subst st'. clear H.
    destruct (forEachM_dfs_step g _ IH _ _ _ E)
      as ((nc & Lc & Vc & Dc & Fc & Rc & Ec) & Vchildren).
    assert (~ is_visited st n) as Hn by (unfold is_visited; congruence).
    split.
    + exists (nc ++ [n]). split; [|split; [|split; [|split; [|split]]]].
      * simpl. rewrite Lc. simpl. now rewrite app_assoc.
      * intros x. unfold is_visited at 1. simpl.
        fold (is_visited sc x). rewrite Vc, is_visited_mark, in_app_iff.
        simpl. intuition auto.
      * apply NoDup_app; auto.
        -- constructor; [tauto | constructor].
        -- intros x Hx [Ex|[]]. subst x.
           apply (Fc n Hx). apply is_visited_mark. auto.
      * intros x Hx. apply in_app_iff in Hx.
        destruct Hx as [Hx|[Ex|[]]]; [|now subst x].
        intros Hv. apply (Fc x Hx). apply is_visited_mark. auto.
      * intros x Hx. exists n. split; [now left|].
        apply in_app_iff in Hx. destruct Hx as [Hx|[Ex|[]]].
        -- destruct (Rc x Hx) as (r & Hr & Hp). eapply reach_edge; eauto.
        -- subst x. apply rt_refl.
      * intros u v Hu Huv. simpl.
        apply in_app_iff in Hu. destruct Hu as [Hu|[Ex|[]]]; [|subst u].
        -- destruct (Ec u v Hu Huv) as (Hv & Ho). split; [exact Hv|].
           destruct Ho as [Ho|[(Hm & Hl)|Ho]]; auto.
           ++ left. now apply precedes_app_l.
           ++ apply is_visited_mark in Hm. destruct Hm as [->|Hm].
              ** right. right. destruct (Rc u Hu) as (r & Hr & Hp).
                 eapply reach_edge; eauto.
              ** right. left. split; auto.
        -- assert (is_visited sc v) as Hv by (apply Vchildren; exact Huv).
           split; [exact Hv|].
           apply Vc in Hv. destruct Hv as [Hv|Hv].
           ++ apply is_visited_mark in Hv. destruct Hv as [->|Hv].
              ** right. right. apply rt_refl.
              ** destruct (in_dec string_dec v (nodeList st)) as [Hi|Hi].
                 --- left. apply precedes_split; [|now left].
                     rewrite Lc. simpl. apply in_or_app. now left.
                 --- right. left. split; auto.
           ++ left. apply precedes_split; [|now left].
              rewrite Lc. apply in_or_app. now right.
    + unfold is_visited. simpl. fold (is_visited sc n).
      apply Vc. left. apply is_visited_mark. auto.
Qed.

(** *** The recursion ends *)

Lemma filter_length_mono {A : Type} (f h : A -> bool) (l : list A) :
  (forall x, In x l -> f x = true -> h x = true) ->
  List.length (filter f l) <= List.length (filter h l).
Proof.
  induction l as [|a l IH]; simpl; intros H; auto.
  assert (List.length (filter f l) <= List.length (filter h l)) by auto.
  destruct (f a) eqn:Ef.
  - rewrite (H a (or_introl eq_refl) Ef). simpl. lia.
  - destruct (h a); simpl; lia.
Qed.

Lemma filter_length_strict {A : Type} (f h : A -> bool) (l : list A) (n : A) :
  (forall x, In x l -> f x = true -> h x = true) ->
  In n l -> f n = false -> h n = true ->
  List.length (filter f l) < List.length (filter h l).
Proof.
  induction l as [|a l IH]; simpl; intros H Hn Hf Hh; [tauto|].
  destruct Hn as [->|Hn].
  - rewrite Hf, Hh. simpl.
    assert (List.length (filter f l) <= List.length (filter h l)).
    { apply filter_length_mono. auto. }
    lia.
  - assert (List.length (filter f l) < List.length (filter h l)) by auto.
    destruct (f a) eqn:Ef.
    + rewrite (H a (or_introl eq_refl) Ef). simpl. lia.
    + destruct (h a); simpl; lia.
Qed.

Lemma unvisited_le g st st' :
  (forall x, is_visited st x -> is_visited st' x) ->
  List.length (unvisited g st') <= List.length (unvisited g st).
Proof.
  intros H. apply filter_length_mono. intros x _ Hx.
  specialize (H x). unfold is_visited in H.
  destruct (truthy (get (visited st) x)); auto.
  rewrite H in Hx; auto.
Qed.

Lemma unvisited_mark g st n :
  In n (nodes g) -> ~ is_visited st n ->
  List.length (unvisited g (mark n st)) < List.length (unvisited g st).
Proof.
  intros Hn Hv. apply filter_length_strict with (n := n); auto.
  - intros x _ Hx. destruct (truthy (get (visited st) x)) eqn:E; auto.
    assert (is_visited (mark n st) x) as Hm by (apply is_visited_mark; auto).
    unfold is_visited in Hm. simpl in *. rewrite Hm in Hx. discriminate.
  - assert (is_visited (mark n st) n) as Hm by (apply is_visited_mark; auto).
    unfold is_visited in Hm. now rewrite Hm.
  - unfold is_visited in Hv. now destruct (truthy (get (visited st) n)).
Qed.

Lemma unvisited_bound g st : List.length (unvisited g st) <= List.length (nodes g).
Proof.
  unfold unvisited. induction (nodes g) as [|a l IH]; simpl; auto.
  destruct (negb (truthy (get (visited st) a))); simpl; lia.
Qed.

Lemma forEachM_total g (f : string -> dfs_state -> option dfs_state) (k : nat) :
  (forall n st, List.length (unvisited g st) < k -> exists st', f n st = Some st') ->
  (forall n st st', f n st = Some st' ->
     dfs_step g [n] st st' /\ is_visited st' n) ->
  forall l st, List.length (unvisited g st) < k ->
    exists st', forEachM f l st = Some st'.
Proof.
  intros Ht Hs. induction l as [|a l IH]; simpl; intros st Hk; eauto.
  destruct (Ht a st Hk) as (st1 & E). rewrite E.
  apply IH. destruct (Hs _ _ _ E) as (S1 & _).
  pose proof (unvisited_le g st st1 (fun x => dfs_step_visited _ _ _ _ x S1)).
  lia.
Qed.

Lemma DFSVisit_total g fuel :
  forall n st, List.length (unvisited g st) < fuel ->
    exists st', DFSVisit fuel g n st = Some st'.
Proof.
  induction fuel as [|fuel IH]; intros n st Hk; [lia|]. simpl.
  destruct (truthy (get (visited st) n)) eqn:Vn; eauto.
  destruct (adjacent g n) as [|c cs] eqn:Ea; simpl; eauto.
  assert (In n (nodes g)) as Hn.
  { apply In_nodes. left. apply (adjacent_has g n c). rewrite Ea. now left. }
  assert (~ is_visited st n) as Hv by (unfold is_visited; congruence).
  pose proof (unvisited_mark g st n Hn Hv) as Hlt.
  destruct (forEachM_total g (DFSVisit fuel g) fuel IH (DFSVisit_dfs_step g fuel)
              (c :: cs) (mark n st)) as (st' & E); [lia|].
  simpl in E. rewrite E. eauto.
Qed.

Lemma DFSVisit_enough g n st :
  exists st', DFSVisit (S (List.length (nodes g))) g n st = Some st'.
Proof.
  apply DFSVisit_total. pose proof (unvisited_bound g st). lia.
Qed.

(** *** The two ways to start *)

Lemma is_visited_marks l st x :
  is_visited (fold_left (fun st0 node => mark node st0) l st) x
  <-> In x l \/ is_visited st x.
Proof.
  revert st. induction l as [|a l IH]; simpl; intros st; [tauto|].
  rewrite IH, is_visited_mark. intuition auto.
Qed.

Lemma nodeList_marks l st :
  nodeList (fold_left (fun st0 node => mark node st0) l st) = nodeList st.
Proof.
  revert st. induction l as [|a l IH]; simpl; intros st; auto.
  now rewrite IH.
Qed.

Lemma forEachM_nested_total g fuel :
  List.length (nodes g) < fuel ->
  forall l st, exists st',
    forEachM (fun node => forEachM (DFSVisit fuel g) (adjacent g node)) l st
    = Some st'.
Proof.
  intros Hf. induction l as [|a l IH]; simpl; intros st; eauto.
  destruct (forEachM_total g (DFSVisit fuel g) fuel (DFSVisit_total g fuel)
              (DFSVisit_dfs_step g fuel) (adjacent g a) st) as (st1 & E).
  { pose proof (unvisited_bound g st). lia. }
  rewrite E. apply IH.
Qed.

Lemma forEachM_nested_step g fuel :
  forall l st st',
    forEachM (fun node => forEachM (DFSVisit fuel g) (adjacent g node)) l st
    = Some st' ->
    dfs_step g (flat_map (adjacent g) l) st st'
    /\ forall x, In x (flat_map (adjacent g) l) -> is_visited st' x.
Proof.
  induction l as [|a l IH]; simpl; intros st st' H.
  - inversion H; subst. split; [apply dfs_step_refl | tauto].
  - destruct (forEachM (DFSVisit fuel g) (adjacent g a) st) as [st1|] eqn:E;
      [|discriminate].
    destruct (forEachM_dfs_step g _ (DFSVisit_dfs_step g fuel) _ _ _ E)
      as (S1 & V1).
    destruct (IH _ _ H) as (S2 & V2). split.
    + eapply dfs_step_trans; [| |exact S1|exact S2].
      * apply incl_appl, incl_refl.
      * apply incl_appr, incl_refl.
    + intros x Hx. apply in_app_iff in Hx. destruct Hx as [Hx|Hx]; auto.
      eapply dfs_step_visited; eauto.
Qed.

(** [depthFirstSearch] returns: the fuel that [dfs_run] gives is enough. *)
Lemma dfs_run_total g sourceNodes includeSourceNodes :
  exists st, dfs_run g sourceNodes includeSourceNodes = Some st.
Proof.
  unfold dfs_run.
  destruct (match includeSourceNodes with Some b => b | None => true end).
  - apply (forEachM_total g _ (S (List.length (nodes g)))).
    + apply DFSVisit_total.
    + apply DFSVisit_dfs_step.
    + pose proof (unvisited_bound g {| visited := empty; nodeList := [] |}). lia.
  - apply forEachM_nested_total. lia.
Qed.

Lemma depthFirstSearch_total g sourceNodes includeSourceNodes :
  exists l, depthFirstSearch g sourceNodes includeSourceNodes = Some l.
Proof.
  unfold depthFirstSearch.
  destruct (dfs_run_total g sourceNodes includeSourceNodes) as (st & ->).
  simpl. eauto.
Qed.

(** *** The result of a call *)

Lemma dfs_run_include g sourceNodes includeSourceNodes :
  excludes includeSourceNodes = false ->
  dfs_run g sourceNodes includeSourceNodes
  = forEachM (DFSVisit (S (List.length (nodes g))) g)
      (chosen_sources g sourceNodes) (mkDfs empty []).
Proof. destruct includeSourceNodes as [[|]|]; try discriminate; reflexivity. Qed.

Lemma dfs_run_exclude g sourceNodes includeSourceNodes :
  excludes includeSourceNodes = true ->
  dfs_run g sourceNodes includeSourceNodes
  = forEachM
      (fun node =>
         forEachM (DFSVisit (S (List.length (nodes g))) g) (adjacent g node))
      (chosen_sources g sourceNodes)
      (fold_left (fun st node => mark node st) (chosen_sources g sourceNodes)
         (mkDfs empty [])).
Proof. destruct includeSourceNodes as [[|]|]; try discriminate; reflexivity. Qed.

Lemma dfs_run_spec g sourceNodes includeSourceNodes st :
  dfs_run g sourceNodes includeSourceNodes = Some st ->
  let sources := chosen_sources g sourceNodes in
  exists st0 roots,
    nodeList st0 = [] /\
    (forall x, is_visited st0 x <->
               excludes includeSourceNodes = true /\ In x sources) /\
    (forall r, In r roots -> exists s, In s sources /\ reach g s r) /\
    (excludes includeSourceNodes = true ->
     forall s v, In s sources -> edge g s v -> In v roots) /\
    (excludes includeSourceNodes = false -> roots = sources) /\
    dfs_step g roots st0 st /\
    (forall x, In x roots -> is_visited st x).
Proof.
  intros H sources. destruct (excludes includeSourceNodes) eqn:Ex.
  - rewrite dfs_run_exclude in H by exact Ex. fold sources in H.
    exists (fold_left (fun st0 node => mark node st0) sources (mkDfs empty [])),
      (flat_map (adjacent g) sources).
    destruct (forEachM_nested_step g _ _ _ _ H) as (S1 & V1).
    split; [apply nodeList_marks|].
    split.
    { intros x. rewrite is_visited_marks. unfold is_visited. simpl.
      split; [intros [Hx|Hx]; [auto | discriminate] | tauto]. }
    split.
    { intros r Hr. apply in_flat_map in Hr. destruct Hr as (s & Hs & Hr).
      exists s. split; auto. apply rt_step. exact Hr. }
    split.
    { intros _ s v Hs Hv. apply in_flat_map. eauto. }
    split; [discriminate | auto].
  - rewrite dfs_run_include in H by exact Ex. fold sources in H.
    exists (mkDfs empty []), sources.
    destruct (forEachM_dfs_step g _ (DFSVisit_dfs_step g _) _ _ _ H)
      as (S1 & V1).
    split; [reflexivity|].
    split.
    { intros x. unfold is_visited. simpl.
      split; [discriminate | intros (E & _); discriminate]. }
    split.
    { intros r Hr. exists r. split; [auto | apply rt_refl]. }
    split; [discriminate|]. auto.
Qed.

(** What a call of [depthFirstSearch] returns. *)
Lemma dfs_run_result g sourceNodes includeSourceNodes st :
  dfs_run g sourceNodes includeSourceNodes = Some st ->
  let sources := chosen_sources g sourceNodes in
  let premarked x := excludes includeSourceNodes = true /\ In x sources in
  NoDup (nodeList st) /\
  (forall x, is_visited st x <-> premarked x \/ In x (nodeList st)) /\
  (forall x, In x (nodeList st) -> ~ premarked x) /\
  (forall x, In x (nodeList st) -> exists s, In s sources /\ reach g s x) /\
  (forall u v, In u (nodeList st) -> edge g u v ->
     (premarked v \/ In v (nodeList st)) /\
     (precedes v u (nodeList st) \/ premarked v \/ reach g v u)) /\
  (excludes includeSourceNodes = true ->
   forall s v, In s sources -> edge g s v -> premarked v \/ In v (nodeList st)) /\
  (excludes includeSourceNodes = false ->
   forall s, In s sources -> In s (nodeList st)).
Proof.
  intros H sources premarked.
  destruct (dfs_run_spec _ _ _ _ H)
    as (st0 & roots & L0 & V0 & R0 & X0 & I0
        & (news & L & V & D & F & R & E) & Vr).
  fold sources in V0, R0, X0, I0. rewrite L0 in L. simpl in L. rewrite L.
  assert (forall x, is_visited st x <-> premarked x \/ In x news) as Hv.
  { intros x. rewrite V, V0. reflexivity. }
  split; [exact D|]. split; [exact Hv|].
  split. { intros x Hx Hp. apply (F x Hx). apply V0. exact Hp. }
  split.
  { intros x Hx. destruct (R x Hx) as (r & Hr & Hp).
    destruct (R0 r Hr) as (s & Hs & Hsr). exists s. split; auto.
    eapply rt_trans; eauto. }
  split.
  { intros u v Hu Huv. destruct (E u v Hu Huv) as (Hvis & Ho). split.
    - apply Hv. exact Hvis.
    - rewrite L in Ho. destruct Ho as [Ho|[(Ho & _)|Ho]]; auto.
      right. left. apply V0. exact Ho. }
  split.
  { intros Hex s v Hs Hsv. apply Hv. apply Vr. eapply X0; eauto. }
  intros Hin s Hs.
  assert (is_visited st s) as Hvs.
  { apply Vr. rewrite (I0 Hin). exact Hs. }
  apply Hv in Hvs. destruct Hvs as [(Hp & _)|Hvs]; auto. congruence.
Qed.

(** *** Order of the result *)

Lemma clos_trans_reach g x a u :
  clos_trans string (edge g) x a -> reach g a u -> clos_trans string (edge g) x u.
Proof.
  intros Hx Hr. revert x Hx. induction Hr; intros x0 Hx.
  - eapply t_trans; [exact Hx | now apply t_step].
  - exact Hx.
  - auto.
Qed.

Lemma edge_reach_cycle g u v : edge g u v -> reach g v u -> on_cycle g u.
Proof.
  intros He Hr. unfold on_cycle. eapply clos_trans_reach; [|exact Hr].
  now apply t_step.
Qed.

Lemma acyclic_by_rank g (rank : string -> nat) sources :
  (forall u v, edge g u v -> rank u < rank v) -> acyclic_from g sources.
Proof.
  intros Hr s u _ _ Hc. unfold on_cycle in Hc.
  assert (forall a b, clos_trans string (edge g) a b -> rank a < rank b) as Hlt.
  { induction 1; [auto | lia]. }
  specialize (Hlt _ _ Hc). lia.
Qed.

Lemma triangle_ranked u v : edge triangle u v -> triangle_rank u < triangle_rank v.
Proof.
  assert (edges triangle = [("A", ["B"; "C"]); ("B", ["C"]); ("C", [])]) as E
    by reflexivity.
  unfold edge, adjacent, triangle_rank. rewrite E. cbn [get].
  destruct (String.eqb "A" u) eqn:Ea.
  - intros [<-|[<-|[]]]; cbv; lia.
  - destruct (String.eqb "B" u) eqn:Eb.
    + intros [<-|[]]. cbv. lia.
    + destruct (String.eqb "C" u); intros [].
Qed.

(** [topologicalSort] returns what [depthFirstSearch] returns, reversed;
    when no node that the chosen sources reach lies on a cycle, every edge
    with both ends in the result has its source first. *)
Lemma topologicalSort_order
  (g : graph) (sourceNodes : option (list string))
  (includeSourceNodes : option bool) :
  exists l,
    depthFirstSearch g sourceNodes includeSourceNodes = Some l /\
    topologicalSort g sourceNodes includeSourceNodes = Some (rev l) /\
    (acyclic_from g (chosen_sources g sourceNodes) ->
     forall u v, edge g u v -> In u (rev l) -> In v (rev l) ->
       precedes u v (rev l)).
Proof.
  destruct (dfs_run_total g sourceNodes includeSourceNodes) as (st & Hrun).
  exists (nodeList st). unfold topologicalSort, depthFirstSearch.
  rewrite Hrun. simpl. split; [reflexivity|]. split; [reflexivity|].
  intros Hacyclic u v Huv Hu Hv. apply in_rev in Hu, Hv.
  destruct (dfs_run_result _ _ _ _ Hrun) as (_ & _ & Hpre & Hreach & Hedge & _).
  destruct (Hedge u v Hu Huv) as (_ & [Ho|[Ho|Ho]]).
  - now apply precedes_rev.
  - exfalso. exact (Hpre v Hv Ho).
  - exfalso. destruct (Hreach u Hu) as (s & Hs & Hsu).
    apply (Hacyclic s u Hs Hsu). eapply edge_reach_cycle; eauto.
Qed.

(** With [includeSourceNodes] false no source is in the result, yet the
    entries of the adjacency arrays of the sources and of the nodes of the
    result are, the sources apart; the result has no duplicates and holds
    the nodes that the call marked, the sources left out apart. *)
Lemma depthFirstSearch_result
  (g : graph) (sourceNodes : option (list string))
  (includeSourceNodes : option bool) :
  let sources := chosen_sources g sourceNodes in
  exists st,
    dfs_run g sourceNodes includeSourceNodes = Some st /\
    depthFirstSearch g sourceNodes includeSourceNodes = Some (nodeList st) /\
    NoDup (nodeList st) /\
    (forall x, is_visited st x <->
       In x (nodeList st) \/ (includeSourceNodes = Some false /\ In x sources)) /\
    (includeSourceNodes = Some false ->
     (forall s, In s sources -> ~ In s (nodeList st)) /\
     (forall s v, In s sources -> edge g s v -> ~ In v sources ->
        In v (nodeList st)) /\
     (forall u v, In u (nodeList st) -> edge g u v -> ~ In v sources ->
        In v (nodeList st))).
Proof.
  intros sources.
  destruct (dfs_run_total g sourceNodes includeSourceNodes) as (st & Hrun).
  exists st. split; [exact Hrun|].
  split; [unfold depthFirstSearch; now rewrite Hrun|].
  destruct (dfs_run_result _ _ _ _ Hrun)
    as (Hnd & Hvis & Hpre & _ & Hedge & Hsrc & _).
  fold sources in Hvis, Hpre, Hedge, Hsrc.
  assert (forall x, excludes includeSourceNodes = true /\ In x sources
                    <-> includeSourceNodes = Some false /\ In x sources) as Hex.
  { intros x. destruct includeSourceNodes as [[|]|]; simpl;
      intuition congruence. }
  split; [exact Hnd|]. split.
  { intros x. rewrite Hvis, Hex. tauto. }
  intros ->. simpl in *. split; [|split].
  - intros s Hs Hin. apply (Hpre s Hin). auto.
  - intros s v Hs Hsv Hv. destruct (Hsrc eq_refl s v Hs Hsv) as [(_ & H)|H]; tauto.
  - intros u v Hu Huv Hv. destruct (Hedge u v Hu Huv) as ([(_ & H)|H] & _); tauto.
Qed.

(** ** Effects of the mutators on what the store shows *)

Lemma adjacent_with_edges g e x :
  adjacent (with_edges g e) x = match get e x with Some l => l | None => [] end.
Proof. reflexivity. Qed.

Lemma adjacent_addNode g n x : adjacent (addNode g n) x = adjacent g x.
Proof.
  unfold addNode. rewrite adjacent_with_edges, get_set.
  destruct (String.eqb n x) eqn:E; [|reflexivity].
  apply String.eqb_eq in E. now subst.
Qed.

Lemma has_addNode g n x :
  has (edges (addNode g n)) x = true <-> x = n \/ has (edges g) x = true.
Proof. unfold addNode. simpl. rewrite !has_In. apply In_set. Qed.

Lemma edges_addEdge g u v w x :
  edges (addEdge g u v w x)
  = set (edges (addNode (addNode g u) v)) u
      (adjacent (addNode (addNode g u) v) u ++ [v]).
Proof. unfold addEdge. destruct w, x; reflexivity. Qed.

Lemma adjacent_addEdge g u v w x a :
  adjacent (addEdge g u v w x) a
  = if String.eqb u a then adjacent g u ++ [v] else adjacent g a.
Proof.
  unfold adjacent at 1. rewrite edges_addEdge, get_set.
  destruct (String.eqb u a).
  - now rewrite !adjacent_addNode.
  - fold (adjacent (addNode (addNode g u) v) a). now rewrite !adjacent_addNode.
Qed.

Lemma has_addEdge g u v w x a :
  has (edges (addEdge g u v w x)) a = true
  <-> a = u \/ a = v \/ has (edges g) a = true.
Proof.
  rewrite edges_addEdge, has_In, In_set, <- has_In, !has_addNode. tauto.
Qed.

Lemma edgeWeights_addEdge g u v w x :
  edgeWeights (addEdge g u v w x)
  = match w with
    | Some z => set (edgeWeights g) (encodeEdge u v) z
    | None => edgeWeights g
    end.
Proof. unfold addEdge. destruct w, x; reflexivity. Qed.

Lemma edgeData_addEdge g u v w x :
  edgeData (addEdge g u v w x)
  = match x with
    | Some y => set (edgeData g) (encodeDataEdge u v) y
    | None => edgeData g
    end.
Proof. unfold addEdge. destruct w, x; reflexivity. Qed.

Lemma getEdgeWeight_addEdge g u v z x a b :
  getEdgeWeight (addEdge g u v (Some z) x) a b
  = if String.eqb (encodeEdge u v) (encodeEdge a b) then z
    else getEdgeWeight g a b.
Proof.
  unfold getEdgeWeight. rewrite edgeWeights_addEdge, get_set.
  now destruct (String.eqb (encodeEdge u v) (encodeEdge a b)).
Qed.

Lemma getEdgeData_addEdge g u v w y a b :
  getEdgeData (addEdge g u v w (Some y)) a b
  = if String.eqb (encodeDataEdge u v) (encodeDataEdge a b) then y
    else getEdgeData g a b.
Proof.
  unfold getEdgeData. rewrite edgeData_addEdge, get_set.
  now destruct (String.eqb (encodeDataEdge u v) (encodeDataEdge a b)).
Qed.

(** ** Serialization round trip *)

Lemma serialize_links g :
  Serialized.links (serialize g) = flat_map (links_of g) (nodes g).
Proof.
  unfold serialize. simpl. induction (nodes g) as [|n l IH]; simpl; auto.
  now rewrite IH.
Qed.

Lemma serialize_nodes g :
  map Serialized.id (Serialized.nodes (serialize g)) = nodes g.
Proof.
  unfold serialize. simpl. rewrite map_map. simpl. apply map_id.
Qed.

Lemma deserialize_unfold g doc :
  deserialize g doc
  = fold_left add_link (Serialized.links doc)
      (fold_left addNode (map Serialized.id (Serialized.nodes doc)) g).
Proof.
  unfold deserialize. f_equal.
  generalize g. induction (Serialized.nodes doc) as [|n l IH]; simpl; auto.
Qed.

Lemma adjacent_addNodes ns g x : adjacent (fold_left addNode ns g) x = adjacent g x.
Proof.
  revert g. induction ns as [|n ns IH]; simpl; intros g; auto.
  now rewrite IH, adjacent_addNode.
Qed.

Lemma has_addNodes ns g x :
  has (edges (fold_left addNode ns g)) x = true
  <-> In x ns \/ has (edges g) x = true.
Proof.
  revert g. induction ns as [|n ns IH]; simpl; intros g; [tauto|].
  rewrite IH, has_addNode. intuition auto.
Qed.

Lemma edgeWeights_addNodes ns g :
  edgeWeights (fold_left addNode ns g) = edgeWeights g.
Proof. revert g. induction ns as [|n ns IH]; simpl; intros g; auto. now rewrite IH. Qed.

Lemma edgeData_addNodes ns g :
  edgeData (fold_left addNode ns g) = edgeData g.
Proof. revert g. induction ns as [|n ns IH]; simpl; intros g; auto. now rewrite IH. Qed.

(** Replaying links appends their targets, in order, to the arrays of
    their sources. *)
Lemma adjacent_add_links ls g x :
  adjacent (fold_left add_link ls g) x
  = adjacent g x ++ map Serialized.target (links_from x ls).
Proof.
  revert g. induction ls as [|l ls IH]; simpl; intros g.
  - now rewrite app_nil_r.
  - rewrite IH. unfold add_link. rewrite adjacent_addEdge.
    destruct (String.eqb (Serialized.source l) x) eqn:E; simpl; auto.
    apply String.eqb_eq in E. subst x. list_norm.
Qed.

Lemma has_add_links ls g x :
  has (edges (fold_left add_link ls g)) x = true
  <-> has (edges g) x = true
      \/ exists l, In l ls /\ (x = Serialized.source l \/ x = Serialized.target l).
Proof.
  revert g. induction ls as [|l ls IH]; simpl; intros g.
  - split; [tauto|]. intros [H|(l & [] & _)]. exact H.
  - rewrite IH. unfold add_link. rewrite has_addEdge. split.
    + intros [[H|[H|H]]|(l' & Hl & H)].
      * right. exists l. split; [now left | now left].
      * right. exists l. split; [now left | now right].
      * now left.
      * right. exists l'. split; [now right | exact H].
    + intros [H|(l' & [E|Hl] & H)].
      * left. right. right. exact H.
      * subst l'. left. destruct H as [H|H]; [now left | right; now left].
      * right. exists l'. split; assumption.
Qed.

Lemma links_from_links_of g x n :
  links_from x (links_of g n) = if String.eqb n x then links_of g n else [].
Proof.
  unfold links_from, links_of.
  induction (adjacent g n) as [|t l IH]; simpl.
  - now destruct (String.eqb n x).
  - rewrite IH. now destruct (String.eqb n x).
Qed.

Lemma links_from_serialized g x ns :
  NoDup ns ->
  links_from x (flat_map (links_of g) ns)
  = if member x ns then links_of g x else [].
Proof.
  unfold links_from. induction ns as [|n ns IH]; simpl; intros H; auto.
  inversion H; subst. rewrite filter_app. fold (links_from x (links_of g n)).
  rewrite links_from_links_of, IH by assumption.
  rewrite (String.eqb_sym x n).
  destruct (String.eqb n x) eqn:E; simpl.
  - apply String.eqb_eq in E. subst x.
    assert (member n ns = false) as -> by now apply member_false.
    now rewrite app_nil_r.
  - reflexivity.
Qed.

Lemma target_links_of g n : map Serialized.target (links_of g n) = adjacent g n.
Proof. unfold links_of. rewrite map_map. simpl. apply map_id. Qed.

Lemma In_links_of g n l :
  In l (links_of g n) ->
  Serialized.source l = n /\ In (Serialized.target l) (adjacent g n) /\
  Serialized.weight l = Some (getEdgeWeight g n (Serialized.target l)) /\
  Serialized.data l = Some (getEdgeData g n (Serialized.target l)).
Proof.
  unfold links_of. rewrite in_map_iff. intros (t & <- & Ht). simpl. auto.
Qed.

Lemma In_serialized_links g l :
  In l (Serialized.links (serialize g)) ->
  In (Serialized.target l) (adjacent g (Serialized.source l)) /\
  Serialized.weight l
  = Some (getEdgeWeight g (Serialized.source l) (Serialized.target l)) /\
  Serialized.data l
  = Some (getEdgeData g (Serialized.source l) (Serialized.target l)).
Proof.
  rewrite serialize_links, in_flat_map. intros (n & Hn & Hl).
  apply In_links_of in Hl. destruct Hl as (<- & H1 & H2 & H3). auto.
Qed.

Lemma serialized_link_of_edge g u v :
  edge g u v ->
  exists l, In l (Serialized.links (serialize g)) /\
            Serialized.source l = u /\ Serialized.target l = v.
Proof.
  intros H. rewrite serialize_links.
  exists (Serialized.mkLink u v (Some (getEdgeWeight g u v))
            (Some (getEdgeData g u v))).
  split; [|auto]. apply in_flat_map. exists u. split.
  - apply In_nodes. left. eapply adjacent_has; eauto.
  - unfold links_of. apply in_map_iff. exists v. auto.
Qed.

Lemma getEdgeWeight_key g a b a' b' :
  encodeEdge a b = encodeEdge a' b' -> getEdgeWeight g a b = getEdgeWeight g a' b'.
Proof. unfold getEdgeWeight. now intros ->. Qed.

Lemma getEdgeData_key g a b a' b' :
  encodeDataEdge a b = encodeDataEdge a' b' ->
  getEdgeData g a b = getEdgeData g a' b'.
Proof. unfold getEdgeData. now intros ->. Qed.

(** Replaying links that carry the weights of [g] gives the weights of [g]
    to every pair whose key a link has. *)
Lemma getEdgeWeight_add_links g ls :
  (forall l, In l ls ->
     Serialized.weight l
     = Some (getEdgeWeight g (Serialized.source l) (Serialized.target l))) ->
  forall g0 a b,
    getEdgeWeight (fold_left add_link ls g0) a b
    = if weight_key_in a b ls then getEdgeWeight g a b
      else getEdgeWeight g0 a b.
Proof.
  induction ls as [|l ls IH]; simpl; intros Hw g0 a b; auto.
  rewrite IH by auto. destruct (weight_key_in a b ls); simpl.
  - now rewrite orb_true_r.
  - rewrite orb_false_r. unfold add_link.
    rewrite (Hw l (or_introl eq_refl)), getEdgeWeight_addEdge.
    destruct (String.eqb _ (encodeEdge a b)) eqn:E; auto.
    apply String.eqb_eq in E. now apply getEdgeWeight_key.
Qed.

Lemma getEdgeData_add_links g ls :
  (forall l, In l ls ->
     Serialized.data l
     = Some (getEdgeData g (Serialized.source l) (Serialized.target l))) ->
  forall g0 a b,
    getEdgeData (fold_left add_link ls g0) a b
    = if data_key_in a b ls then getEdgeData g a b else getEdgeData g0 a b.
Proof.
  induction ls as [|l ls IH]; simpl; intros Hw g0 a b; auto.
  rewrite IH by auto. destruct (data_key_in a b ls); simpl.
  - now rewrite orb_true_r.
  - rewrite orb_false_r. unfold add_link.
    rewrite (Hw l (or_introl eq_refl)), getEdgeData_addEdge.
    destruct (String.eqb _ (encodeDataEdge a b)) eqn:E; auto.
    apply String.eqb_eq in E. now apply getEdgeData_key.
Qed.

Lemma adjacent_empty_graph x : adjacent empty_graph x = [].
Proof. reflexivity. Qed.

Lemma adjacent_outside_nodes g x : ~ In x (nodes g) -> adjacent g x = [].
Proof.
  intros H. destruct (adjacent g x) as [|y l] eqn:E; auto.
  exfalso. apply H. apply In_nodes. left.
  apply (adjacent_has g x y). rewrite E. now left.
Qed.

(** The graph that [deserialize] builds from [serialize g] has the nodes
    of [g], its adjacency arrays, and for every edge its weight and its
    payload. *)
Lemma roundtrip_graph (g : graph) :
  let g' := Graph (Some (serialize g)) in
  (forall x, In x (nodes g') <-> In x (nodes g)) /\
  Permutation (nodes g') (nodes g) /\
  (forall u, adjacent g' u = adjacent g u) /\
  (forall u v, edge g u v ->
     getEdgeWeight g' u v = getEdgeWeight g u v /\
     getEdgeData g' u v = getEdgeData g u v).
Proof.
  intros g'.
  assert (g' = fold_left add_link (Serialized.links (serialize g))
                 (fold_left addNode (nodes g) empty_graph)) as Eg.
  { unfold g', Graph. now rewrite deserialize_unfold, serialize_nodes. }
  assert (forall u, adjacent g' u = adjacent g u) as Hadj.
  { intros u. rewrite Eg, adjacent_add_links, adjacent_addNodes.
    rewrite adjacent_empty_graph, serialize_links. simpl.
    rewrite links_from_serialized by apply NoDup_nodes.
    destruct (member u (nodes g)) eqn:E.
    - apply target_links_of.
    - apply member_false in E. simpl. symmetry.
      now apply adjacent_outside_nodes. }
  assert (forall x, In x (nodes g') <-> In x (nodes g)) as Hnodes.
  { intros x. rewrite (In_nodes g'). split.
    - intros [H|(u & H)].
      + rewrite Eg, has_add_links, has_addNodes in H.
        destruct H as [[H|H]|(l & Hl & H)]; [exact H | discriminate |].
        apply In_serialized_links in Hl. destruct Hl as (Hl & _).
        apply In_nodes. destruct H as [->| ->].
        * left. eapply adjacent_has; eauto.
        * right. eexists; exact Hl.
      + unfold edge in H. rewrite Hadj in H. apply In_nodes. right. eauto.
    - intros H. left. rewrite Eg, has_add_links, has_addNodes. auto. }
  split; [exact Hnodes|]. split.
  { apply NoDup_Permutation; auto using NoDup_nodes. }
  split; [exact Hadj|].
  intros u v Huv.
  destruct (serialized_link_of_edge g u v Huv) as (l & Hl & Hs & Ht).
  split.
  - rewrite Eg, (getEdgeWeight_add_links g).
    + assert (weight_key_in u v (Serialized.links (serialize g)) = true) as ->;
        [|reflexivity].
      apply existsb_exists. exists l. split; auto.
      rewrite Hs, Ht. apply String.eqb_refl.
    + intros l' Hl'. now apply In_serialized_links.
  - rewrite Eg, (getEdgeData_add_links g).
    + assert (data_key_in u v (Serialized.links (serialize g)) = true) as ->;
        [|reflexivity].
      apply existsb_exists. exists l. split; auto.
      rewrite Hs, Ht. apply String.eqb_refl.
    + intros l' Hl'. now apply In_serialized_links.
Qed.

(** ** Removing edges and nodes *)

Lemma adjacent_removeEdge g u v a :
  adjacent (removeEdge g u v) a
  = if String.eqb u a then filter (differs v) (adjacent g u) else adjacent g a.
Proof.
  unfold removeEdge. destruct (get (edges g) u) as [l|] eqn:E.
  - rewrite adjacent_with_edges, get_set.
    destruct (String.eqb u a); reflexivity.
  - destruct (String.eqb u a) eqn:Ea; auto.
    apply String.eqb_eq in Ea. subst a. unfold adjacent. now rewrite E.
Qed.

Lemma keys_removeEdge g u v x :
  In x (map fst (edges (removeEdge g u v))) <-> In x (map fst (edges g)).
Proof.
  unfold removeEdge. destruct (get (edges g) u) as [l|] eqn:E; [|tauto].
  simpl. rewrite In_set. split; [|tauto].
  intros [->|H]; auto. eapply get_In; eauto.
Qed.

Lemma NoDup_removeEdge g u v :
  NoDup (map fst (edges g)) -> NoDup (map fst (edges (removeEdge g u v))).
Proof.
  unfold removeEdge. destruct (get (edges g) u); auto.
  simpl. apply NoDup_set.
Qed.

Lemma filter_differs_idem v (l : list string) :
  filter (differs v) (filter (differs v) l) = filter (differs v) l.
Proof.
  induction l as [|a l IH]; simpl; auto.
  destruct (differs v a) eqn:E; simpl; [rewrite E|]; now rewrite ?IH.
Qed.

Lemma filter_differs_absent v (l : list string) :
  member v l = false -> filter (differs v) l = l.
Proof.
  unfold member, differs. induction l as [|a l IH]; simpl; auto.
  rewrite orb_false_iff. intros (E & H).
  rewrite (String.eqb_sym a v), E. simpl. now rewrite IH.
Qed.

Lemma In_filter_differs v (l : list string) x :
  In x (filter (differs v) l) <-> In x l /\ x <> v.
Proof.
  rewrite filter_In. unfold differs. rewrite negb_true_iff, String.eqb_neq.
  tauto.
Qed.

Lemma remove_incoming_fold node u l g0 :
  let r := fold_left
             (fun g' v => if String.eqb v node then removeEdge g' u v else g')
             l g0 in
  (forall a, adjacent r a
             = if String.eqb u a && member node l
               then filter (differs node) (adjacent g0 a) else adjacent g0 a) /\
  (forall x, In x (map fst (edges r)) <-> In x (map fst (edges g0))) /\
  (NoDup (map fst (edges g0)) -> NoDup (map fst (edges r))) /\
  edgeWeights r = edgeWeights g0 /\ edgeData r = edgeData g0.
Proof.
  revert g0. induction l as [|v l IH]; intros g0; simpl.
  - repeat split; auto. intros a. now rewrite andb_false_r.
  - destruct (String.eqb v node) eqn:Ev.
    + apply String.eqb_eq in Ev. subst v.
      destruct (IH (removeEdge g0 u node)) as (Ha & Hk & Hn & Hw & Hd).
      split; [|split; [|split; [|split]]].
      * intros a. rewrite Ha, !adjacent_removeEdge.
        change (member node (node :: l))
          with (String.eqb node node || member node l).
        rewrite String.eqb_refl.
        destruct (String.eqb u a) eqn:Ea; simpl; auto.
        apply String.eqb_eq in Ea. subst a.
        destruct (member node l); auto using filter_differs_idem.
      * intros x. rewrite Hk. apply keys_removeEdge.
      * intros H. apply Hn. now apply NoDup_removeEdge.
      * rewrite Hw. apply removeEdge_edgeWeights.
      * rewrite Hd. apply removeEdge_edgeData.
    + destruct (IH g0) as (Ha & Hk & Hn & Hw & Hd).
      split; [|auto]. intros a. rewrite Ha.
      change (member node (v :: l)) with (String.eqb node v || member node l).
      rewrite (String.eqb_sym node v), Ev. reflexivity.
Qed.

Lemma remove_incoming_spec node g0 u :
  (forall a, adjacent (remove_incoming node g0 u) a
             = if String.eqb u a then filter (differs node) (adjacent g0 a)
               else adjacent g0 a) /\
  (forall x, In x (map fst (edges (remove_incoming node g0 u)))
             <-> In x (map fst (edges g0))) /\
  (NoDup (map fst (edges g0)) ->
   NoDup (map fst (edges (remove_incoming node g0 u)))) /\
  edgeWeights (remove_incoming node g0 u) = edgeWeights g0 /\
  edgeData (remove_incoming node g0 u) = edgeData g0.
Proof.
  destruct (remove_incoming_fold node u (adjacent g0 u) g0)
    as (Ha & Hk & Hn & Hw & Hd).
  split; [|auto]. intros a. unfold remove_incoming. rewrite Ha.
  destruct (String.eqb u a) eqn:Ea; simpl; auto.
  apply String.eqb_eq in Ea. subst a.
  destruct (member node (adjacent g0 u)) eqn:Em; auto.
  symmetry. now apply filter_differs_absent.
Qed.

Lemma remove_incoming_all node ks g0 :
  let r := fold_left (remove_incoming node) ks g0 in
  (forall a, adjacent r a
             = if member a ks then filter (differs node) (adjacent g0 a)
               else adjacent g0 a) /\
  (forall x, In x (map fst (edges r)) <-> In x (map fst (edges g0))) /\
  (NoDup (map fst (edges g0)) -> NoDup (map fst (edges r))) /\
  edgeWeights r = edgeWeights g0 /\ edgeData r = edgeData g0.
Proof.
  revert g0. induction ks as [|k ks IH]; intros g0; simpl.
  - repeat split; auto.
  - destruct (IH (remove_incoming node g0 k)) as (Ha & Hk & Hn & Hw & Hd).
    destruct (remove_incoming_spec node g0 k) as (Ha1 & Hk1 & Hn1 & Hw1 & Hd1).
    split; [|split; [|split; [|split]]].
    + intros a. rewrite Ha, Ha1, (String.eqb_sym a k).
      destruct (String.eqb k a); simpl; auto.
      destruct (member a ks); auto using filter_differs_idem.
    + intros x. now rewrite Hk.
    + auto.
    + congruence.
    + congruence.
Qed.

Lemma removeNode_unfold g node :
  removeNode g node
  = let g1 := fold_left (remove_incoming node) (keys (edges g)) g in
    with_edges g1 (del (edges g1) node).
Proof. reflexivity. Qed.

(** [removeNode(node)] takes [node] out of every adjacency array and out of
    the keys of [edges], and leaves the weights and payloads. *)
Lemma removeNode_spec g node :
  NoDup (map fst (edges g)) ->
  (forall a, adjacent (removeNode g node) a
             = if String.eqb node a then []
               else filter (differs node) (adjacent g a)) /\
  (forall a, has (edges (removeNode g node)) a = true
             <-> a <> node /\ has (edges g) a = true) /\
  NoDup (map fst (edges (removeNode g node))) /\
  edgeWeights (removeNode g node) = edgeWeights g /\
  edgeData (removeNode g node) = edgeData g.
Proof.
  intros Hnd. rewrite removeNode_unfold.
  destruct (remove_incoming_all node (keys (edges g)) g)
    as (Ha & Hk & Hn & Hw & Hd).
  set (g1 := fold_left (remove_incoming node) (keys (edges g)) g) in *.
  cbv zeta.
  assert (forall a, adjacent g1 a = filter (differs node) (adjacent g a)) as Ha'.
  { intros a. rewrite Ha. destruct (member a (keys (edges g))) eqn:Em; auto.
    apply member_false in Em. rewrite In_keys, <- get_None in Em.
    unfold adjacent. now rewrite Em. }
  split; [|split; [|split; [|split]]]; auto.
  - intros a. rewrite adjacent_with_edges.
    destruct (String.eqb node a) eqn:E.
    + apply String.eqb_eq in E. subst a. now rewrite get_del_same by auto.
    + apply String.eqb_neq in E. rewrite get_del_other by auto. apply Ha'.
  - intros a. simpl. destruct (string_dec a node) as [->|Hne].
    + unfold has at 1. rewrite get_del_same by auto. intuition congruence.
    + unfold has at 1. rewrite get_del_other by auto.
      fold (has (edges g1) a). rewrite !has_In, Hk. tauto.
  - simpl. apply NoDup_del. auto.
Qed.

(** ** What every store satisfies *)

Lemma store_inv_empty : store_inv empty_graph.
Proof. split; [constructor | intros u v []]. Qed.

Lemma store_inv_addNode g n : store_inv g -> store_inv (addNode g n).
Proof.
  intros (Hn & He). split.
  - simpl. now apply NoDup_set.
  - intros u v. unfold edge. rewrite adjacent_addNode, has_addNode.
    intros H. right. eapply He; eauto.
Qed.

Lemma store_inv_addEdge g u v w x : store_inv g -> store_inv (addEdge g u v w x).
Proof.
  intros (Hn & He). split.
  - rewrite edges_addEdge. simpl. now apply NoDup_set, NoDup_set, NoDup_set.
  - intros a b. unfold edge. rewrite adjacent_addEdge, has_addEdge.
    destruct (String.eqb u a).
    + rewrite in_app_iff. simpl. intros [H|[<-|[]]]; auto.
      right. right. eapply He; eauto.
    + intros H. right. right. eapply He; eauto.
Qed.

Lemma store_inv_removeEdge g u v : store_inv g -> store_inv (removeEdge g u v).
Proof.
  intros (Hn & He). split.
  - now apply NoDup_removeEdge.
  - intros a b. unfold edge. rewrite adjacent_removeEdge, has_In, keys_removeEdge.
    rewrite <- has_In. destruct (String.eqb u a) eqn:E.
    + apply String.eqb_eq in E. subst a. rewrite In_filter_differs.
      intros (H & _). eapply He; eauto.
    + intros H. eapply He; eauto.
Qed.

Lemma store_inv_removeNode g node : store_inv g -> store_inv (removeNode g node).
Proof.
  intros (Hn & He). destruct (removeNode_spec g node Hn) as (Ha & Hk & Hn' & _).
  split; auto. intros a b. unfold edge. rewrite Ha, Hk.
  destruct (String.eqb node a); [intros []|].
  rewrite In_filter_differs. intros (H & Hne). split; auto.
  eapply He; eauto.
Qed.

Lemma store_inv_same_edges g g' :
  edges g' = edges g -> store_inv g -> store_inv g'.
Proof.
  unfold store_inv, edge, adjacent. intros ->. auto.
Qed.

Lemma store_inv_deserialize g doc : store_inv g -> store_inv (deserialize g doc).
Proof.
  rewrite deserialize_unfold. intros H.
  assert (store_inv (fold_left addNode (map Serialized.id (Serialized.nodes doc)) g))
    as H1.
  { revert g H. induction (map Serialized.id (Serialized.nodes doc)) as [|n l IH];
      simpl; intros g H; auto using store_inv_addNode. }
  revert H1. generalize (fold_left addNode (map Serialized.id (Serialized.nodes doc)) g).
  induction (Serialized.links doc) as [|l ls IH]; simpl; intros g0 H0; auto.
  apply IH. now apply store_inv_addEdge.
Qed.

(** ** Calls that complete, and the defaults of the queries *)

Lemma indegree_inner node l n :
  fold_left (fun degree' v => if String.eqb v node then S degree' else degree') l n
  = n + count_occ string_dec l node.
Proof.
  revert n. induction l as [|a l IH]; simpl; intros n; [lia|].
  rewrite IH. destruct (string_dec a node) as [->|Hne].
  - rewrite String.eqb_refl. lia.
  - apply String.eqb_neq in Hne. rewrite Hne. lia.
Qed.

(** [indegree(node)] counts the entries equal to [node] in the adjacency
    arrays of the keys of [edges]. *)
Lemma indegree_count g node :
  indegree g node
  = list_sum (map (fun u => count_occ string_dec (adjacent g u) node)
                (keys (edges g))).
Proof.
  unfold indegree.
  assert (forall ks n,
    fold_left
      (fun degree u =>
         fold_left
           (fun degree' v => if String.eqb v node then S degree' else degree')
           (adjacent g u) degree) ks n
    = n + list_sum (map (fun u => count_occ string_dec (adjacent g u) node) ks))
    as H.
  { induction ks as [|k ks IH]; simpl; intros n; [lia|].
    rewrite IH, indegree_inner. lia. }
  now rewrite H.
Qed.

Lemma indegree_no_edge g node :
  (forall u, ~ edge g u node) -> indegree g node = 0.
Proof.
  intros H. rewrite indegree_count.
  induction (keys (edges g)) as [|k ks IH]; simpl; auto.
  rewrite IH. assert (count_occ string_dec (adjacent g k) node = 0) as ->; auto.
  apply count_occ_not_In. apply H.
Qed.

Lemma adjacent_no_entry g node : get (edges g) node = None -> adjacent g node = [].
Proof. unfold adjacent. now intros ->. Qed.

Lemma outdegree_no_entry g node : get (edges g) node = None -> outdegree g node = 0.
Proof. unfold outdegree, has. now intros ->. Qed.

(** ** Identifiers that name a member of the prototype *)

Lemma read_own {V : Type} (o : obj V) k :
  ObjectPrototype.inherited k = false ->
  ObjectPrototype.read o k
  = match get o k with
    | Some v => ObjectPrototype.Own v
    | None => ObjectPrototype.Undefined
    end.
Proof. unfold ObjectPrototype.read. now intros ->. Qed.

(** For an identifier that names no member of the prototype the two
    readings of [adjacent] and of [removeEdge] agree. *)
Lemma adjacent_own g node :
  ObjectPrototype.inherited node = false ->
  ObjectPrototype.adjacent g node = ObjectPrototype.Own (adjacent g node).
Proof.
  intros H. unfold ObjectPrototype.adjacent, adjacent. rewrite read_own by auto.
  now destruct (get (edges g) node).
Qed.

Lemma removeEdge_own g u v :
  ObjectPrototype.inherited u = false ->
  ObjectPrototype.removeEdge g u v = Some (removeEdge g u v).
Proof.
  intros H. unfold ObjectPrototype.removeEdge, removeEdge.
  rewrite adjacent_own, read_own by auto.
  now destruct (get (edges g) u).
Qed.

(** C9, at the identifier ["constructor"] on a new graph: the read
    [edges["constructor"]] finds the member of the prototype, so
    [adjacent("constructor")] does not return an empty array, and
    [removeEdge("constructor", v)] calls [filter] on that member and
    raises. *)
Theorem adjacent_of_prototype_member :
  get (edges empty_graph) "constructor" = None /\
  ObjectPrototype.adjacent empty_graph "constructor"
  = ObjectPrototype.Member "constructor" /\
  ObjectPrototype.adjacent empty_graph "constructor" <> ObjectPrototype.Own [] /\
  ObjectPrototype.removeEdge empty_graph "constructor" "v" = None.
Proof. repeat split; try reflexivity. discriminate. Qed.

(** ** Shortest paths *)

(** *** The loop ends *)

Lemma del_length {V : Type} (o : obj V) k :
  In k (map fst o) -> S (List.length (del o k)) = List.length o.
Proof.
  induction o as [|[k' v'] r IH]; simpl; [tauto|].
  destruct (String.eqb k' k) eqn:E; auto.
  intros [H|H]; [apply String.eqb_neq in E; congruence|].
  simpl. now rewrite IH.
Qed.

Lemma priorityQueueEmpty_nil st : priorityQueueEmpty st = true <-> q st = [].
Proof.
  unfold priorityQueueEmpty. rewrite keys_length, Nat.eqb_eq.
  destruct (q st); simpl; split; congruence.
Qed.

Lemma q_relax g st u v : q (relax g st u v) = q st.
Proof. unfold relax. now destruct (num_gt _ _). Qed.

Lemma q_relax_all g u l st :
  q (fold_left (fun s v => relax g s u v) l st) = q st.
Proof.
  revert st. induction l as [|a l IH]; simpl; intros st; auto.
  now rewrite IH, q_relax.
Qed.

(** What the scan of [extractMin] finds. *)
Lemma scan_min_spec (dt : obj num) (ks : list string) :
  match snd (scan_min dt ks) with
  | None => forall k, In k ks -> num_lt (to_num (get dt k)) Infinity = false
  | Some m =>
      In m ks /\
      exists zm, to_num (get dt m) = Fin zm /\
        forall k zk, In k ks -> to_num (get dt k) = Fin zk -> (zm <= zk)%Z
  end.
Proof.
  unfold scan_min.
  set (f := fun '(min, minNode) node =>
              if num_lt (to_num (get dt node)) min
              then (to_num (get dt node), Some node)
              else (min, minNode)).
  set (good := fun (seen : list string) (acc : num * option string) =>
    match acc with
    | (min, None) =>
        min = Infinity /\
        forall k, In k seen -> num_lt (to_num (get dt k)) Infinity = false
    | (min, Some m) =>
        In m seen /\
        exists zm, min = Fin zm /\ to_num (get dt m) = Fin zm /\
          forall k zk, In k seen -> to_num (get dt k) = Fin zk -> (zm <= zk)%Z
    end).
  assert (forall l seen acc, good seen acc ->
            good (seen ++ l) (fold_left f l acc)) as H.
  { induction l as [|a l IH]; intros seen acc Hg; simpl.
    - now rewrite app_nil_r.
    - replace (seen ++ a :: l) with ((seen ++ [a]) ++ l) by list_norm.
      apply IH. destruct acc as [min [m|]]; simpl in *.
      + destruct Hg as (Hm & zm & -> & Em & Hle).
        destruct (to_num (get dt a)) as [za| |] eqn:Ea; simpl.
        * destruct (za <? zm)%Z eqn:Elt.
          -- apply Z.ltb_lt in Elt. split; [apply in_or_app; simpl; auto|].
             exists za. repeat split; auto.
             intros k zk Hk Ek. apply in_app_iff in Hk.
             destruct Hk as [Hk|[<-|[]]].
             ++ specialize (Hle k zk Hk Ek). lia.
             ++ rewrite Ea in Ek. inversion Ek. lia.
          -- apply Z.ltb_ge in Elt. split; [apply in_or_app; auto|].
             exists zm. repeat split; auto.
             intros k zk Hk Ek. apply in_app_iff in Hk.
             destruct Hk as [Hk|[<-|[]]]; eauto.
             rewrite Ea in Ek. inversion Ek. lia.
        * split; [apply in_or_app; auto|]. exists zm. repeat split; auto.
          intros k zk Hk Ek. apply in_app_iff in Hk.
          destruct Hk as [Hk|[<-|[]]]; eauto. congruence.
        * split; [apply in_or_app; auto|]. exists zm. repeat split; auto.
          intros k zk Hk Ek. apply in_app_iff in Hk.
          destruct Hk as [Hk|[<-|[]]]; eauto. congruence.
      + destruct Hg as (-> & Hno).
        destruct (to_num (get dt a)) as [za| |] eqn:Ea; simpl.
        * split; [apply in_or_app; simpl; auto|].
          exists za. repeat split; auto.
          intros k zk Hk Ek. apply in_app_iff in Hk.
          destruct Hk as [Hk|[<-|[]]].
          -- specialize (Hno k Hk). rewrite Ek in Hno. discriminate.
          -- rewrite Ea in Ek. inversion Ek. lia.
        * split; auto. intros k Hk. apply in_app_iff in Hk.
          destruct Hk as [Hk|[<-|[]]]; auto. now rewrite Ea.
        * split; auto. intros k Hk. apply in_app_iff in Hk.
          destruct Hk as [Hk|[<-|[]]]; auto. now rewrite Ea. }
  specialize (H ks [] (Infinity, None)). simpl in H.
  assert (good [] (Infinity, None)) as H0 by (simpl; split; [auto | intros k []]).
  specialize (H H0). unfold good in H.
  destruct (fold_left f ks (Infinity, None)) as [min [m|]]; simpl.
  - destruct H as (Hm & zm & _ & Em & Hle). eauto.
  - tauto.
Qed.

Lemma q_dijkstra_step g st :
  q st <> [] -> List.length (q (dijkstra_step g st)) < List.length (q st).
Proof.
  intros Hq. unfold dijkstra_step, extractMin.
  pose proof (scan_min_spec (d st) (keys (q st))) as Hs.
  destruct (snd (scan_min (d st) (keys (q st)))) as [m|].
  - rewrite q_relax_all. simpl. destruct Hs as (Hm & _).
    apply In_keys in Hm. apply del_length in Hm. lia.
  - rewrite q_relax_all. simpl. destruct (q st); [congruence | simpl; lia].
Qed.

Lemma dijkstra_loop_invariant g (I : sp_state -> Prop) :
  (forall st, I st -> q st <> [] -> I (dijkstra_step g st)) ->
  forall fuel st, I st -> List.length (q st) <= fuel ->
    exists st', dijkstra_loop fuel g st = Some st' /\ I st' /\ q st' = [].
Proof.
  intros Hstep. induction fuel as [|fuel IH]; intros st Hi Hf.
  - assert (q st = []) as Hq by (destruct (q st); simpl in *; [auto | lia]).
    exists st. simpl. apply priorityQueueEmpty_nil in Hq. rewrite Hq.
    split; auto. split; auto. now apply priorityQueueEmpty_nil.
  - simpl. destruct (priorityQueueEmpty st) eqn:Ee.
    + exists st. split; auto. split; auto. now apply priorityQueueEmpty_nil.
    + assert (q st <> []) as Hq.
      { intros Hq. apply priorityQueueEmpty_nil in Hq. congruence. }
      apply IH; auto. pose proof (q_dijkstra_step g st Hq). lia.
Qed.

(** *** The invariant holds at the start *)

Lemma fin_inf st x z : fin st x z -> inf st x -> False.
Proof. unfold fin, inf. congruence. Qed.

Lemma fin_fun st x z z' : fin st x z -> fin st x z' -> z = z'.
Proof. unfold fin. congruence. Qed.

Lemma fin_to_num st x z : to_num (get (d st) x) = Fin z <-> fin st x z.
Proof.
  unfold fin. destruct (get (d st) x) as [n|]; simpl; split; congruence.
Qed.

Lemma edge_target_node g u v : edge g u v -> In v (nodes g).
Proof. intros H. apply In_nodes. right. eauto. Qed.

Lemma edge_source_node g u v : edge g u v -> In u (nodes g).
Proof. intros H. apply In_nodes. left. eapply adjacent_has; eauto. Qed.

Lemma sp_init_d g s x :
  get (d (sp_init g s)) x
  = if String.eqb s x then Some (Fin 0)
    else if member x (nodes g) then Some Infinity else None.
Proof.
  unfold sp_init, initializePriorityQueue. simpl.
  now rewrite get_set, get_set_all.
Qed.

Lemma sp_init_q g s x : inq (sp_init g s) x <-> In x (nodes g).
Proof.
  unfold inq, sp_init, initializePriorityQueue. simpl.
  rewrite has_In, map_fst_set_all. simpl. tauto.
Qed.

Lemma sp_inv_init g s : In s (nodes g) -> sp_inv g s all_edges [] (sp_init g s).
Proof.
  intros Hs.
  assert (forall x z, fin (sp_init g s) x z -> x = s /\ z = 0%Z) as Hfin.
  { intros x z. unfold fin. rewrite sp_init_d.
    destruct (String.eqb s x) eqn:E.
    - apply String.eqb_eq in E. intros H. inversion H. auto.
    - destruct (member x (nodes g)); discriminate. }
  constructor.
  - unfold sp_init, initializePriorityQueue. simpl.
    apply NoDup_set_all. constructor.
  - intros x Hx. apply sp_init_q in Hx. auto.
  - intros x [].
  - left. intros x Hx _. now apply sp_init_q.
  - intros x Hx. unfold fin, inf. rewrite sp_init_d.
    destruct (String.eqb s x); [left; eauto|].
    apply member_In in Hx. rewrite Hx. auto.
  - intros x Hx. rewrite sp_init_d.
    destruct (String.eqb s x) eqn:E.
    + apply String.eqb_eq in E. subst. tauto.
    + apply member_false in Hx. now rewrite Hx.
  - intros x [].
  - split; [|split].
    + unfold fin. now rewrite sp_init_d, String.eqb_refl.
    + reflexivity.
    + tauto.
  - intros u v zu [].
  - intros u v zu zv [].
  - intros x z Hx. apply Hfin in Hx. destruct Hx as (-> & _). apply rt_refl.
  - intros v z _ Hv Hne. apply Hfin in Hv. tauto.
  - reflexivity.
  - exact I.
Qed.

Lemma pred_ok_ext g s st st' done :
  (forall x, In x done ->
     get (d st') x = get (d st) x /\ get (p st') x = get (p st) x) ->
  pred_ok g s st done -> pred_ok g s st' done.
Proof.
  induction done as [|v older IH]; simpl; auto.
  intros Hext (Hok & Hnin & Hsorted & Hpred).
  assert (forall x z, In x (v :: older) -> fin st' x z <-> fin st x z) as Hf.
  { intros x z Hx. unfold fin. destruct (Hext x Hx) as (-> & _). tauto. }
  split; [apply IH; auto|]. split; auto. split.
  - intros u zu zv Hu Hzu Hzv. apply Hf in Hzu, Hzv; simpl; auto.
    eapply Hsorted; eauto.
  - destruct Hpred as [Hs|(Hne & u & zu & Hp & Hu & Hzu & He & Hzv)]; auto.
    right. split; auto. exists u, zu.
    destruct (Hext v (or_introl eq_refl)) as (_ & ->).
    repeat split; auto; apply Hf; simpl; auto.
Qed.

Lemma pred_ok_sorted g s st m done u zu zm :
  pred_ok g s st (m :: done) -> In u (m :: done) ->
  fin st u zu -> fin st m zm -> (zu <= zm)%Z.
Proof.
  simpl. intros (_ & _ & Hsorted & _) [<-|Hu] Hzu Hzm.
  - rewrite (fin_fun _ _ _ _ Hzu Hzm). lia.
  - eapply Hsorted; eauto.
Qed.

Lemma pred_ok_NoDup g s st done : pred_ok g s st done -> NoDup done.
Proof.
  induction done as [|v older IH]; simpl; [constructor|].
  intros (Hok & Hnin & _). constructor; auto.
Qed.

(** *** One relaxation *)

Lemma relax_extracted g st m v zm :
  fin st m zm ->
  relax g st (Some m) v
  = if num_gt (to_num (get (d st) v)) (Fin (zm + getEdgeWeight g m v))
    then mkSp (set (d st) v (Fin (zm + getEdgeWeight g m v)))
           (set (p st) v (Some m)) (q st)
    else st.
Proof. unfold relax, key_of, fin. intros ->. reflexivity. Qed.

(** The relaxation that changes the tables: the weight of the edge is not
    negative, so its target has not been extracted. *)
Lemma sp_inv_update g s m done seen st v zm :
  nonnegative_from g s ->
  (forall x, In x (nodes g) -> ~ In x (m :: done) -> inq st x) ->
  sp_inv g s (edges_but m seen) (m :: done) st ->
  edge g m v -> fin st m zm ->
  (forall zv, fin st v zv -> (zm + getEdgeWeight g m v < zv)%Z) ->
  sp_inv g s (edges_but m (v :: seen)) (m :: done)
    (mkSp (set (d st) v (Fin (zm + getEdgeWeight g m v)))
       (set (p st) v (Some m)) (q st)).
Proof.
  intros Hnn Hleft Hinv Hmv Hzm Hold.
  set (w := getEdgeWeight g m v) in *.
  set (st' := mkSp (set (d st) v (Fin (zm + w))) (set (p st) v (Some m)) (q st)).
  destruct Hinv as [Hqn Hqs Hdn Hrest Hd Hdo Hdf (Hs0 & Hps & Hsd) Hrel Hord
                    Hreach Hpq Hpi Hok].
  assert (0 <= w)%Z as Hw by (apply Hnn; eauto).
  assert (In v (nodes g)) as Hvn by (eapply edge_target_node; eauto).
  assert (~ In v (m :: done)) as Hvd.
  { intros Hin. destruct (Hdf v Hin) as (zv & Hzv).
    pose proof (pred_ok_sorted _ _ _ _ _ _ _ _ Hok Hin Hzv Hzm).
    specialize (Hold zv Hzv). lia. }
  assert (forall x, In x (m :: done) -> x <> v) as Hdv by (intros x Hx ->; auto).
  assert (inq st v) as Hvq by auto.
  assert (forall x z, fin st' x z <-> (x = v /\ z = (zm + w)%Z) \/ (x <> v /\ fin st x z))
    as Hfin.
  { intros x z. unfold fin. simpl. rewrite get_set.
    destruct (String.eqb v x) eqn:E.
    - apply String.eqb_eq in E. subst x. split.
      + intros H. inversion H. auto.
      + intros [(_ & ->)|(H & _)]; [reflexivity | congruence].
    - apply String.eqb_neq in E. split.
      + intros H. right. split; auto.
      + intros [(-> & _)|(_ & H)]; [congruence | exact H]. }
  assert (forall x, x <> v -> get (p st') x = get (p st) x) as Hp.
  { intros x Hx. simpl. apply get_set_other. auto. }
  assert (s <> v) as Hsv by (apply Hdv, Hsd; discriminate).
  constructor.
  - exact Hqn.
  - exact Hqs.
  - exact Hdn.
  - left. exact Hleft.
  - intros x Hx. destruct (string_dec x v) as [->|Hne].
    + left. exists (zm + w)%Z. apply Hfin. auto.
    + destruct (Hd x Hx) as [(z & Hz)|Hi].
      * left. exists z. apply Hfin. auto.
      * right. unfold inf in *. simpl. rewrite get_set_other; auto.
  - intros x Hx. simpl. rewrite get_set_other; [auto | congruence].
  - intros x Hx. destruct (Hdf x Hx) as (z & Hz). exists z. apply Hfin. auto.
  - split; [apply Hfin; auto|]. split; [rewrite Hp; auto | auto].
  - intros u x zu Hu Hzu Hux HE.
    apply Hfin in Hzu. destruct Hzu as [(-> & _)|(Huv & Hzu)]; [now apply Hdv in Hu|].
    destruct (string_dec x v) as [->|Hxv].
    + exists (zm + w)%Z. split; [apply Hfin; auto|].
      destruct (string_dec u m) as [->|Hum].
      * rewrite (fin_fun _ _ _ _ Hzu Hzm). fold w. lia.
      * destruct (Hrel u v zu Hu Hzu Hux (or_introl Hum)) as (zv & Hzv & Hle).
        specialize (Hold zv Hzv). lia.
    + assert (edges_but m seen u x) as HE'.
      { destruct HE as [HE|[HE|HE]]; [left; auto | congruence | right; auto]. }
      destruct (Hrel u x zu Hu Hzu Hux HE') as (zx & Hzx & Hle).
      exists zx. split; auto. apply Hfin. auto.
  - intros u x zu zx Hu Hzu Hx Hzx.
    apply Hfin in Hzu. destruct Hzu as [(-> & _)|(Huv & Hzu)]; [now apply Hdv in Hu|].
    apply Hfin in Hzx. destruct Hzx as [(-> & ->)|(Hxv & Hzx)].
    + pose proof (pred_ok_sorted _ _ _ _ _ _ _ _ Hok Hu Hzu Hzm). lia.
    + eapply Hord; eauto.
  - intros x z Hz. apply Hfin in Hz. destruct Hz as [(-> & _)|(_ & Hz)]; eauto.
    eapply rt_trans; [eapply Hreach; eauto | now apply rt_step].
  - intros x z Hx Hz Hxs. apply Hfin in Hz. destruct Hz as [(-> & ->)|(Hxv & Hz)].
    + exists m, zm. simpl. rewrite get_set_same.
      repeat split; auto. apply Hfin. right. split; auto.
      apply Hdv. now left.
    + destruct (Hpq x z Hx Hz Hxs) as (u & zu & Hpu & Hu & Hzu & Hux & ->).
      exists u, zu. rewrite Hp by auto. repeat split; auto.
      apply Hfin. right. split; auto.
  - intros x Hx. assert (x <> v) as Hxv.
    { intros ->. apply Hx. exists (zm + w)%Z. apply Hfin. auto. }
    rewrite Hp by auto. apply Hpi. intros (z & Hz). apply Hx.
    exists z. apply Hfin. auto.
  - eapply pred_ok_ext; [|exact Hok]. intros x Hx. apply Hdv in Hx.
    simpl. rewrite !get_set_other by congruence. auto.
Qed.

(** The relaxation that changes nothing. *)
Lemma sp_inv_keep g s m done seen st v zm zv :
  sp_inv g s (edges_but m seen) (m :: done) st ->
  fin st m zm -> fin st v zv -> (zv <= zm + getEdgeWeight g m v)%Z ->
  sp_inv g s (edges_but m (v :: seen)) (m :: done) st.
Proof.
  intros Hinv Hzm Hzv Hle.
  destruct Hinv as [Hqn Hqs Hdn Hrest Hd Hdo Hdf Hsrc Hrel Hord
                    Hreach Hpq Hpi Hok].
  constructor; auto.
  intros u x zu Hu Hzu Hux [HE|[<-|HE]].
  - apply (Hrel u x zu); auto. now left.
  - destruct (string_dec u m) as [->|Hum].
    + exists zv. split; auto. rewrite (fin_fun _ _ _ _ Hzu Hzm). exact Hle.
    + apply (Hrel u v zu); auto. now left.
  - apply (Hrel u x zu); auto. now right.
Qed.

Lemma sp_inv_relax g s m done seen st v :
  nonnegative_from g s ->
  (forall x, In x (nodes g) -> ~ In x (m :: done) -> inq st x) ->
  sp_inv g s (edges_but m seen) (m :: done) st ->
  edge g m v ->
  sp_inv g s (edges_but m (v :: seen)) (m :: done) (relax g st (Some m) v).
Proof.
  intros Hnn Hleft Hinv Hmv.
  destruct (inv_done_fin _ _ _ _ _ Hinv m (or_introl eq_refl)) as (zm & Hzm).
  rewrite (relax_extracted _ _ _ _ _ Hzm).
  assert (In v (nodes g)) as Hvn by (eapply edge_target_node; eauto).
  destruct (inv_d_nodes _ _ _ _ _ Hinv v Hvn) as [(zv & Hzv)|Hiv].
  - rewrite (proj2 (fin_to_num st v zv) Hzv). unfold num_gt, num_lt.
    destruct (zm + getEdgeWeight g m v <? zv)%Z eqn:E.
    + apply Z.ltb_lt in E. eapply sp_inv_update; eauto.
      intros zv' Hzv'. now rewrite (fin_fun _ _ _ _ Hzv' Hzv).
    + apply Z.ltb_ge in E. eapply sp_inv_keep; eauto.
  - unfold inf in Hiv. rewrite Hiv. simpl.
    eapply sp_inv_update; eauto.
    intros zv' Hzv'. exfalso. eapply fin_inf; eauto.
Qed.

Lemma sp_inv_relax_all g s m done :
  nonnegative_from g s ->
  forall l seen st,
    (forall x, In x (nodes g) -> ~ In x (m :: done) -> inq st x) ->
    sp_inv g s (edges_but m seen) (m :: done) st ->
    (forall v, In v l -> edge g m v) ->
    sp_inv g s (edges_but m (rev l ++ seen)) (m :: done)
      (fold_left (fun s0 v => relax g s0 (Some m) v) l st).
Proof.
  intros Hnn. induction l as [|v l IH]; simpl; intros seen st Hleft Hinv Hl; auto.
  replace ((rev l ++ [v]) ++ seen) with (rev l ++ v :: seen) by list_norm.
  apply IH.
  - intros x Hx Hd. unfold inq. rewrite q_relax. now apply Hleft.
  - apply sp_inv_relax; auto.
  - auto.
Qed.

(** *** One turn of the loop *)

Lemma inq_del st m x :
  NoDup (map fst (q st)) ->
  has (del (q st) m) x = true <-> x <> m /\ inq st x.
Proof.
  intros Hn. unfold inq, has. destruct (string_dec x m) as [->|Hne].
  - rewrite get_del_same by auto. intuition congruence.
  - rewrite get_del_other by auto. tauto.
Qed.

(** The turn that extracts the node [m] and relaxes its edges. *)
Lemma sp_inv_extract g s done st m zm :
  sp_inv g s all_edges done st ->
  (forall x, In x (nodes g) -> ~ In x done -> inq st x) ->
  inq st m -> fin st m zm ->
  (forall k zk, inq st k -> fin st k zk -> (zm <= zk)%Z) ->
  sp_inv g s (edges_but m []) (m :: done) (mkSp (d st) (p st) (del (q st) m))
  /\ (forall x, In x (nodes g) -> ~ In x (m :: done) ->
        inq (mkSp (d st) (p st) (del (q st) m)) x).
Proof.
  intros Hinv Hleft Hmq Hzm Hmin.
  destruct Hinv as [Hqn Hqs Hdn Hrest Hd Hdo Hdf (Hs0 & Hps & Hsd) Hrel Hord
                    Hreach Hpq Hpi Hok].
  destruct (Hqs m Hmq) as (Hmn & Hmd).
  assert (forall x, inq (mkSp (d st) (p st) (del (q st) m)) x
                    <-> x <> m /\ inq st x) as Hq'.
  { intros x. unfold inq at 1. simpl. now apply inq_del. }
  assert (m = s -> done = []) as Hms.
  { intros ->. destruct done as [|a l]; auto. exfalso. apply Hmd, Hsd. discriminate. }
  split.
  - constructor.
    + simpl. now apply NoDup_del.
    + intros x Hx. apply Hq' in Hx. destruct Hx as (Hne & Hx).
      destruct (Hqs x Hx). split; auto. simpl. intros [E|H']; auto.
    + intros x [<-|Hx]; auto.
    + left. intros x Hx Hnd. apply Hq'. simpl in Hnd.
      split; [intros ->; tauto | apply Hleft; tauto].
    + exact Hd.
    + exact Hdo.
    + intros x [<-|Hx]; eauto.
    + split; auto. split; auto. intros _.
      destruct (string_dec m s) as [E|E]; [now left|]. right.
      destruct (Hpq m zm Hmd Hzm E) as (u & _ & _ & Hu & _).
      apply Hsd. intros ->. destruct Hu.
    + intros u v zu Hu Hzu Huv [HE|[]].
      destruct Hu as [<-|Hu]; [congruence|].
      apply (Hrel u v zu); auto. exact I.
    + intros u v zu zv [<-|Hu] Hzu Hv Hzv; apply Hq' in Hv; destruct Hv as (_ & Hv).
      * rewrite (fin_fun _ _ _ _ Hzu Hzm). eauto.
      * eapply Hord; eauto.
    + exact Hreach.
    + intros v z Hv Hz Hvs.
      assert (~ In v done) as Hv' by (intros H; apply Hv; now right).
      destruct (Hpq v z Hv' Hz Hvs) as (u & zu & H1 & H2 & H3 & H4 & H5).
      exists u, zu. repeat split; auto. now right.
    + exact Hpi.
    + apply (pred_ok_ext g s st); [intros; split; reflexivity|].
      split; [exact Hok|]. split; [exact Hmd|]. split.
      * intros u zu zv Hu Hzu Hzv. eapply Hord; eauto.
      * destruct (string_dec m s) as [E|E]; [left; auto|]. right. split; auto.
        destruct (Hpq m zm Hmd Hzm E) as (u & zu & H1 & H2 & H3 & H4 & ->).
        exists u, zu. auto.
  - intros x Hx Hnd. apply Hq'. simpl in Hnd.
      split; [intros ->; tauto | apply Hleft; tauto].
Qed.

Lemma sp_inv_all_edges g s (E : string -> string -> Prop) done st :
  (forall u v, In u done -> edge g u v -> E u v) ->
  sp_inv g s E done st -> sp_inv g s all_edges done st.
Proof.
  intros HE [Hqn Hqs Hdn Hrest Hd Hdo Hdf Hsrc Hrel Hord Hreach Hpq Hpi Hok].
  constructor; auto;
    intros u v zu Hu Hzu Huv _; apply (Hrel u v zu); auto.
Qed.

(** The turn that finds no finite distance in the queue: the queue is
    emptied, and the relaxations of the edges that leave the node named
    ["null"] change nothing. *)
Lemma sp_inv_discard g s done st :
  sp_inv g s all_edges done st ->
  (forall x, In x (nodes g) -> ~ In x done -> inq st x) ->
  (forall k z, inq st k -> ~ fin st k z) ->
  sp_inv g s all_edges done (mkSp (d st) (p st) empty)
  /\ fold_left (fun s0 v => relax g s0 None v) (adjacent g "null")
       (mkSp (d st) (p st) empty)
     = mkSp (d st) (p st) empty.
Proof.
  intros Hinv Hleft Hnofin.
  destruct Hinv as [Hqn Hqs Hdn Hrest Hd Hdo Hdf Hsrc Hrel Hord
                    Hreach Hpq Hpi Hok].
  split.
  - constructor; auto.
    + constructor.
    + intros x Hx. discriminate.
    + right. split; [reflexivity|]. intros x Hx Hnd.
      destruct (Hd x Hx) as [(z & Hz)|Hi]; auto.
      exfalso. apply (Hnofin x z); auto.
    + intros u v zu zv _ _ Hv. discriminate.
    + eapply pred_ok_ext; [|exact Hok]. intros; split; reflexivity.
  - assert (forall v, In v (adjacent g "null") ->
              relax g (mkSp (d st) (p st) empty) None v
              = mkSp (d st) (p st) empty) as Hnoop.
    { intros v Hv. unfold relax, key_of. simpl.
      assert (In "null" (nodes g)) as Hn by (eapply edge_source_node; eauto).
      destruct (in_dec string_dec "null" done) as [Hin|Hout].
      - destruct (Hdf _ Hin) as (zn & Hzn).
        destruct (Hrel "null" v zn Hin Hzn Hv I) as (zv & Hzv & Hle).
        unfold fin in Hzn, Hzv. rewrite Hzn, Hzv. simpl.
        unfold num_gt, num_lt.
        assert ((zn + getEdgeWeight g "null" v <? zv)%Z = false) as ->
          by (apply Z.ltb_ge; lia).
        reflexivity.
      - assert (inf st "null") as Hi.
        { destruct (Hd _ Hn) as [(z & Hz)|Hi]; auto.
          exfalso. apply (Hnofin "null" z); auto. }
        unfold inf in Hi. rewrite Hi. simpl. reflexivity. }
    induction (adjacent g "null") as [|v l IH]; simpl; auto.
    rewrite Hnoop by now left. apply IH. intros x Hx. apply Hnoop. now right.
Qed.

Lemma sp_inv_step g s st :
  nonnegative_from g s ->
  (exists done, sp_inv g s all_edges done st) -> q st <> [] ->
  exists done, sp_inv g s all_edges done (dijkstra_step g st).
Proof.
  intros Hnn (done & Hinv) Hq.
  assert (forall x, In x (nodes g) -> ~ In x done -> inq st x) as Hleft.
  { destruct (inv_rest _ _ _ _ _ Hinv) as [H|(H & _)]; [exact H | congruence]. }
  unfold dijkstra_step, extractMin.
  pose proof (scan_min_spec (d st) (keys (q st))) as Hscan.
  destruct (snd (scan_min (d st) (keys (q st)))) as [m|].
  - destruct Hscan as (Hm & zm & Hzm & Hmin).
    apply keys_has in Hm. apply fin_to_num in Hzm.
    destruct (sp_inv_extract g s done st m zm Hinv Hleft Hm Hzm) as (Hmid & Hleft').
    { intros k zk Hk Hzk. apply (Hmin k zk).
      - now apply keys_has.
      - now apply fin_to_num. }
    exists (m :: done). cbn [key_of].
    eapply sp_inv_all_edges;
      [|apply (sp_inv_relax_all g s m done Hnn (adjacent g m) []); eauto].
    intros u v Hu Huv. destruct (string_dec u m) as [->|Hne]; [|now left].
    right. rewrite app_nil_r. apply in_rev in Huv. exact Huv.
  - destruct (sp_inv_discard g s done st Hinv Hleft) as (Hinv' & Hnoop).
    { intros k z Hk Hz. apply keys_has in Hk. specialize (Hscan k Hk).
      apply fin_to_num in Hz. rewrite Hz in Hscan. discriminate. }
    exists done. cbn [key_of]. rewrite Hnoop. exact Hinv'.
Qed.

(** [dijkstra()] returns, and its tables satisfy the invariant with an
    empty queue. *)
Lemma dijkstra_spec g s t :
  nonnegative_from g s -> In s (nodes g) -> In t (nodes g) ->
  exists st done,
    dijkstra g s t = Some (Normal st) /\
    sp_inv g s all_edges done st /\ q st = [].
Proof.
  intros Hnn Hs Ht. unfold dijkstra. rewrite initializeSingleSource_spec.
  apply member_In in Hs, Ht. rewrite Hs, Ht. cbn [negb]. cbv zeta.
  apply member_In in Hs.
  fold (sp_init g s).
  destruct (dijkstra_loop_invariant g
              (fun st => exists done, sp_inv g s all_edges done st)
              (fun st0 => sp_inv_step g s st0 Hnn) (List.length (keys (q (sp_init g s))))
              (sp_init g s)) as (st & Hloop & (done & Hinv) & Hq).
  - exists []. now apply sp_inv_init.
  - rewrite keys_length. lia.
  - exists st, done. rewrite Hloop. auto.
Qed.

(** *** Routes *)

Lemma last_default {A : Type} (l : list A) (x y : A) :
  l <> [] -> last l x = last l y.
Proof.
  induction l as [|a [|b r] IH]; intros Hl; [congruence | reflexivity |].
  change (last (b :: r) x = last (b :: r) y). apply IH. discriminate.
Qed.

Lemma follows_edges_snoc g l v x :
  l <> [] ->
  follows_edges g (l ++ [v])
  = follows_edges g l && member v (adjacent g (last l x)).
Proof.
  induction l as [|a [|b r] IH]; intros Hl; [congruence| |].
  - simpl. now rewrite andb_true_r.
  - change (follows_edges g ((a :: b :: r) ++ [v]))
      with (member b (adjacent g a) && follows_edges g ((b :: r) ++ [v])).
    rewrite IH by discriminate.
    change (follows_edges g (a :: b :: r))
      with (member b (adjacent g a) && follows_edges g (b :: r)).
    change (last (a :: b :: r) x) with (last (b :: r) x).
    now rewrite andb_assoc.
Qed.

Lemma weight_of_snoc g l v x :
  l <> [] ->
  weight_of g (l ++ [v])
  = (weight_of g l + getEdgeWeight g (last l x) v)%Z.
Proof.
  induction l as [|a [|b r] IH]; intros Hl; [congruence| |].
  - simpl. lia.
  - change (weight_of g ((a :: b :: r) ++ [v]))
      with (getEdgeWeight g a b + weight_of g ((b :: r) ++ [v]))%Z.
    rewrite IH by discriminate.
    change (weight_of g (a :: b :: r))
      with (getEdgeWeight g a b + weight_of g (b :: r))%Z.
    change (last (a :: b :: r) x) with (last (b :: r) x).
    lia.
Qed.

Lemma route_source g s : route g s s [s].
Proof. repeat split. discriminate. Qed.

Lemma route_snoc g s u v l :
  route g s u l -> edge g u v ->
  route g s v (l ++ [v])
  /\ weight_of g (l ++ [v]) = (weight_of g l + getEdgeWeight g u v)%Z.
Proof.
  intros (Hh & Hl & Hn & Hf) Huv. split; [split; [|split; [|split]]|].
  - destruct l; [congruence | exact Hh].
  - apply last_last.
  - intros H. apply app_eq_nil in H. destruct H. discriminate.
  - rewrite (follows_edges_snoc g l v s Hn), Hf, Hl. simpl.
    now apply member_In.
  - now rewrite (weight_of_snoc g l v s Hn), Hl.
Qed.

Lemma route_reach g s t l : route g s t l -> reach g s t.
Proof.
  intros (Hh & Hl & _ & Hf). revert s Hh Hl Hf.
  induction l as [|a [|b r] IH]; intros s Hh Hl Hf; [discriminate| |].
  - simpl in *. inversion Hh; subst. apply rt_refl.
  - inversion Hh; subst a.
    change (follows_edges g (s :: b :: r))
      with (member b (adjacent g s) && follows_edges g (b :: r)) in Hf.
    apply andb_true_iff in Hf. destruct Hf as (Hb & Hf). apply member_In in Hb.
    eapply reach_edge; [exact Hb|]. apply IH; auto.
    change (last (s :: b :: r) s) with (last (b :: r) s) in Hl.
    rewrite <- Hl. apply last_default. discriminate.
Qed.

Lemma reach_route g s t : reach g s t -> exists l, route g s t l.
Proof.
  intros H. apply clos_rt_rtn1 in H. induction H as [|u v Huv _ (l & Hl)].
  - exists [s]. apply route_source.
  - exists (l ++ [v]). now apply (route_snoc g s u v l).
Qed.

(** *** The tables when the loop is over *)

Section FinalTables.

Variables (g : graph) (s : string) (done : list string) (st : sp_state).

Hypothesis Hinv : sp_inv g s all_edges done st.
Hypothesis Hq : q st = [].

Lemma final_fin_done x z : fin st x z -> In x done.
Proof.
  intros Hz. destruct (in_dec string_dec x done) as [H|H]; auto. exfalso.
  assert (In x (nodes g)) as Hx.
  { destruct (in_dec string_dec x (nodes g)) as [Hx|Hx]; auto.
    apply (inv_d_other _ _ _ _ _ Hinv) in Hx. unfold fin in Hz. congruence. }
  destruct (inv_rest _ _ _ _ _ Hinv) as [Hl|(_ & Hr)].
  - specialize (Hl x Hx H). unfold inq, has in Hl. rewrite Hq in Hl. discriminate.
  - eapply fin_inf; eauto.
Qed.

Lemma final_relaxed u v zu :
  fin st u zu -> edge g u v ->
  exists zv, fin st v zv /\ (zv <= zu + getEdgeWeight g u v)%Z.
Proof.
  intros Hzu Huv. apply (inv_relaxed _ _ _ _ _ Hinv u v zu); auto.
  - eapply final_fin_done; eauto.
  - exact I.
Qed.

(** Every node that the source reaches has a number in the table. *)
Lemma final_reach_fin x : reach g s x -> exists z, fin st x z.
Proof.
  intros H. apply clos_rt_rtn1 in H. induction H as [|u v Huv _ (zu & Hzu)].
  - exists 0%Z. apply (inv_source _ _ _ _ _ Hinv).
  - destruct (final_relaxed u v zu Hzu Huv) as (zv & Hzv & _). eauto.
Qed.

(** The number of a node is at most the weight of any sequence of edges
    that leads to it. *)
Lemma final_lower_bound l :
  forall x zx, fin st x zx -> hd_error l = Some x ->
    follows_edges g l = true ->
    exists z, fin st (last l x) z /\ (z <= zx + weight_of g l)%Z.
Proof.
  induction l as [|a [|b r] IH]; intros x zx Hzx Hh Hf; [discriminate| |].
  - inversion Hh; subst a. exists zx. simpl. split; [auto | lia].
  - inversion Hh; subst a.
    change (follows_edges g (x :: b :: r))
      with (member b (adjacent g x) && follows_edges g (b :: r)) in Hf.
    apply andb_true_iff in Hf. destruct Hf as (Hb & Hf). apply member_In in Hb.
    destruct (final_relaxed x b zx Hzx Hb) as (zb & Hzb & Hle).
    destruct (IH b zb Hzb eq_refl Hf) as (z & Hz & Hle').
    exists z.
    change (last (x :: b :: r) x) with (last (b :: r) x).
    rewrite (last_default (b :: r) x b) by discriminate.
    split; auto.
    change (weight_of g (x :: b :: r))
      with (getEdgeWeight g x b + weight_of g (b :: r))%Z.
    lia.
Qed.

Lemma final_route_bound t l zt :
  fin st t zt -> route g s t l -> (zt <= weight_of g l)%Z.
Proof.
  intros Hzt (Hh & Hl & Hn & Hf).
  destruct (final_lower_bound l s 0%Z (proj1 (inv_source _ _ _ _ _ Hinv)) Hh Hf)
    as (z & Hz & Hle).
  rewrite Hl in Hz. rewrite (fin_fun _ _ _ _ Hzt Hz). lia.
Qed.

Lemma final_done_length : List.length done <= List.length (nodes g).
Proof.
  apply NoDup_incl_length.
  - eapply pred_ok_NoDup. apply (inv_pred_ok _ _ _ _ _ Hinv).
  - intros x Hx. apply (inv_done_nodes _ _ _ _ _ Hinv). exact Hx.
Qed.

End FinalTables.

(** *** The walk over the predecessors *)

Lemma path_loop_stop fuel g pt node l w :
  truthy_pred (get pt node) = None ->
  path_loop fuel g pt node l w = Some (node, l, w).
Proof. intros H. destruct fuel; simpl; now rewrite H. Qed.

Lemma path_loop_next fuel g pt node u l w :
  truthy_pred (get pt node) = Some u ->
  path_loop (S fuel) g pt node l w
  = path_loop fuel g pt u (l ++ [node]) (w + getEdgeWeight g u node).
Proof. intros H. simpl. now rewrite H. Qed.

(** From an extracted node the walk arrives at the source, along a route
    whose weight is the number of the node. *)
Lemma path_loop_done g s st :
  ~ In "" (nodes g) -> fin st s 0 -> get (p st) s = None ->
  forall done,
    pred_ok g s st done -> (forall x, In x done -> In x (nodes g)) ->
    forall v zv, In v done -> fin st v zv ->
    forall fuel acc w, List.length done <= fuel ->
      exists c,
        path_loop fuel g (p st) v acc w = Some (s, acc ++ c, (w + zv)%Z) /\
        route g s v (rev (c ++ [s])) /\
        weight_of g (rev (c ++ [s])) = zv.
Proof.
  intros Hne Hs0 Hps. induction done as [|v0 older IH]; intros Hok Hnodes
    v zv Hv Hzv fuel acc w Hfuel; [destruct Hv|].
  destruct Hok as (Hok & Hnin & Hsorted & Hcase).
  assert (forall x, In x older -> In x (nodes g)) as Hnodes'
    by (intros x Hx; apply Hnodes; now right).
  simpl in Hfuel.
  destruct Hv as [<-|Hv]; [|apply (IH Hok Hnodes' v zv Hv Hzv); lia].
  destruct Hcase as [(-> & _)|(Hvs & u & zu & Hpv & Hu & Hzu & Huv & Hzv')].
  - exists []. rewrite path_loop_stop by now rewrite Hps.
    rewrite (fin_fun _ _ _ _ Hzv Hs0), app_nil_r, Z.add_0_r.
    split; [reflexivity|]. split; [apply route_source | reflexivity].
  - destruct fuel as [|fuel]; [lia|].
    assert (truthy_pred (get (p st) v0) = Some u) as Ht.
    { rewrite Hpv. simpl. destruct (String.eqb u "") eqn:E; auto.
      apply String.eqb_eq in E. subst u. exfalso. apply Hne. auto. }
    rewrite (path_loop_next _ _ _ _ _ _ _ Ht).
    destruct (IH Hok Hnodes' u zu Hu Hzu fuel (acc ++ [v0])
                (w + getEdgeWeight g u v0)%Z) as (c & Hc & Hr & Hw); [lia|].
    exists (v0 :: c). rewrite Hc.
    rewrite (fin_fun _ _ _ _ Hzv Hzv').
    split; [f_equal; f_equal; [list_norm | lia]|].
    change (rev ((v0 :: c) ++ [s])) with (rev (c ++ [s]) ++ [v0]).
    destruct (route_snoc g s u v0 _ Hr Huv) as (Hr' & Hw').
    split; auto. rewrite Hw', Hw. reflexivity.
Qed.

(** *** Correctness of [shortestPath] *)

(** On a graph that has no node with the empty identifier, and where the
    weights of the edges that [source] reaches are not negative:
    when [destination] is reached from [source], [shortestPath] returns a
    route from [source] to [destination] together with its weight, and no
    route between them weighs less; when it is not reached,
    [shortestPath] raises the error of a missing path. *)
Lemma shortestPath_minimal (g : graph) (source destination : string) :
  ~ In "" (nodes g) ->
  nonnegative_from g source ->
  In source (nodes g) -> In destination (nodes g) ->
  (reach g source destination ->
   exists l w,
     shortestPath g source destination = Some (Normal (l, w)) /\
     route g source destination l /\
     weight_of g l = w /\
     forall l', route g source destination l' -> (w <= weight_of g l')%Z) /\
  (~ reach g source destination ->
   shortestPath g source destination = Some (Throw NoPathFound)).
Proof.
  intros Hne Hnn Hs Ht.
  destruct (dijkstra_spec g source destination Hnn Hs Ht)
    as (st & done & Hd & Hinv & Hq).
  unfold shortestPath. rewrite Hd. unfold path.
  destruct (inv_source _ _ _ _ _ Hinv) as (Hs0 & Hps & _).
  split.
  - intros Hreach.
    destruct (final_reach_fin g source done st Hinv Hq destination Hreach)
      as (zt & Hzt).
    destruct (path_loop_done g source st Hne Hs0 Hps done
                (inv_pred_ok _ _ _ _ _ Hinv) (inv_done_nodes _ _ _ _ _ Hinv)
                destination zt
                (final_fin_done g source done st Hinv Hq destination zt Hzt)
                Hzt (S (List.length (nodes g))) [] 0%Z)
      as (c & Hc & Hr & Hw).
    { pose proof (final_done_length g source done st Hinv). lia. }
    rewrite Hc. rewrite String.eqb_refl. simpl negb. cbv iota.
    exists (rev (c ++ [source])), zt. simpl app.
    split; [reflexivity|]. split; [exact Hr|]. split; [exact Hw|].
    intros l' Hl'.
    apply (final_route_bound g source done st Hinv Hq destination l' zt Hzt Hl').
  - intros Hnr.
    assert (get (p st) destination = None) as Hp.
    { apply (inv_pred_inf _ _ _ _ _ Hinv). intros (z & Hz).
      apply Hnr. eapply inv_reach; eauto. }
    rewrite path_loop_stop by now rewrite Hp.
    assert (String.eqb destination source = false) as ->; [|reflexivity].
    apply String.eqb_neq. intros ->. apply Hnr. apply rt_refl.
Qed.

Lemma get_In_pair {V : Type} (o : obj V) k v : get o k = Some v -> In (k, v) o.
Proof.
  induction o as [|[k' v'] r IH]; simpl; [discriminate|].
  destruct (String.eqb k' k) eqn:E; auto.
  apply String.eqb_eq in E. subst k'. intros H. inversion H. auto.
Qed.

Lemma stored_weights_nonnegative g s :
  (forall k w, In (k, w) (edgeWeights g) -> (0 <= w)%Z) -> nonnegative_from g s.
Proof.
  intros H u v _ _. unfold getEdgeWeight.
  destruct (get (edgeWeights g) (encodeEdge u v)) as [w|] eqn:E; [|lia].
  apply get_In_pair in E. eauto.
Qed.

(** ** The empty identifier as a predecessor *)

Lemma default_weights_nonnegative g s :
  edgeWeights g = [] -> nonnegative_from g s.
Proof.
  intros E u v _ _. unfold getEdgeWeight. rewrite E. simpl. lia.
Qed.

(** C1, at the graph with the single edge from [""] to ["a"]: both nodes
    are in the graph, the only weight is the default 1, the sequence
    [["", "a"]] is a route of weight 1, and [shortestPath("", "a")] returns
    no path. *)
Theorem shortestPath_from_empty_id_returns_nothing :
  In "" (nodes from_empty_id) /\ In "a" (nodes from_empty_id) /\
  nonnegative_from from_empty_id "" /\
  route from_empty_id "" "a" [""; "a"] /\
  weight_of from_empty_id [""; "a"] = 1%Z /\
  forall l w, shortestPath from_empty_id "" "a" <> Some (Normal (l, w)).
Proof.
  split; [simpl; auto|]. split; [simpl; auto|].
  split; [now apply default_weights_nonnegative|].
  split; [repeat split; discriminate|]. split; [reflexivity|].
  intros l w. discriminate.
Qed.

(** C5, at the same graph: ["a"] is reached from [""], and
    [shortestPath("", "a")] raises the error of a missing path; the walk
    over the predecessors stops at ["a"], whose predecessor [""] is falsy. *)
Theorem shortestPath_from_empty_id_raises :
  reach from_empty_id "" "a" /\
  nonnegative_from from_empty_id "" /\
  (exists st, dijkstra from_empty_id "" "a" = Some (Normal st)
              /\ get (p st) "a" = Some (Some "")
              /\ path_loop 3 from_empty_id (p st) "a" [] 0 = Some ("a", [], 0%Z)) /\
  shortestPath from_empty_id "" "a" = Some (Throw NoPathFound).
Proof.
  split; [apply rt_step; unfold edge; simpl; auto|].
  split; [now apply default_weights_nonnegative|].
  split; [|reflexivity].
  eexists. split; [reflexivity|]. split; reflexivity.
Qed.

(** The example of the specification: the direct edge from A to C wins. *)
Lemma shortestPath_triangle :
  shortestPath triangle "A" "C" = Some (Normal (["A"; "C"], 1%Z)).
Proof. reflexivity. Qed.

(** ** Keys of pairs of identifiers without the separator *)

Lemma append_bar_inj u u' r r' :
  no_bar u = true -> no_bar u' = true ->
  (u ++ String "|" r)%string = (u' ++ String "|" r')%string ->
  u = u' /\ r = r'.
Proof.
  revert u'. induction u as [|c u IH]; intros [|c' u'] Hu Hu' E; simpl in *.
  - inversion E. auto.
  - inversion E; subst c'. rewrite Ascii.eqb_refl in Hu'. discriminate.
  - inversion E; subst c. rewrite Ascii.eqb_refl in Hu. discriminate.
  - inversion E; subst c'.
    apply andb_true_iff in Hu, Hu'. destruct Hu as (_ & Hu), Hu' as (_ & Hu').
    destruct (IH u' Hu Hu' H1) as (-> & ->). auto.
Qed.

Lemma encodeEdge_inj u v u' v' :
  no_bar u = true -> no_bar u' = true ->
  encodeEdge u v = encodeEdge u' v' -> u = u' /\ v = v'.
Proof. intros Hu Hu' E. now apply append_bar_inj. Qed.

Lemma encodeDataEdge_inj u v u' v' :
  no_bar u = true -> no_bar u' = true ->
  encodeDataEdge u v = encodeDataEdge u' v' -> u = u' /\ v = v'.
Proof.
  intros Hu Hu' E.
  destruct (append_bar_inj u u' (String "|" v) (String "|" v') Hu Hu' E)
    as (-> & H). inversion H. auto.
Qed.

(** For identifiers without the character ["|"] the weights and the
    payloads are kept per ordered pair: setting them for one pair leaves
    what is read for every other pair. *)
Theorem metadata_per_pair (g : graph) (u v u' v' : string) (w : Z) (x : data) :
  no_bar u = true -> no_bar u' = true -> (u, v) <> (u', v') ->
  getEdgeWeight (setEdgeWeight g u v w) u' v' = getEdgeWeight g u' v' /\
  getEdgeData (setEdgeData g u v x) u' v' = getEdgeData g u' v'.
Proof.
  intros Hu Hu' Hne. split.
  - unfold getEdgeWeight, setEdgeWeight. simpl. rewrite get_set_other; auto.
    intros E. apply encodeEdge_inj in E; auto. destruct E. congruence.
  - unfold getEdgeData, setEdgeData. simpl. rewrite get_set_other; auto.
    intros E. apply encodeDataEdge_inj in E; auto. destruct E. congruence.
Qed.

Lemma metadata_per_pair_witness :
  getEdgeWeight (setEdgeWeight triangle "A" "B" 7) "B" "A" = 1%Z.
Proof.
  destruct (metadata_per_pair triangle "A" "B" "B" "A" 7 empty_record
              eq_refl eq_refl) as (H & _); [discriminate|].
  rewrite H. reflexivity.
Defined.

(** ** More on the traversal and on [removeNode] *)

(** Without [includeSourceNodes = false], the result of [depthFirstSearch]
    holds exactly the nodes that the sources reach, each once. *)
Lemma depthFirstSearch_reach
  (g : graph) (sourceNodes : option (list string))
  (includeSourceNodes : option bool) :
  excludes includeSourceNodes = false ->
  exists l,
    depthFirstSearch g sourceNodes includeSourceNodes = Some l /\
    NoDup l /\
    forall x, In x l <->
              exists s, In s (chosen_sources g sourceNodes) /\ reach g s x.
Proof.
  intros Hex.
  destruct (dfs_run_total g sourceNodes includeSourceNodes) as (st & Hrun).
  exists (nodeList st). unfold depthFirstSearch. rewrite Hrun.
  destruct (dfs_run_result _ _ _ _ Hrun)
    as (Hnd & _ & _ & Hreach & Hedge & _ & Hsrc).
  split; [reflexivity|]. split; [exact Hnd|]. intros x. split; [apply Hreach|].
  intros (s & Hs & Hsx). apply clos_rt_rtn1 in Hsx.
  induction Hsx as [|u v Huv _ IH]; [now apply Hsrc|].
  destruct (Hedge u v IH Huv) as ([(Hp & _)|H] & _); [congruence | exact H].
Qed.

(** When [edges] has no key twice, [removeNode(node)] takes [node] out of
    every adjacency array and out of the nodes, and leaves the weights and
    the payloads in the store. *)
Lemma removeNode_effect (g : graph) (node : string) :
  NoDup (map fst (edges g)) ->
  (forall a, adjacent (removeNode g node) a
             = if String.eqb node a then []
               else filter (differs node) (adjacent g a)) /\
  ~ In node (nodes (removeNode g node)) /\
  edgeWeights (removeNode g node) = edgeWeights g /\
  edgeData (removeNode g node) = edgeData g.
Proof.
  intros Hn.
  destruct (removeNode_spec g node Hn) as (Ha & Hk & _ & Hw & Hd).
  split; [exact Ha|]. split; [|auto].
  rewrite In_nodes. intros [H|(u & H)].
  - apply Hk in H. tauto.
  - unfold edge in H. rewrite Ha in H. destruct (String.eqb node u); [destruct H|].
    apply In_filter_differs in H. tauto.
Qed.

(** ** Stores that a call leaves as they are *)

Lemma set_same {V : Type} (o : obj V) k v : get o k = Some v -> set o k v = o.
Proof.
  induction o as [|[k' v'] r IH]; simpl; [discriminate|].
  destruct (String.eqb k' k) eqn:E.
  - intros H. inversion H. reflexivity.
  - intros H. now rewrite IH.
Qed.

Lemma set_absent {V : Type} (o : obj V) k v :
  get o k = None -> set o k v = o ++ [(k, v)].
Proof.
  induction o as [|[k' v'] r IH]; simpl; auto.
  destruct (String.eqb k' k); [discriminate|].
  intros H. now rewrite IH.
Qed.

Lemma set_set {V : Type} (o : obj V) k v v' :
  set (set o k v) k v' = set o k v'.
Proof.
  induction o as [|[k' v0] r IH]; simpl.
  - now rewrite String.eqb_refl.
  - destruct (String.eqb k' k) eqn:E; simpl; rewrite E; [reflexivity|].
    now rewrite IH.
Qed.

Lemma del_absent {V : Type} (o : obj V) k : get o k = None -> del o k = o.
Proof.
  induction o as [|[k' v'] r IH]; simpl; auto.
  destruct (String.eqb k' k); [discriminate|].
  intros H. now rewrite IH.
Qed.

Lemma del_set_absent {V : Type} (o : obj V) k v :
  get o k = None -> del (set o k v) k = o.
Proof.
  induction o as [|[k' v'] r IH]; simpl.
  - now rewrite String.eqb_refl.
  - destruct (String.eqb k' k) eqn:E; [discriminate|].
    intros H. simpl. rewrite E. now rewrite IH.
Qed.

Lemma with_edges_same g : with_edges g (edges g) = g.
Proof. now destruct g. Qed.

Lemma with_edges_twice g e e' : with_edges (with_edges g e) e' = with_edges g e'.
Proof. reflexivity. Qed.

Lemma has_get {V : Type} (o : obj V) k :
  has o k = true <-> exists v, get o k = Some v.
Proof.
  unfold has. destruct (get o k); split; eauto; try discriminate.
  intros (v & H). discriminate.
Qed.

Lemma has_false {V : Type} (o : obj V) k : has o k = false <-> get o k = None.
Proof. unfold has. destruct (get o k); split; congruence. Qed.

Lemma adjacent_get g n l : get (edges g) n = Some l -> adjacent g n = l.
Proof. unfold adjacent. now intros ->. Qed.

Lemma addNode_existing g n : has (edges g) n = true -> addNode g n = g.
Proof.
  intros H. apply has_get in H. destruct H as (l & H).
  unfold addNode. rewrite (adjacent_get _ _ _ H), (set_same _ _ _ H).
  apply with_edges_same.
Qed.

Lemma nodes_addNode g n x :
  In x (nodes (addNode g n)) <-> x = n \/ In x (nodes g).
Proof.
  rewrite !In_nodes, has_addNode. unfold edge.
  split.
  - intros [[H|H]|(u & H)]; auto.
    rewrite adjacent_addNode in H. right. right. eauto.
  - intros [H|[H|(u & H)]]; auto.
    right. exists u. now rewrite adjacent_addNode.
Qed.

(** [addNode(node)] on a node that has an adjacency array leaves the store
    as it is, so adding a node twice is adding it once; on any store it
    keeps every adjacency array, the weights and the payloads, and the
    nodes afterwards are [node] and the nodes before. *)
Lemma addNode_effect (g : graph) (node : string) :
  (has (edges g) node = true -> addNode g node = g) /\
  addNode (addNode g node) node = addNode g node /\
  (forall x, adjacent (addNode g node) x = adjacent g x) /\
  (forall x, In x (nodes (addNode g node)) <-> x = node \/ In x (nodes g)) /\
  edgeWeights (addNode g node) = edgeWeights g /\
  edgeData (addNode g node) = edgeData g.
Proof.
  split; [apply addNode_existing|]. split.
  - apply addNode_existing. apply has_addNode. auto.
  - split; [apply adjacent_addNode|]. split; [apply nodes_addNode|].
    split; reflexivity.
Qed.

Lemma nodes_keys g x : store_inv g -> In x (nodes g) <-> has (edges g) x = true.
Proof.
  intros (_ & He). rewrite In_nodes. split; [|auto].
  intros [H|(u & H)]; eauto.
Qed.

(** When every entry of an adjacency array is a key of [edges], and no key
    is there twice, [nodes()] lists the keys of [edges], each once. *)
Lemma nodes_keys_perm (g : graph) :
  store_inv g -> Permutation (nodes g) (keys (edges g)).
Proof.
  intros Hinv.
  apply NoDup_Permutation.
  - apply NoDup_nodes.
  - apply NoDup_keys, Hinv.
  - intros x. rewrite keys_has. now apply nodes_keys.
Qed.

(** ** Removing an edge *)

Lemma removeEdge_absent g u v : ~ edge g u v -> removeEdge g u v = g.
Proof.
  intros H. unfold removeEdge. destruct (get (edges g) u) as [l|] eqn:E; auto.
  rewrite (adjacent_get _ _ _ E).
  unfold edge in H. rewrite (adjacent_get _ _ _ E) in H.
  change (filter (fun _v => negb (String.eqb _v v)) l) with (filter (differs v) l).
  rewrite filter_differs_absent by now apply member_false.
  rewrite (set_same _ _ _ E). apply with_edges_same.
Qed.

Lemma has_removeEdge g u v x :
  has (edges (removeEdge g u v)) x = true <-> has (edges g) x = true.
Proof. rewrite !has_In. apply keys_removeEdge. Qed.

(** [removeEdge(u, v)] takes every entry [v] out of the adjacency array of
    [u] and touches no other array; it leaves the store as it is when [v]
    is not in that array, and it removes no node when every entry of an
    adjacency array is a key of [edges]. *)
Lemma removeEdge_effect (g : graph) (u v : string) :
  ~ edge (removeEdge g u v) u v /\
  (forall a, adjacent (removeEdge g u v) a
             = if String.eqb u a then filter (differs v) (adjacent g u)
               else adjacent g a) /\
  (~ edge g u v -> removeEdge g u v = g) /\
  removeEdge (removeEdge g u v) u v = removeEdge g u v /\
  (store_inv g -> forall x, In x (nodes (removeEdge g u v)) <-> In x (nodes g)).
Proof.
  assert (~ edge (removeEdge g u v) u v) as Hno.
  { unfold edge. rewrite adjacent_removeEdge, String.eqb_refl.
    rewrite In_filter_differs. tauto. }
  split; [exact Hno|]. split; [apply adjacent_removeEdge|].
  split; [apply removeEdge_absent|]. split; [now apply removeEdge_absent|].
  intros Hr x.
  rewrite (nodes_keys (removeEdge g u v)), (nodes_keys g).
  - apply has_removeEdge.
  - exact Hr.
  - now apply store_inv_removeEdge.
Qed.

(** ** Removing a node that is not in the graph *)

Lemma remove_incoming_fold_absent node u l g' :
  ~ In node l ->
  fold_left (fun g0 v => if String.eqb v node then removeEdge g0 u v else g0) l g'
  = g'.
Proof.
  revert g'. induction l as [|v l IH]; simpl; intros g' H; auto.
  destruct (String.eqb v node) eqn:E.
  - apply String.eqb_eq in E. tauto.
  - apply IH. tauto.
Qed.

Lemma remove_incoming_absent node g0 u :
  ~ edge g0 u node -> remove_incoming node g0 u = g0.
Proof. intros H. now apply remove_incoming_fold_absent. Qed.

Lemma remove_incoming_all_absent node ks g0 :
  (forall u, ~ edge g0 u node) -> fold_left (remove_incoming node) ks g0 = g0.
Proof.
  intros H. induction ks as [|k ks IH]; simpl; auto.
  rewrite remove_incoming_absent; auto.
Qed.

Lemma removeNode_absent g node : ~ In node (nodes g) -> removeNode g node = g.
Proof.
  intros H. rewrite removeNode_unfold. cbv zeta.
  rewrite remove_incoming_all_absent.
  - rewrite del_absent; [apply with_edges_same|].
    apply has_false. destruct (has (edges g) node) eqn:E; auto.
    exfalso. apply H. apply In_nodes. auto.
  - intros u Hu. apply H. eapply edge_target_node; eauto.
Qed.

(** [removeNode(node)] for a node that is not in the graph leaves the store
    as it is, and it undoes [addNode(node)] for such a node. *)
Lemma removeNode_undo (g : graph) (node : string) :
  ~ In node (nodes g) ->
  removeNode g node = g /\ removeNode (addNode g node) node = g.
Proof.
  intros H. split; [now apply removeNode_absent|].
  assert (get (edges g) node = None) as Hg.
  { apply has_false. destruct (has (edges g) node) eqn:E; auto.
    exfalso. apply H. apply In_nodes. auto. }
  rewrite removeNode_unfold. cbv zeta.
  rewrite remove_incoming_all_absent.
  - unfold addNode. rewrite with_edges_twice. simpl.
    rewrite del_set_absent by exact Hg. apply with_edges_same.
  - intros u Hu. unfold edge in Hu. rewrite adjacent_addNode in Hu.
    apply H. eapply edge_target_node; eauto.
Qed.

(** ** Adding an edge *)

Lemma nodes_addEdge g u v w x n :
  In n (nodes (addEdge g u v w x)) <-> n = u \/ n = v \/ In n (nodes g).
Proof.
  rewrite !In_nodes, has_addEdge. unfold edge. split.
  - intros [[H|[H|H]]|(a & H)]; auto.
    rewrite adjacent_addEdge in H. destruct (String.eqb u a).
    + apply in_app_iff in H. destruct H as [H|[H|[]]]; eauto 6.
    + eauto 6.
  - intros [H|[H|[H|(a & H)]]]; auto.
    right. exists a. rewrite adjacent_addEdge.
    destruct (String.eqb u a) eqn:E; auto.
    apply String.eqb_eq in E. subst a. apply in_or_app. auto.
Qed.

Lemma outdegree_length g n : outdegree g n = List.length (adjacent g n).
Proof. unfold outdegree, has, adjacent. now destruct (get (edges g) n). Qed.

(** [addEdge(u, v, weight, data)] appends [v] to the adjacency array of [u]
    and touches no other array, so an edge added twice is there twice; the
    nodes afterwards are [u], [v] and the nodes before; a weight or a
    payload that is given is what is read afterwards, and one that is left
    out leaves what was read before. *)
Lemma addEdge_effect (g : graph) (u v : string)
  (weight : option Z) (payload : option data) :
  let g' := addEdge g u v weight payload in
  (forall a, adjacent g' a
             = if String.eqb u a then adjacent g u ++ [v] else adjacent g a) /\
  (forall n, In n (nodes g') <-> n = u \/ n = v \/ In n (nodes g)) /\
  outdegree g' u = S (outdegree g u) /\
  getEdgeWeight g' u v
  = match weight with Some z => z | None => getEdgeWeight g u v end /\
  getEdgeData g' u v
  = match payload with Some y => y | None => getEdgeData g u v end.
Proof.
  intros g'. split; [apply adjacent_addEdge|]. split; [apply nodes_addEdge|].
  split; [|split].
  - rewrite !outdegree_length. unfold g'.
    rewrite adjacent_addEdge, String.eqb_refl, length_app. simpl. lia.
  - unfold g', getEdgeWeight. rewrite edgeWeights_addEdge.
    destruct weight; [now rewrite get_set_same | reflexivity].
  - unfold g', getEdgeData. rewrite edgeData_addEdge.
    destruct payload; [now rewrite get_set_same | reflexivity].
Qed.

Lemma filter_differs_app_last v (l : list string) :
  ~ In v l -> filter (differs v) (l ++ [v]) = l.
Proof.
  intros H. rewrite filter_app. simpl. unfold differs at 2.
  rewrite String.eqb_refl. simpl. rewrite app_nil_r.
  apply filter_differs_absent. now apply member_false.
Qed.

(** When [u] and [v] have adjacency arrays and [v] is not in that of [u],
    [removeEdge(u, v)] undoes [addEdge(u, v)]: the store is the one
    before. *)
Theorem addEdge_then_removeEdge (g : graph) (u v : string) :
  has (edges g) u = true -> has (edges g) v = true -> ~ edge g u v ->
  removeEdge (addEdge g u v None None) u v = g.
Proof.
  intros Hu Hv Hno. unfold addEdge.
  rewrite (addNode_existing g u Hu), (addNode_existing g v Hv).
  apply has_get in Hu. destruct Hu as (l & Hl).
  unfold removeEdge. simpl. rewrite get_set_same.
  rewrite adjacent_with_edges, get_set_same, set_set.
  rewrite (adjacent_get _ _ _ Hl).
  unfold edge in Hno. rewrite (adjacent_get _ _ _ Hl) in Hno.
  change (filter (fun _v => negb (String.eqb _v v)) (l ++ [v]))
    with (filter (differs v) (l ++ [v])).
  rewrite (filter_differs_app_last v l Hno), (set_same _ _ _ Hl).
  unfold with_edges. simpl. now destruct g.
Qed.

Lemma addEdge_then_removeEdge_witness :
  removeEdge (addEdge triangle "C" "A" None None) "C" "A" = triangle.
Proof.
  apply (addEdge_then_removeEdge triangle "C" "A"); try reflexivity.
  unfold edge. simpl. tauto.
Defined.

(** ** Degrees *)

Lemma list_sum_perm (l l' : list nat) : Permutation l l' -> list_sum l = list_sum l'.
Proof. induction 1; simpl; lia. Qed.

Lemma list_sum_zero (l : list nat) : list_sum l = 0 <-> forall x, In x l -> x = 0.
Proof.
  induction l as [|a l IH]; simpl.
  - split; [tauto | auto].
  - split.
    + intros H x [<-|Hx]; [lia|]. apply IH; [lia | exact Hx].
    + intros H. rewrite (H a (or_introl eq_refl)).
      simpl. apply IH. auto.
Qed.

Lemma indegree_zero g n : indegree g n = 0 <-> forall u, ~ edge g u n.
Proof.
  split; [|apply indegree_no_edge].
  rewrite indegree_count, list_sum_zero. intros H u Hu.
  assert (count_occ string_dec (adjacent g u) n = 0) as Hc.
  { apply H. apply in_map_iff. exists u. split; auto.
    apply keys_has. eapply adjacent_has; eauto. }
  apply (count_occ_not_In string_dec) in Hc. auto.
Qed.

Lemma indegree_keys g n :
  indegree g n
  = list_sum (map (fun k => count_occ string_dec (adjacent g k) n)
                (map fst (edges g))).
Proof.
  rewrite indegree_count. apply list_sum_perm, Permutation_map, keys_perm.
Qed.

Lemma list_sum_bump (f f' : string -> nat) (u : string) (c : nat) (l : list string) :
  (forall k, f' k = f k + (if String.eqb u k then c else 0)) ->
  NoDup l ->
  list_sum (map f' l)
  = list_sum (map f l) + (if member u l then c else 0).
Proof.
  intros Hf. induction l as [|a l IH]; intros Hn; simpl; auto.
  inversion Hn; subst. rewrite IH, Hf by auto.
  destruct (String.eqb u a) eqn:E; simpl.
  - apply String.eqb_eq in E. subst a.
    assert (member u l = false) as -> by now apply member_false.
    lia.
  - destruct (member u l); lia.
Qed.

Lemma list_sum_absent_keys g n (extra : list string) :
  (forall k, In k extra -> adjacent g k = []) ->
  list_sum (map (fun k => count_occ string_dec (adjacent g k) n) extra) = 0.
Proof.
  intros H. apply list_sum_zero. intros x Hx.
  apply in_map_iff in Hx. destruct Hx as (k & <- & Hk). now rewrite H.
Qed.

Lemma keys_addNode g n :
  map fst (edges (addNode g n))
  = if has (edges g) n then map fst (edges g) else map fst (edges g) ++ [n].
Proof. unfold addNode. simpl. apply map_fst_set. Qed.

Lemma keys_addEdge g u v w x :
  exists extra,
    map fst (edges (addEdge g u v w x)) = map fst (edges g) ++ extra /\
    forall k, In k extra -> adjacent g k = [].
Proof.
  rewrite edges_addEdge, map_fst_set.
  assert (has (edges (addNode (addNode g u) v)) u = true) as ->.
  { apply has_addNode. right. apply has_addNode. auto. }
  rewrite (keys_addNode (addNode g u) v), (keys_addNode g u).
  assert (forall k, has (edges g) k = false -> adjacent g k = []) as Habs.
  { intros k Hk. apply has_false in Hk. unfold adjacent. now rewrite Hk. }
  destruct (has (edges (addNode g u)) v) eqn:Ev;
    destruct (has (edges g) u) eqn:Eu.
  - exists []. rewrite app_nil_r. split; [reflexivity | intros k []].
  - exists [u]. split; [reflexivity|]. intros k [<-|[]]. auto.
  - exists [v]. split; [reflexivity|]. intros k [<-|[]]. apply Habs.
    rewrite (addNode_existing g u Eu) in Ev. exact Ev.
  - exists [u; v]. split; [now rewrite <- app_assoc|].
    intros k [<-|[<-|[]]]; auto. apply Habs.
    destruct (has (edges g) v) eqn:E; auto.
    assert (has (edges (addNode g u)) v = true) by (apply has_addNode; auto).
    congruence.
Qed.

(** [outdegree(node)] is the length of the adjacency array of [node], and
    [indegree(node)] is 0 exactly when no adjacency array holds [node];
    when [edges] has no key twice, [addEdge(u, v)] adds one to the indegree
    of [v] and leaves the indegree of every other node. *)
Lemma degrees_graph (g : graph) (node : string) :
  outdegree g node = List.length (adjacent g node) /\
  (indegree g node = 0 <-> forall u, ~ edge g u node) /\
  (NoDup (map fst (edges g)) ->
   forall u v w x,
     indegree (addEdge g u v w x) node
     = indegree g node + (if String.eqb v node then 1 else 0)).
Proof.
  split; [apply outdegree_length|]. split; [apply indegree_zero|].
  intros Hr u v w x.
  assert (NoDup (map fst (edges (addEdge g u v w x)))) as Hnd'.
  { rewrite edges_addEdge. simpl. now apply NoDup_set, NoDup_set, NoDup_set. }
  rewrite !indegree_keys.
  rewrite (list_sum_bump
             (fun k => count_occ string_dec (adjacent g k) node)
             (fun k => count_occ string_dec (adjacent (addEdge g u v w x) k) node)
             u (if String.eqb v node then 1 else 0)); auto.
  - assert (member u (map fst (edges (addEdge g u v w x))) = true) as ->.
    { apply member_In, has_In, has_addEdge. auto. }
    destruct (keys_addEdge g u v w x) as (extra & -> & Habs).
    rewrite map_app, list_sum_app, (list_sum_absent_keys g node extra Habs). lia.
  - intros k. rewrite adjacent_addEdge.
    destruct (String.eqb u k) eqn:E; [|lia].
    apply String.eqb_eq in E. subst k.
    rewrite count_occ_app. simpl.
    destruct (string_dec v node) as [->|Hne].
    + now rewrite String.eqb_refl.
    + apply String.eqb_neq in Hne. now rewrite Hne.
Qed.

(** ** Topological order of a whole graph *)

Lemma reach_nodes g s x : In s (nodes g) -> reach g s x -> In x (nodes g).
Proof.
  intros Hs H. apply clos_rt_rtn1 in H. destruct H as [|u v Huv _]; auto.
  eapply edge_target_node; eauto.
Qed.

(** Without source nodes, and unless [includeSourceNodes] is false,
    [topologicalSort] on a graph without a cycle returns every node of the
    graph once, and the source of every edge before its target. *)
Lemma topologicalSort_all (g : graph) (includeSourceNodes : option bool) :
  excludes includeSourceNodes = false ->
  acyclic_from g (nodes g) ->
  exists l,
    topologicalSort g None includeSourceNodes = Some l /\
    Permutation l (nodes g) /\
    forall u v, edge g u v -> precedes u v l.
Proof.
  intros Hex Hacyclic.
  destruct (dfs_run_total g None includeSourceNodes) as (st & Hrun).
  exists (rev (nodeList st)). unfold topologicalSort, depthFirstSearch.
  rewrite Hrun. simpl. split; [reflexivity|].
  destruct (dfs_run_result _ _ _ _ Hrun)
    as (Hnd & _ & Hpre & Hreach & Hedge & _ & Hsrc).
  simpl in Hreach, Hsrc, Hpre, Hedge.
  assert (forall x, In x (nodeList st) <-> In x (nodes g)) as Hin.
  { intros x. split; [|now apply Hsrc].
    intros Hx. destruct (Hreach x Hx) as (s & Hs & Hsx).
    eapply reach_nodes; eauto. }
  split.
  - rewrite <- Permutation_rev. apply NoDup_Permutation; auto using NoDup_nodes.
  - intros u v Huv.
    assert (In u (nodeList st)) as Hu.
    { apply Hin. eapply edge_source_node; eauto. }
    destruct (Hedge u v Hu Huv) as (_ & [Ho|[(Ho & _)|Ho]]).
    + now apply precedes_rev.
    + congruence.
    + exfalso. apply (Hacyclic u u); [now apply Hin | apply rt_refl |].
      eapply edge_reach_cycle; eauto.
Qed.

(** ** More on [shortestPath] *)

(** The loop of [dijkstra()] ends on every graph, whatever the weights:
    each turn takes a node out of the queue or empties it.  [dijkstra()]
    raises for an unknown node and otherwise leaves an empty queue. *)
Lemma dijkstra_ends (g : graph) (source destination : string) :
  exists r,
    dijkstra g source destination = Some r /\
    match r with
    | Normal st => q st = []
    | Throw e => unknown_node e = true
    end.
Proof.
  unfold dijkstra. rewrite initializeSingleSource_spec.
  destruct (member source (nodes g)); cbn [negb];
    [|eexists; split; reflexivity].
  destruct (member destination (nodes g)); cbn [negb];
    [|eexists; split; reflexivity].
  cbv zeta.
  match goal with
  | |- context [dijkstra_loop (List.length (keys (q ?st))) g ?st] =>
      destruct (dijkstra_loop_invariant g (fun _ => True) (fun _ _ _ => I)
                  (List.length (keys (q st))) st I)
        as (st' & -> & _ & Hq)
  end.
  - apply Nat.eq_le_incl. symmetry. apply keys_length.
  - exists (Normal st'). auto.
Qed.

(** [shortestPath] tests the source first: an unknown source raises the
    error of the source, whatever the destination, and an unknown
    destination raises its error when the source is in the graph. *)
Lemma first_error (g : graph) (source destination : string) :
  (~ In source (nodes g) ->
   shortestPath g source destination = Some (Throw SourceNotInGraph)) /\
  (In source (nodes g) -> ~ In destination (nodes g) ->
   shortestPath g source destination = Some (Throw DestinationNotInGraph)).
Proof.
  unfold shortestPath, dijkstra. rewrite initializeSingleSource_spec. split.
  - intros Hs. apply member_false in Hs. now rewrite Hs.
  - intros Hs Ht. apply member_In in Hs. apply member_false in Ht.
    now rewrite Hs, Ht.
Qed.

(** With weights that are not negative on the edges that a node of the
    graph reaches, the shortest path from the node to itself is the node
    alone, with weight 0, also when an edge leads from the node back to
    it. *)
Lemma same_node (g : graph) (node : string) :
  nonnegative_from g node -> In node (nodes g) ->
  shortestPath g node node = Some (Normal ([node], 0%Z)).
Proof.
  intros Hnn Hn.
  destruct (dijkstra_spec g node node Hnn Hn Hn) as (st & done & Hd & Hinv & _).
  unfold shortestPath. rewrite Hd. unfold path.
  destruct (inv_source _ _ _ _ _ Hinv) as (_ & Hp & _).
  rewrite path_loop_stop by now rewrite Hp.
  now rewrite String.eqb_refl.
Qed.

(** The walk over the predecessors visits no node twice. *)
Lemma path_loop_simple g s st :
  ~ In "" (nodes g) -> fin st s 0 -> get (p st) s = None ->
  forall done,
    pred_ok g s st done -> (forall x, In x done -> In x (nodes g)) ->
    forall v zv, In v done -> fin st v zv ->
    forall fuel acc w, List.length done <= fuel ->
      exists c,
        path_loop fuel g (p st) v acc w = Some (s, acc ++ c, (w + zv)%Z) /\
        NoDup (c ++ [s]) /\ incl (c ++ [s]) done.
Proof.
  intros Hne Hs0 Hps. induction done as [|v0 older IH]; intros Hok Hnodes
    v zv Hv Hzv fuel acc w Hfuel; [destruct Hv|].
  destruct Hok as (Hok & Hnin & Hsorted & Hcase).
  assert (forall x, In x older -> In x (nodes g)) as Hnodes'
    by (intros x Hx; apply Hnodes; now right).
  simpl in Hfuel.
  destruct Hv as [<-|Hv].
  - destruct Hcase as [(-> & _)|(Hvs & u & zu & Hpv & Hu & Hzu & Huv & Hzv')].
    + exists []. rewrite path_loop_stop by now rewrite Hps.
      rewrite (fin_fun _ _ _ _ Hzv Hs0), app_nil_r, Z.add_0_r.
      split; [reflexivity|]. split.
      * constructor; [tauto | constructor].
      * intros x [<-|[]]. now left.
    + destruct fuel as [|fuel]; [lia|].
      assert (truthy_pred (get (p st) v0) = Some u) as Ht.
      { rewrite Hpv. simpl. destruct (String.eqb u "") eqn:E; auto.
        apply String.eqb_eq in E. subst u. exfalso. apply Hne. auto. }
      rewrite (path_loop_next _ _ _ _ _ _ _ Ht).
      destruct (IH Hok Hnodes' u zu Hu Hzu fuel (acc ++ [v0])
                  (w + getEdgeWeight g u v0)%Z) as (c & Hc & Hnd & Hi); [lia|].
      exists (v0 :: c). rewrite Hc, (fin_fun _ _ _ _ Hzv Hzv').
      split; [f_equal; f_equal; [list_norm | lia]|]. split.
      * simpl. constructor; auto.
      * intros x [<-|Hx]; [now left | right; auto].
  - destruct (IH Hok Hnodes' v zv Hv Hzv fuel acc w) as (c & Hc & Hnd & Hi);
      [lia|].
    exists c. split; auto. split; auto. intros x Hx. right. auto.
Qed.

(** Under the conditions of [shortestPath_minimal], the path that
    [shortestPath] returns visits no node twice and stays among the nodes
    of the graph. *)
Lemma simple_path (g : graph) (source destination : string) :
  ~ In "" (nodes g) ->
  nonnegative_from g source ->
  In source (nodes g) -> In destination (nodes g) ->
  reach g source destination ->
  exists l w,
    shortestPath g source destination = Some (Normal (l, w)) /\
    NoDup l /\ incl l (nodes g) /\ List.length l <= List.length (nodes g).
Proof.
  intros Hne Hnn Hs Ht Hreach.
  destruct (dijkstra_spec g source destination Hnn Hs Ht)
    as (st & done & Hd & Hinv & Hq).
  unfold shortestPath. rewrite Hd. unfold path.
  destruct (inv_source _ _ _ _ _ Hinv) as (Hs0 & Hps & _).
  destruct (final_reach_fin g source done st Hinv Hq destination Hreach)
    as (zt & Hzt).
  destruct (path_loop_simple g source st Hne Hs0 Hps done
              (inv_pred_ok _ _ _ _ _ Hinv) (inv_done_nodes _ _ _ _ _ Hinv)
              destination zt
              (final_fin_done g source done st Hinv Hq destination zt Hzt)
              Hzt (S (List.length (nodes g))) [] 0%Z)
    as (c & Hc & Hnd & Hi).
  { pose proof (final_done_length g source done st Hinv). lia. }
  rewrite Hc. rewrite String.eqb_refl. simpl negb. cbv iota. simpl app.
  exists (rev (c ++ [source])), (0 + zt)%Z.
  assert (incl (rev (c ++ [source])) (nodes g)) as Hincl.
  { intros x Hx. apply in_rev in Hx.
    apply (inv_done_nodes _ _ _ _ _ Hinv). auto. }
  assert (NoDup (rev (c ++ [source]))) as Hnd' by now apply NoDup_rev.
  split; [reflexivity|]. split; [exact Hnd'|]. split; [exact Hincl|].
  now apply NoDup_incl_length.
Qed.

(** ** More on serialization *)

(** [serialize()] lists the nodes of the graph, and one link per entry of
    an adjacency array: the targets of the links that leave a node, in the
    order of the document, are the adjacency array of the node, and every
    link carries the weight and the payload that [getEdgeWeight] and
    [getEdgeData] return for its pair. *)
Lemma serialize_links_spec (g : graph) :
  map Serialized.id (Serialized.nodes (serialize g)) = nodes g /\
  (forall u, map Serialized.target
               (links_from u (Serialized.links (serialize g)))
             = adjacent g u) /\
  (forall l, In l (Serialized.links (serialize g)) ->
     edge g (Serialized.source l) (Serialized.target l) /\
     Serialized.weight l
     = Some (getEdgeWeight g (Serialized.source l) (Serialized.target l)) /\
     Serialized.data l
     = Some (getEdgeData g (Serialized.source l) (Serialized.target l))).
Proof.
  split; [apply serialize_nodes|]. split; [|apply In_serialized_links].
  intros u. rewrite serialize_links.
  rewrite links_from_serialized by apply NoDup_nodes.
  destruct (member u (nodes g)) eqn:E; [apply target_links_of|].
  apply member_false in E. simpl. symmetry. now apply adjacent_outside_nodes.
Qed.

Lemma nodes_deserialize g doc x :
  In x (nodes (deserialize g doc))
  <-> In x (nodes g)
      \/ In x (map Serialized.id (Serialized.nodes doc))
      \/ exists l, In l (Serialized.links doc)
                   /\ (x = Serialized.source l \/ x = Serialized.target l).
Proof.
  rewrite !In_nodes, deserialize_unfold, has_add_links, has_addNodes.
  unfold edge. split.
  - intros [[[H|H]|H]|(u & H)].
    + right. left. exact H.
    + left. left. exact H.
    + right. right. exact H.
    + rewrite adjacent_add_links, adjacent_addNodes in H.
      apply in_app_iff in H. destruct H as [H|H]; [left; right; eauto|].
      apply in_map_iff in H. destruct H as (l & <- & Hl).
      apply filter_In in Hl. destruct Hl as (Hl & _).
      right. right. exists l. auto.
  - intros [[H|(u & H)]|[H|H]].
    + left. left. right. exact H.
    + right. exists u. rewrite adjacent_add_links, adjacent_addNodes.
      apply in_or_app. auto.
    + left. left. left. exact H.
    + left. right. exact H.
Qed.

(** [deserialize(doc)] on a graph that is not empty adds to it: every
    adjacency array keeps its entries and gets, after them, the targets of
    the links of the document that leave its node, in their order; the
    nodes afterwards are the nodes before, the nodes of the document and
    the ends of its links.  So a graph that deserializes its own
    serialization has every edge twice. *)
Lemma deserialize_effect (g : graph) (doc : Serialized.t) :
  (forall u, adjacent (deserialize g doc) u
             = adjacent g u
               ++ map Serialized.target (links_from u (Serialized.links doc))) /\
  (forall x, In x (nodes (deserialize g doc))
             <-> In x (nodes g)
                 \/ In x (map Serialized.id (Serialized.nodes doc))
                 \/ exists l, In l (Serialized.links doc)
                              /\ (x = Serialized.source l
                                  \/ x = Serialized.target l)) /\
  (forall u, adjacent (deserialize g (serialize g)) u
             = adjacent g u ++ adjacent g u).
Proof.
  assert (forall d u, adjacent (deserialize g d) u
             = adjacent g u
               ++ map Serialized.target (links_from u (Serialized.links d)))
    as H.
  { intros d u. now rewrite deserialize_unfold, adjacent_add_links,
      adjacent_addNodes. }
  split; [apply H|]. split; [apply nodes_deserialize|].
  intros u. rewrite H. f_equal.
  rewrite serialize_links, links_from_serialized by apply NoDup_nodes.
  destruct (member u (nodes g)) eqn:E; [apply target_links_of|].
  apply member_false in E. simpl. symmetry. now apply adjacent_outside_nodes.
Qed.

(** ** The store under the reading functions *)

Lemma reads_ret {A : Type} (a : A) : Program.reads (Program.ret a).
Proof. intros s. reflexivity. Qed.

Lemma reads_stop {A : Type} (why : Program.abrupt) :
  Program.reads (@Program.stop A why).
Proof. intros s. reflexivity. Qed.

Lemma reads_bind {A B : Type} (m : Program.M A) (f : A -> Program.M B) :
  Program.reads m -> (forall a, Program.reads (f a)) ->
  Program.reads (Program.bind m f).
Proof.
  intros Hm Hf s. unfold Program.bind. specialize (Hm s).
  destruct (m s) as [[a|why] s']; simpl in *; subst; auto. apply Hf.
Qed.

Lemma reads_forEach {A S : Type} (f : A -> S -> Program.M S) (l : list A) :
  (forall a st, Program.reads (f a st)) ->
  forall st, Program.reads (Program.forEach l f st).
Proof.
  intros Hf. induction l as [|a l IH]; simpl; intros st.
  - apply reads_ret.
  - apply reads_bind; auto.
Qed.

Lemma reads_edges_at k : Program.reads (Program.edges_at k).
Proof. intros s. reflexivity. Qed.

Lemma reads_keys_of_edges : Program.reads Program.keys_of_edges.
Proof. intros s. reflexivity. Qed.

Lemma reads_in_edges k : Program.reads (Program.in_edges k).
Proof. intros s. reflexivity. Qed.

Lemma reads_edgeWeights_at k : Program.reads (Program.edgeWeights_at k).
Proof. intros s. reflexivity. Qed.

Lemma reads_edgeData_at k : Program.reads (Program.edgeData_at k).
Proof. intros s. reflexivity. Qed.

Create HintDb reads.

#[export] Hint Resolve reads_ret reads_stop reads_edges_at reads_keys_of_edges
  reads_in_edges reads_edgeWeights_at reads_edgeData_at : reads.

(** Splits a computation into its parts, down to the reads of the store. *)
Ltac reads_step :=
  first
    [ apply reads_bind; [|intros ?]
    | apply reads_forEach; intros ? ?
    | match goal with
      | |- Program.reads (match ?x with _ => _ end) => destruct x
      | |- Program.reads (if ?x then _ else _) => destruct x
      | |- Program.reads (let (_, _) := ?x in _) => destruct x
      end
    | solve [auto with reads] ].

Ltac reads_all := repeat reads_step.

Lemma reads_adjacent node : Program.reads (Program.adjacent node).
Proof. unfold Program.adjacent. reads_all. Qed.

Lemma reads_array_at u : Program.reads (Program.array_at u).
Proof. unfold Program.array_at. reads_all. Qed.

#[export] Hint Resolve reads_adjacent reads_array_at : reads.

Lemma reads_adjacent_array node : Program.reads (Program.adjacent_array node).
Proof. unfold Program.adjacent_array. reads_all. Qed.

Lemma reads_nodes : Program.reads Program.nodes.
Proof. unfold Program.nodes. reads_all. Qed.

Lemma reads_getEdgeWeight u v : Program.reads (Program.getEdgeWeight u v).
Proof. unfold Program.getEdgeWeight. reads_all. Qed.

Lemma reads_getEdgeData u v : Program.reads (Program.getEdgeData u v).
Proof. unfold Program.getEdgeData. reads_all. Qed.

#[export] Hint Resolve reads_adjacent_array reads_nodes reads_getEdgeWeight
  reads_getEdgeData : reads.

Lemma reads_indegree node : Program.reads (Program.indegree node).
Proof. unfold Program.indegree. reads_all. Qed.

Lemma reads_outdegree node : Program.reads (Program.outdegree node).
Proof. unfold Program.outdegree. reads_all. Qed.

Lemma reads_DFSVisit fuel :
  forall node st, Program.reads (Program.DFSVisit fuel node st).
Proof.
  induction fuel as [|fuel IH]; intros node st; simpl.
  - apply reads_stop.
  - destruct (Program.marked (visited st) node); [apply reads_ret|].
    apply reads_bind; [apply reads_adjacent_array|intros l].
    apply reads_bind; [|intros st'; apply reads_ret].
    apply reads_forEach. exact IH.
Qed.

#[export] Hint Resolve reads_DFSVisit : reads.

Lemma reads_with_fuel {A : Type} (body : nat -> Program.M A) :
  (forall fuel, Program.reads (body fuel)) ->
  Program.reads (Program.with_fuel body).
Proof. intros H s. apply H. Qed.

Lemma reads_depthFirstSearch s i :
  Program.reads (Program.depthFirstSearch s i).
Proof.
  unfold Program.depthFirstSearch.
  apply reads_bind; [destruct s; auto with reads|intros l].
  apply reads_with_fuel. intros fuel. reads_all.
Qed.

Lemma reads_topologicalSort s i :
  Program.reads (Program.topologicalSort s i).
Proof.
  unfold Program.topologicalSort.
  apply reads_bind; [apply reads_depthFirstSearch|intros l; apply reads_ret].
Qed.

Lemma reads_relax u v st : Program.reads (Program.relax u v st).
Proof. unfold Program.relax. reads_all. Qed.

#[export] Hint Resolve reads_relax : reads.

Lemma reads_dijkstra_loop fuel :
  forall st, Program.reads (Program.dijkstra_loop fuel st).
Proof.
  induction fuel as [|fuel IH]; intros st; simpl.
  - destruct (priorityQueueEmpty st); auto with reads.
  - destruct (priorityQueueEmpty st); [apply reads_ret|].
    destruct (Program.extractMin st) as [u st1].
    apply reads_bind; [apply reads_adjacent_array|intros l].
    apply reads_bind; [|exact IH].
    apply reads_forEach. intros v s. apply reads_relax.
Qed.

Lemma reads_dijkstra s t : Program.reads (Program.dijkstra s t).
Proof.
  unfold Program.dijkstra, Program.initializeSingleSource,
    Program.initializePriorityQueue.
  apply reads_bind; [reads_all|intros st1].
  apply reads_bind; [reads_all|intros st2].
  apply reads_dijkstra_loop.
Qed.

Lemma reads_path_loop fuel :
  forall pt node l w, Program.reads (Program.path_loop fuel pt node l w).
Proof.
  induction fuel as [|fuel IH]; intros pt node l w; simpl.
  - destruct (ObjectPrototype.read pt node) as [[u|]| |]; auto with reads.
    destruct (String.eqb u ""); auto with reads.
  - destruct (ObjectPrototype.read pt node) as [[u|]| |]; auto with reads.
    destruct (String.eqb u ""); auto with reads.
    apply reads_bind; [apply reads_getEdgeWeight|intros w']. apply IH.
Qed.

Lemma reads_shortestPath s t : Program.reads (Program.shortestPath s t).
Proof.
  unfold Program.shortestPath, Program.path.
  apply reads_bind; [apply reads_dijkstra|intros st].
  apply reads_bind; [apply reads_path_loop|intros [[node l] w]].
  destruct (negb (String.eqb node s)); auto with reads.
Qed.

Lemma reads_serialize : Program.reads Program.serialize.
Proof. unfold Program.serialize. reads_all. Qed.

Lemma reads_returning {A : Type} (v : A -> Program.value) (m : Program.M A) :
  Program.reads m -> Program.reads (Program.returning v m).
Proof.
  intros H. unfold Program.returning.
  apply reads_bind; [exact H|intros a; apply reads_ret].
Qed.

(** C10.  A call of [nodes], [adjacent], [indegree], [outdegree],
    [depthFirstSearch], [topologicalSort], [serialize] or [shortestPath]
    leaves the three tables of the store as they were, whatever it returns
    or raises, the [TypeError] of the engine included: none of the reads and
    loops that make up their bodies writes to the store. *)
Theorem read_only_preserves_store (c : call) (s : Program.store) :
  read_only c = true ->
  snd (Program.run c s) = s /\
  Program.edges (snd (Program.run c s)) = Program.edges s /\
  Program.edgeWeights (snd (Program.run c s)) = Program.edgeWeights s /\
  Program.edgeData (snd (Program.run c s)) = Program.edgeData s.
Proof.
  intros H. assert (Program.reads (Program.run c)) as R.
  { destruct c; try discriminate; simpl; apply reads_returning.
    - apply reads_nodes.
    - apply reads_adjacent.
    - apply reads_indegree.
    - apply reads_outdegree.
    - apply reads_depthFirstSearch.
    - apply reads_topologicalSort.
    - apply reads_shortestPath.
    - apply reads_serialize. }
  rewrite (R s). auto.
Qed.

(** ** The two embeddings on plain identifiers *)

Lemma get_pair {V : Type} (o : obj V) k v : get o k = Some v -> In (k, v) o.
Proof.
  induction o as [|[k' v'] r IH]; simpl; [discriminate|].
  destruct (String.eqb k' k) eqn:E.
  - apply String.eqb_eq in E. intros H. inversion H; subst. now left.
  - auto.
Qed.

Lemma plain_inherited k : plain k = true -> ObjectPrototype.inherited k = false.
Proof. unfold plain. now destruct (ObjectPrototype.inherited k). Qed.

Lemma plain_not_proto k : plain k = true -> String.eqb k "__proto__" = false.
Proof.
  intros H. destruct (String.eqb k "__proto__") eqn:E; auto.
  apply String.eqb_eq in E. subst k. discriminate.
Qed.

Lemma read_plain {V : Type} (o : obj V) k :
  plain k = true ->
  ObjectPrototype.read o k
  = match get o k with
    | Some v => ObjectPrototype.Own v
    | None => ObjectPrototype.Undefined
    end.
Proof.
  intros H. unfold ObjectPrototype.read. rewrite (plain_inherited k H).
  now destruct (get o k).
Qed.

Lemma assign_plain {V : Type} (o : obj V) k v :
  plain k = true -> Program.assign o k v = set o k v.
Proof. intros H. unfold Program.assign. now rewrite plain_not_proto. Qed.

Lemma marked_plain (o : obj bool) k :
  plain k = true -> Program.marked o k = truthy (get o k).
Proof.
  intros H. unfold Program.marked. rewrite read_plain; auto.
  now destruct (get o k).
Qed.

Lemma number_plain (o : obj num) k :
  plain k = true -> Program.number o k = to_num (get o k).
Proof.
  intros H. unfold Program.number. rewrite read_plain; auto.
  now destruct (get o k).
Qed.

Lemma number_own (o : obj num) k :
  has o k = true -> Program.number o k = to_num (get o k).
Proof.
  unfold has, Program.number, ObjectPrototype.read.
  destruct (get o k); [reflexivity|discriminate].
Qed.

Lemma not_infinity_get (o : obj num) k :
  Program.not_infinity o k = negb (is_infinity (get o k)).
Proof.
  unfold Program.not_infinity, ObjectPrototype.read.
  destruct (get o k) as [[]|]; simpl; auto.
  now destruct (ObjectPrototype.inherited k).
Qed.

Lemma assign_all_plain {V : Type} (c : V) (l : list string) (o : obj V) :
  all_plain l = true ->
  fold_left (fun o' node => Program.assign o' node c) l o
  = fold_left (fun o' node => set o' node c) l o.
Proof.
  revert o. induction l as [|a l IH]; simpl; intros o H; auto.
  apply andb_prop in H. destruct H as [Ha Hl].
  rewrite assign_plain; auto.
Qed.

(** The store that stands for a graph. *)

Lemma get_arrays (o : obj (list string)) k :
  get (map (fun kv => (fst kv, Program.Arr (snd kv))) o) k
  = option_map Program.Arr (get o k).
Proof.
  induction o as [|[k' l] r IH]; simpl; auto.
  now destruct (String.eqb k' k).
Qed.

Lemma set_arrays (o : obj (list string)) k l :
  map (fun kv => (fst kv, Program.Arr (snd kv))) (set o k l)
  = set (map (fun kv => (fst kv, Program.Arr (snd kv))) o) k (Program.Arr l).
Proof.
  induction o as [|[k' l'] r IH]; simpl; auto.
  destruct (String.eqb k' k); simpl; congruence.
Qed.

Lemma del_arrays (o : obj (list string)) k :
  map (fun kv => (fst kv, Program.Arr (snd kv))) (del o k)
  = del (map (fun kv => (fst kv, Program.Arr (snd kv))) o) k.
Proof.
  induction o as [|[k' l'] r IH]; simpl; auto.
  destruct (String.eqb k' k); simpl; congruence.
Qed.

Lemma keys_embed g : keys (Program.edges (embed g)) = keys (edges g).
Proof.
  unfold keys, embed. simpl. rewrite map_map. simpl. reflexivity.
Qed.

Lemma has_embed g k : has (Program.edges (embed g)) k = has (edges g) k.
Proof.
  unfold has, embed. simpl. rewrite get_arrays. now destruct (get (edges g) k).
Qed.

Lemma plain_store_key g k l :
  plain_store g = true -> get (edges g) k = Some l ->
  plain k = true /\ all_plain l = true.
Proof.
  intros H E. apply get_pair in E. unfold plain_store in H.
  rewrite forallb_forall in H. specialize (H _ E). simpl in H.
  now apply andb_prop in H.
Qed.

Lemma plain_store_keys g k :
  plain_store g = true -> In k (keys (edges g)) -> plain k = true.
Proof.
  intros H Hk. apply keys_has in Hk. unfold has in Hk.
  destruct (get (edges g) k) as [l|] eqn:E; [|discriminate].
  eapply plain_store_key; eauto.
Qed.

Lemma plain_store_adjacent g k :
  plain_store g = true -> all_plain (adjacent g k) = true.
Proof.
  intros H. unfold adjacent. destruct (get (edges g) k) as [l|] eqn:E; auto.
  eapply plain_store_key; eauto.
Qed.

Lemma all_plain_In l x : all_plain l = true -> In x l -> plain x = true.
Proof. unfold all_plain. rewrite forallb_forall. auto. Qed.

(** Every node of a plain store is plain. *)
Lemma plain_store_nodes g x :
  plain_store g = true -> In x (nodes g) -> plain x = true.
Proof.
  intros H Hx. apply In_nodes in Hx. destruct Hx as [Hx|(u & Hx)].
  - apply (plain_store_keys g); auto. now apply keys_has.
  - eapply all_plain_In; [|exact Hx]. now apply plain_store_adjacent.
Qed.

Lemma all_plain_nodes g : plain_store g = true -> all_plain (nodes g) = true.
Proof.
  intros H. apply forallb_forall. intros x Hx. eapply plain_store_nodes; eauto.
Qed.

(** *** Loops *)

Lemma forEach_fold {A S : Type} (f : A -> S -> Program.M S) (h : S -> A -> S)
  (l : list A) (s : Program.store) :
  (forall a st, In a l -> f a st s = (Program.Ok (h st a), s)) ->
  forall st, Program.forEach l f st s = (Program.Ok (fold_left h l st), s).
Proof.
  induction l as [|a l IH]; simpl; intros Hf st; auto.
  unfold Program.bind. rewrite Hf by now left. apply IH. auto.
Qed.

Lemma forEach_forEachM {A S : Type} (f : A -> S -> Program.M S)
  (h : A -> S -> option S) (l : list A) (s : Program.store) :
  (forall a st, In a l -> f a st s = (fuelled (h a st), s)) ->
  forall st, Program.forEach l f st s = (fuelled (forEachM h l st), s).
Proof.
  induction l as [|a l IH]; simpl; intros Hf st; auto.
  unfold Program.bind. rewrite Hf by now left.
  destruct (h a st) as [st'|]; simpl; auto.
Qed.

(** *** Reads of [edges] *)

Lemma edges_at_embed g k :
  plain k = true \/ has (edges g) k = true ->
  Program.edges_at k (embed g)
  = (Program.Ok (option_map Program.Arr (get (edges g) k)), embed g).
Proof.
  intros H. unfold Program.edges_at, ObjectPrototype.read.
  simpl. rewrite get_arrays.
  destruct (get (edges g) k) as [l|] eqn:E; simpl; auto.
  destruct H as [H|H].
  - now rewrite plain_inherited.
  - unfold has in H. rewrite E in H. discriminate.
Qed.

Lemma adjacent_embed g k :
  plain k = true \/ has (edges g) k = true ->
  Program.adjacent k (embed g) = (Program.Ok (Program.Arr (adjacent g k)), embed g).
Proof.
  intros H. unfold Program.adjacent, Program.bind.
  rewrite edges_at_embed by auto. unfold adjacent.
  now destruct (get (edges g) k).
Qed.

Lemma adjacent_array_embed g k :
  plain k = true \/ has (edges g) k = true ->
  Program.adjacent_array k (embed g) = (Program.Ok (adjacent g k), embed g).
Proof.
  intros H. unfold Program.adjacent_array, Program.bind.
  now rewrite adjacent_embed.
Qed.

Lemma array_at_embed g u :
  has (edges g) u = true ->
  Program.array_at u (embed g) = (Program.Ok (adjacent g u), embed g).
Proof.
  intros H. unfold Program.array_at, Program.bind.
  rewrite edges_at_embed by auto. unfold has, adjacent in *.
  now destruct (get (edges g) u).
Qed.

Lemma set_edges_embed g k l :
  plain k = true ->
  Program.set_edges k (Program.Arr l) (embed g)
  = (Program.Ok tt, embed (with_edges g (set (edges g) k l))).
Proof.
  intros H. unfold Program.set_edges. rewrite plain_not_proto by auto.
  unfold embed. simpl. now rewrite set_arrays.
Qed.

(** *** The functions of the handle *)

Lemma nodes_embed g :
  plain_store g = true ->
  Program.nodes (embed g) = (Program.Ok (nodes g), embed g).
Proof.
  intros H. unfold Program.nodes, Program.bind at 1.
  unfold Program.keys_of_edges. rewrite keys_embed.
  unfold Program.bind.
  rewrite forEach_fold with
    (h := fun ns u => fold_left (fun ns' v => set ns' v true) (adjacent g u)
                        (set ns u true)).
  - reflexivity.
  - intros u ns Hu. unfold Program.bind.
    rewrite array_at_embed by now apply keys_has.
    unfold Program.ret. f_equal. f_equal.
    rewrite assign_all_plain by now apply plain_store_adjacent.
    rewrite assign_plain; auto. eapply plain_store_keys; eauto.
Qed.

Lemma getEdgeWeight_embed g u v :
  Program.getEdgeWeight u v (embed g) = (Program.Ok (getEdgeWeight g u v), embed g).
Proof. reflexivity. Qed.

Lemma getEdgeData_embed g u v :
  Program.getEdgeData u v (embed g) = (Program.Ok (getEdgeData g u v), embed g).
Proof. reflexivity. Qed.

Lemma indegree_embed g node :
  Program.indegree node (embed g) = (Program.Ok (indegree g node), embed g).
Proof.
  unfold Program.indegree, Program.bind at 1, Program.keys_of_edges.
  rewrite keys_embed. apply forEach_fold.
  intros u n Hu. unfold Program.bind.
  rewrite array_at_embed by now apply keys_has. reflexivity.
Qed.

Lemma outdegree_embed g node :
  plain node = true ->
  Program.outdegree node (embed g) = (Program.Ok (Some (outdegree g node)), embed g).
Proof.
  intros H. unfold Program.outdegree, Program.bind at 1, Program.in_edges.
  rewrite has_embed, (plain_inherited node H), orb_false_r.
  unfold outdegree. destruct (has (edges g) node) eqn:E; auto.
  unfold Program.bind. rewrite edges_at_embed by auto.
  unfold has, adjacent in *. now destruct (get (edges g) node).
Qed.

Lemma addNode_embed g node :
  plain node = true ->
  Program.addNode node (embed g) = (Program.Ok tt, embed (addNode g node)).
Proof.
  intros H. unfold Program.addNode, Program.bind.
  rewrite adjacent_embed by auto. now rewrite set_edges_embed.
Qed.

Lemma removeEdge_embed g u v :
  plain u = true ->
  Program.removeEdge u v (embed g) = (Program.Ok tt, embed (removeEdge g u v)).
Proof.
  intros H. unfold Program.removeEdge, Program.bind at 1.
  rewrite edges_at_embed by auto. unfold removeEdge.
  destruct (get (edges g) u) as [l|] eqn:E; simpl; auto.
  unfold Program.bind. rewrite adjacent_embed by auto.
  now rewrite set_edges_embed.
Qed.

Lemma setEdgeWeight_embed g u v w :
  Program.setEdgeWeight u v w (embed g) = (Program.Ok tt, embed (setEdgeWeight g u v w)).
Proof. reflexivity. Qed.

Lemma setEdgeData_embed g u v x :
  Program.setEdgeData u v x (embed g) = (Program.Ok tt, embed (setEdgeData g u v x)).
Proof. reflexivity. Qed.

Lemma addEdge_embed g u v w x :
  plain u = true -> plain v = true ->
  Program.addEdge u v w x (embed g) = (Program.Ok tt, embed (addEdge g u v w x)).
Proof.
  intros Hu Hv. unfold Program.addEdge, Program.bind at 1.
  rewrite addNode_embed by auto. unfold Program.bind at 1.
  rewrite addNode_embed by auto. unfold Program.bind at 1.
  rewrite adjacent_embed by auto. unfold Program.bind at 1.
  rewrite set_edges_embed by auto. unfold addEdge.
  destruct w as [w|]; destruct x as [x|]; reflexivity.
Qed.


Lemma bind_ok {A B : Type} (m : Program.M A) (f : A -> Program.M B) s a s' :
  m s = (Program.Ok a, s') -> Program.bind m f s = f a s'.
Proof. intros H. unfold Program.bind. now rewrite H. Qed.

Lemma bind_stop {A B : Type} (m : Program.M A) (f : A -> Program.M B) s why s' :
  m s = (Program.Stop why, s') -> Program.bind m f s = (Program.Stop why, s').
Proof. intros H. unfold Program.bind. now rewrite H. Qed.

(** A loop of calls that change the store. *)
Lemma forEach_store {A : Type} (f : A -> unit -> Program.M unit)
  (h : graph -> A -> graph) (P : graph -> Prop) (l : list A) :
  (forall a g0, In a l -> P g0 ->
     f a tt (embed g0) = (Program.Ok tt, embed (h g0 a)) /\ P (h g0 a)) ->
  forall g0, P g0 ->
    Program.forEach l f tt (embed g0) = (Program.Ok tt, embed (fold_left h l g0))
    /\ P (fold_left h l g0).
Proof.
  induction l as [|a l IH]; simpl; intros Hf g0 HP; auto.
  destruct (Hf a g0 (or_introl eq_refl) HP) as (E & HP').
  erewrite bind_ok by exact E. apply IH; auto.
Qed.

Lemma removeNode_embed g node :
  plain_store g = true ->
  Program.removeNode node (embed g) = (Program.Ok tt, embed (removeNode g node)).
Proof.
  intros H. unfold Program.removeNode.
  erewrite bind_ok by reflexivity. rewrite keys_embed.
  destruct (forEach_store
    (fun u (_ : unit) =>
       Program.bind (Program.array_at u)
         (fun l =>
            Program.forEach l
              (fun v (_ : unit) =>
                 if String.eqb v node then Program.removeEdge u v
                 else Program.ret tt) tt))
    (fun g0 u =>
       fold_left (fun g' v => if String.eqb v node then removeEdge g' u v else g')
         (adjacent g0 u) g0)
    (fun g0 => forall k, has (edges g0) k = true <-> has (edges g) k = true)
    (keys (edges g))) with (g0 := g) as (E & _).
  - intros u g0 Hu HP. 
    assert (plain u = true) as Pu by (eapply plain_store_keys; eauto).
    assert (has (edges g0) u = true) as Hk by (apply HP; now apply keys_has).
    erewrite bind_ok by (now apply array_at_embed).
    apply (forEach_store
             (fun v (_ : unit) =>
                if String.eqb v node then Program.removeEdge u v
                else Program.ret tt)
             (fun g' v => if String.eqb v node then removeEdge g' u v else g')
             (fun g' => forall k, has (edges g') k = true <-> has (edges g) k = true)).
    + intros v g' _ HP'. destruct (String.eqb v node).
      * split; [now apply removeEdge_embed|].
        intros k. rewrite has_removeEdge. apply HP'.
      * split; [reflexivity|exact HP'].
    + exact HP.
  - tauto.
  - erewrite bind_ok by exact E. unfold Program.delete_edges, removeNode.
    unfold embed. simpl. now rewrite del_arrays.
Qed.

(** *** Traversals *)

Lemma mark_plain node st : plain node = true -> Program.mark node st = mark node st.
Proof. intros H. unfold Program.mark, mark. now rewrite assign_plain. Qed.

Lemma marks_plain l st :
  all_plain l = true ->
  fold_left (fun st1 node => Program.mark node st1) l st
  = fold_left (fun st1 node => mark node st1) l st.
Proof.
  revert st. induction l as [|a l IH]; simpl; intros st H; auto.
  apply andb_prop in H. destruct H as [Ha Hl]. rewrite mark_plain; auto.
Qed.

Lemma DFSVisit_embed g :
  plain_store g = true ->
  forall fuel node st, plain node = true ->
    Program.DFSVisit fuel node st (embed g)
    = (fuelled (DFSVisit fuel g node st), embed g).
Proof.
  intros H. induction fuel as [|fuel IH]; intros node st Hn; simpl; auto.
  rewrite marked_plain by auto.
  destruct (truthy (get (visited st) node)); auto.
  erewrite bind_ok by (apply adjacent_array_embed; auto).
  rewrite mark_plain by auto. unfold Program.bind.
  rewrite (forEach_forEachM _ (DFSVisit fuel g)).
  - destruct (forEachM (DFSVisit fuel g) (adjacent g node) (mark node st));
      reflexivity.
  - intros a st' Ha. apply IH. eapply all_plain_In; [|exact Ha].
    now apply plain_store_adjacent.
Qed.

Lemma forEachM_ext {A S : Type} (f h : A -> S -> option S) (l : list A) :
  (forall a st, In a l -> f a st = h a st) ->
  forall st, forEachM f l st = forEachM h l st.
Proof.
  induction l as [|a l IH]; simpl; intros Hf st; auto.
  rewrite Hf by now left. destruct (h a st); auto.
Qed.

(** More fuel than needed changes nothing. *)
Lemma DFSVisit_fuel g fuel n st :
  S (List.length (nodes g)) <= fuel ->
  DFSVisit fuel g n st = DFSVisit (S (List.length (nodes g))) g n st.
Proof.
  intros Hle.
  assert (forall f n st st', DFSVisit f g n st = Some st' ->
            forall f', f <= f' -> DFSVisit f' g n st = Some st') as Hmono.
  { induction f as [|f IH]; intros n0 st0 st' E f' Hf; [discriminate|].
    destruct f' as [|f']; [lia|]. simpl in *.
    destruct (truthy (get (visited st0) n0)); auto.
    destruct (forEachM (DFSVisit f g) (adjacent g n0) (mark n0 st0)) as [sc|] eqn:Ec;
      [|discriminate].
    assert (forEachM (DFSVisit f' g) (adjacent g n0) (mark n0 st0) = Some sc) as ->; auto.
    revert Ec. generalize (mark n0 st0). generalize (adjacent g n0).
    induction l as [|a l IHl]; simpl; intros s0 Ec; auto.
    destruct (DFSVisit f g a s0) as [s1|] eqn:E1; [|discriminate].
    rewrite (IH _ _ _ E1 f') by lia. auto. }
  destruct (DFSVisit_enough g n st) as (st' & E). rewrite E.
  eapply Hmono; eauto.
Qed.

Lemma nodes_identifiers g :
  List.length (nodes g) <= List.length (Program.identifiers (embed g)).
Proof.
  apply NoDup_incl_length; [apply NoDup_nodes|].
  intros x Hx. unfold Program.identifiers, embed. simpl.
  apply in_flat_map. apply In_nodes in Hx. destruct Hx as [Hx|(u & Hx)].
  - unfold has in Hx. destruct (get (edges g) x) as [l|] eqn:E; [|discriminate].
    exists (x, Program.Arr l). split; [|now left].
    apply in_map_iff. exists (x, l). split; auto. now apply get_pair.
  - unfold edge, adjacent in Hx.
    destruct (get (edges g) u) as [l|] eqn:E; [|destruct Hx].
    exists (u, Program.Arr l). split; [|now right].
    apply in_map_iff. exists (u, l). split; auto. now apply get_pair.
Qed.

Lemma depthFirstSearch_embed g sourceNodes includeSourceNodes :
  plain_store g = true -> plain_sources sourceNodes = true ->
  Program.depthFirstSearch sourceNodes includeSourceNodes (embed g)
  = (fuelled (depthFirstSearch g sourceNodes includeSourceNodes), embed g).
Proof.
  intros H Hs. unfold Program.depthFirstSearch.
  assert (all_plain (chosen_sources g sourceNodes) = true) as Hc.
  { destruct sourceNodes; simpl in *; auto. now apply all_plain_nodes. }
  erewrite bind_ok with (a := chosen_sources g sourceNodes)
    by (destruct sourceNodes; [reflexivity|now apply nodes_embed]).
  unfold Program.with_fuel.
  set (fuel := S (List.length (Program.identifiers (embed g)))).
  assert (S (List.length (nodes g)) <= fuel) as Hf.
  { pose proof (nodes_identifiers g). unfold fuel. lia. }
  unfold depthFirstSearch, dfs_run. fold (chosen_sources g sourceNodes).
  destruct (match includeSourceNodes with Some b => b | None => true end).
  - unfold Program.bind. rewrite (forEach_forEachM _ (DFSVisit fuel g)).
    + rewrite (forEachM_ext (DFSVisit fuel g)
                 (DFSVisit (S (List.length (nodes g))) g))
        by (intros; now apply DFSVisit_fuel).
      destruct (forEachM _ _ _); reflexivity.
    + intros a st Ha. apply DFSVisit_embed; auto. eapply all_plain_In; eauto.
  - rewrite marks_plain by auto. unfold Program.bind at 1.
    rewrite (forEach_forEachM _
               (fun node => forEachM (DFSVisit fuel g) (adjacent g node))).
    + rewrite (forEachM_ext
                 (fun node => forEachM (DFSVisit fuel g) (adjacent g node))
                 (fun node =>
                    forEachM (DFSVisit (S (List.length (nodes g))) g)
                      (adjacent g node))).
      * destruct (forEachM _ _ _); reflexivity.
      * intros a st _. apply forEachM_ext. intros; now apply DFSVisit_fuel.
    + intros a st Ha.
      erewrite bind_ok
        by (apply adjacent_array_embed; left; eapply all_plain_In; eauto).
      apply forEach_forEachM. intros b st' Hb. apply DFSVisit_embed; auto.
      eapply all_plain_In; [|exact Hb]. now apply plain_store_adjacent.
Qed.

Lemma topologicalSort_embed g sourceNodes includeSourceNodes :
  plain_store g = true -> plain_sources sourceNodes = true ->
  Program.topologicalSort sourceNodes includeSourceNodes (embed g)
  = (fuelled (topologicalSort g sourceNodes includeSourceNodes), embed g).
Proof.
  intros H Hs. unfold Program.topologicalSort, Program.bind.
  rewrite depthFirstSearch_embed by auto. unfold topologicalSort.
  destruct (depthFirstSearch g sourceNodes includeSourceNodes); reflexivity.
Qed.


(** *** Shortest path *)

Lemma fold_left_ext_in {A B : Type} (f h : B -> A -> B) (l : list A) :
  (forall b a, In a l -> f b a = h b a) ->
  forall b, fold_left f l b = fold_left h l b.
Proof.
  induction l as [|a l IH]; simpl; intros Hf b; auto.
  rewrite Hf by now left. apply IH. auto.
Qed.

Lemma scan_min_plain dt ks :
  all_plain ks = true -> Program.scan_min dt ks = scan_min dt ks.
Proof.
  intros H. unfold Program.scan_min, scan_min. apply fold_left_ext_in.
  intros [min minNode] node Hn.
  rewrite number_plain by (eapply all_plain_In; eauto). reflexivity.
Qed.

Lemma extractMin_plain st :
  all_plain (keys (q st)) = true -> Program.extractMin st = extractMin st.
Proof.
  intros H. unfold Program.extractMin, extractMin. now rewrite scan_min_plain.
Qed.

Lemma plain_null : plain (key_of None) = true.
Proof. reflexivity. Qed.

Lemma relax_embed g st u v :
  plain (key_of u) = true -> plain v = true ->
  Program.relax u v st (embed g) = (Program.Ok (relax g st u v), embed g).
Proof.
  intros Hu Hv. unfold Program.relax. erewrite bind_ok by reflexivity.
  rewrite (read_own (d st) (key_of u)) by now apply plain_inherited.
  rewrite !number_plain by auto. unfold relax.
  destruct (get (d st) (key_of u)) as [du|];
    (destruct (num_gt _ _); [|reflexivity]);
    rewrite !assign_plain by auto; reflexivity.
Qed.

(** What [extractMin] returns is a key of [q], or [null], and it leaves no
    new key in [q]. *)
Lemma extractMin_keys st u st1 :
  extractMin st = (u, st1) ->
  (forall m, u = Some m -> In m (keys (q st))) /\
  (forall x, In x (map fst (q st1)) -> In x (map fst (q st))) /\
  d st1 = d st /\ p st1 = p st.
Proof.
  unfold extractMin. pose proof (scan_min_spec (d st) (keys (q st))) as Hs.
  destruct (snd (scan_min (d st) (keys (q st)))) as [m|];
    intros E; inversion E; subst; simpl.
  - split; [intros m' Em; inversion Em; subst; tauto|].
    split; auto. intros x. apply In_del.
  - split; [discriminate|]. split; auto. intros x [].
Qed.

(** What the tables keep along the loop of [dijkstra] on a plain store:
    the keys of [q] and the predecessors are plain, and [d] gets no new
    key. *)
Lemma relax_tables g st u v n :
  (forall m, u = Some m -> plain m = true) ->
  (forall x y, get (p st) x = Some (Some y) -> plain y = true) ->
  List.length (d st) = n ->
  (forall x y, get (p (relax g st u v)) x = Some (Some y) -> plain y = true) /\
  List.length (d (relax g st u v)) = n.
Proof.
  intros Hu Hp Hd. unfold relax.
  destruct (num_gt (to_num (get (d st) v)) _) eqn:E; [|auto].
  simpl. split.
  - intros x y. rewrite get_set.
    destruct (String.eqb v x); [|apply Hp].
    intros Ey. inversion Ey; subst. now apply Hu.
  - rewrite <- Hd. rewrite <- !(length_map fst). rewrite map_fst_set.
    destruct (has (d st) v) eqn:Eh; auto.
    unfold has in Eh. destruct (get (d st) v); [discriminate|].
    simpl in E. unfold num_gt, num_lt in E.
    destruct (num_add _ _); discriminate.
Qed.

Lemma relax_all_tables g u l n :
  (forall m, u = Some m -> plain m = true) ->
  forall st,
    (forall x y, get (p st) x = Some (Some y) -> plain y = true) ->
    List.length (d st) = n ->
    let st' := fold_left (fun s v => relax g s u v) l st in
    (forall x y, get (p st') x = Some (Some y) -> plain y = true) /\
    List.length (d st') = n.
Proof.
  intros Hu. induction l as [|a l IH]; simpl; intros st Hp Hd; auto.
  destruct (relax_tables g st u a n Hu Hp Hd) as (Hp' & Hd').
  now apply IH.
Qed.

Lemma dijkstra_step_tables g st n :
  (forall x, In x (map fst (q st)) -> plain x = true) ->
  (forall x y, get (p st) x = Some (Some y) -> plain y = true) ->
  List.length (d st) = n ->
  let st' := dijkstra_step g st in
  (forall x, In x (map fst (q st')) -> plain x = true) /\
  (forall x y, get (p st') x = Some (Some y) -> plain y = true) /\
  List.length (d st') = n.
Proof.
  intros Hq Hp Hd. unfold dijkstra_step.
  destruct (extractMin st) as [u st1] eqn:E.
  destruct (extractMin_keys _ _ _ E) as (Hu & Hq1 & Ed & Ep).
  assert (forall m, u = Some m -> plain m = true) as Hu'.
  { intros m Em. apply Hq. apply In_keys. auto. }
  destruct (relax_all_tables g u (adjacent g (key_of u)) n Hu' st1) as (Hp' & Hd').
  - now rewrite Ep.
  - now rewrite Ed.
  - split; [|split; auto]. rewrite q_relax_all. auto.
Qed.

Lemma all_plain_keys {V : Type} (o : obj V) :
  (forall x, In x (map fst o) -> plain x = true) -> all_plain (keys o) = true.
Proof.
  intros H. apply forallb_forall. intros x Hx. apply H. now apply In_keys.
Qed.

Lemma dijkstra_loop_embed g :
  plain_store g = true ->
  forall fuel st,
    (forall x, In x (map fst (q st)) -> plain x = true) ->
    Program.dijkstra_loop fuel st (embed g)
    = (fuelled (dijkstra_loop fuel g st), embed g).
Proof.
  intros H.
  assert (forall st,
            (forall x, In x (map fst (q st)) -> plain x = true) ->
            forall k : sp_state -> Program.M sp_state,
              (let (u, st1) := Program.extractMin st in
               Program.bind (Program.adjacent_array (key_of u))
                 (fun l =>
                    Program.bind (Program.forEach l (Program.relax u) st1) k))
                (embed g)
              = k (dijkstra_step g st) (embed g)
              /\ (forall x, In x (map fst (q (dijkstra_step g st))) ->
                    plain x = true)) as Hstep.
  { intros st Hq k. rewrite extractMin_plain by now apply all_plain_keys.
    unfold dijkstra_step. destruct (extractMin st) as [u st1] eqn:E.
    destruct (extractMin_keys _ _ _ E) as (Hu & Hq1 & _).
    assert (plain (key_of u) = true) as Pu.
    { destruct u as [m|]; [|reflexivity]. apply Hq, In_keys. auto. }
    erewrite bind_ok by (apply adjacent_array_embed; auto).
    erewrite bind_ok.
    2:{ apply (forEach_fold _ (fun s v => relax g s u v)).
        intros v s Hv. apply relax_embed; auto.
        eapply all_plain_In; [|exact Hv]. now apply plain_store_adjacent. }
    split; auto. rewrite q_relax_all. auto. }
  induction fuel as [|fuel IH]; intros st Hq; simpl.
  - destruct (priorityQueueEmpty st); reflexivity.
  - destruct (priorityQueueEmpty st); [reflexivity|].
    destruct (Hstep st Hq (Program.dijkstra_loop fuel)) as (E & Hq').
    transitivity (Program.dijkstra_loop fuel (dijkstra_step g st) (embed g));
      [exact E | now apply IH].
Qed.

Lemma initial_keys g :
  List.length (fold_left (fun d0 node => set d0 node Infinity) (nodes g)
                 (@empty num))
  = List.length (nodes g).
Proof.
  rewrite <- (length_map fst). apply Permutation_length.
  apply NoDup_Permutation.
  - apply NoDup_set_all. constructor.
  - apply NoDup_nodes.
  - intros x. rewrite map_fst_set_all. simpl. tauto.
Qed.

Lemma initializeSingleSource_embed g s t :
  plain_store g = true ->
  Program.initializeSingleSource s t (mkSp empty empty empty) (embed g)
  = (thrown (initializeSingleSource g s t (mkSp empty empty empty)), embed g).
Proof.
  intros H. unfold Program.initializeSingleSource.
  erewrite bind_ok by now apply nodes_embed.
  rewrite !assign_all_plain by now apply all_plain_nodes.
  rewrite !not_infinity_get. unfold initializeSingleSource.
  simpl d. rewrite !initial_distance.
  destruct (member s (nodes g)) eqn:Es; simpl; [|reflexivity].
  destruct (member t (nodes g)) eqn:Et; simpl; [|reflexivity].
  apply member_In in Es.
  rewrite assign_plain by (eapply plain_store_nodes; eauto). reflexivity.
Qed.

Lemma initializePriorityQueue_embed g st :
  plain_store g = true ->
  Program.initializePriorityQueue st (embed g)
  = (Program.Ok (initializePriorityQueue g st), embed g).
Proof.
  intros H. unfold Program.initializePriorityQueue.
  erewrite bind_ok by now apply nodes_embed.
  rewrite assign_all_plain by now apply all_plain_nodes. reflexivity.
Qed.

Lemma dijkstra_embed g s t :
  plain_store g = true ->
  Program.dijkstra s t (embed g) = (completed (dijkstra g s t), embed g)
  /\ forall st, dijkstra g s t = Some (Normal st) ->
       (forall x y, get (p st) x = Some (Some y) -> plain y = true) /\
       List.length (d st) = List.length (nodes g) /\
       In t (nodes g).
Proof.
  intros H. unfold Program.dijkstra, dijkstra.
  unfold Program.bind at 1. rewrite initializeSingleSource_embed by auto.
  rewrite initializeSingleSource_spec.
  destruct (member s (nodes g)) eqn:Es; simpl;
    [|split; [reflexivity|discriminate]].
  destruct (member t (nodes g)) eqn:Et; simpl;
    [|split; [reflexivity|discriminate]].
  apply member_In in Et.
  erewrite bind_ok by now apply initializePriorityQueue_embed.
  set (st2 := initializePriorityQueue g _).
  assert (forall x, In x (map fst (q st2)) -> plain x = true) as Hq.
  { intros x Hx. unfold st2, initializePriorityQueue in Hx. simpl in Hx.
    apply map_fst_set_all in Hx. destruct Hx as [Hx|[]].
    eapply plain_store_nodes; eauto. }
  split.
  - rewrite dijkstra_loop_embed by auto.
    destruct (dijkstra_loop _ g st2); reflexivity.
  - intros st E.
    destruct (dijkstra_loop_invariant g
      (fun st => (forall x, In x (map fst (q st)) -> plain x = true) /\
                 (forall x y, get (p st) x = Some (Some y) -> plain y = true) /\
                 List.length (d st) = List.length (nodes g)))
      with (fuel := List.length (keys (q st2))) (st := st2)
      as (st' & E' & (_ & Hp & Hd) & _).
    + intros st0 (A & B & C) _. now apply dijkstra_step_tables.
    + split; auto. split; [intros x y; discriminate|].
      unfold st2, initializePriorityQueue. simpl.
      rewrite <- (length_map fst), map_fst_set.
      assert (has (fold_left (fun d0 node => set d0 node Infinity) (nodes g) empty) s
              = true) as ->.
      { unfold has. rewrite initial_distance. now rewrite Es. }
      rewrite length_map. apply initial_keys.
    + apply Nat.eq_le_incl. symmetry. apply keys_length.
    + change (q st2) with
        (fold_left (fun q0 node => set q0 node true) (nodes g) (@empty bool)) in E'.
      rewrite E' in E. inversion E; subst. auto.
Qed.


Lemma path_loop_embed g pt :
  (forall x y, get pt x = Some (Some y) -> plain y = true) ->
  forall fuel node l w, plain node = true ->
    Program.path_loop fuel pt node l w (embed g)
    = (fuelled (path_loop fuel g pt node l w), embed g).
Proof.
  intros Hp.
  assert (forall fuel node l w, plain node = true ->
            (forall u l' w', plain u = true ->
               Program.path_loop fuel pt u l' w' (embed g)
               = (fuelled (path_loop fuel g pt u l' w'), embed g)) ->
            Program.path_loop (S fuel) pt node l w (embed g)
            = (fuelled (path_loop (S fuel) g pt node l w), embed g)) as Hs.
  { intros fuel node l w Hn IH. simpl.
    rewrite read_own by now apply plain_inherited.
    destruct (get pt node) as [[u|]|] eqn:E; simpl; auto.
    destruct (String.eqb u ""); auto.
    erewrite bind_ok by reflexivity. apply IH. eapply Hp; eauto. }
  induction fuel as [|fuel IH]; intros node l w Hn.
  - simpl. rewrite read_own by now apply plain_inherited.
    destruct (get pt node) as [[u|]|]; simpl; auto.
    destruct (String.eqb u ""); auto.
  - apply Hs; auto.
Qed.

Lemma shortestPath_embed g s t :
  plain_store g = true ->
  Program.shortestPath s t (embed g) = (completed (shortestPath g s t), embed g).
Proof.
  intros H. unfold Program.shortestPath, shortestPath.
  destruct (dijkstra_embed g s t H) as (E & Hfinal).
  unfold Program.bind at 1. rewrite E.
  destruct (dijkstra g s t) as [[st|e]|]; simpl; auto.
  destruct (Hfinal st eq_refl) as (Hp & Hd & Ht).
  unfold Program.path, path. rewrite keys_length, Hd.
  unfold Program.bind. rewrite path_loop_embed; auto.
  - destruct (path_loop _ g (p st) t [] 0%Z) as [[[node l] w]|]; simpl; auto.
    destruct (negb (String.eqb node s)); reflexivity.
  - eapply plain_store_nodes; eauto.
Qed.

(** *** Serialization *)

Lemma fold_left_snoc {A B : Type} (F : A -> B) (l : list A) (acc : list B) :
  fold_left (fun acc' a => acc' ++ [F a]) l acc = acc ++ map F l.
Proof.
  revert acc. induction l as [|a l IH]; simpl; intros acc.
  - now rewrite app_nil_r.
  - rewrite IH. now rewrite <- app_assoc.
Qed.

Lemma fold_left_append {A B : Type} (F : A -> list B) (l : list A) (acc : list B) :
  fold_left (fun acc' a => acc' ++ F a) l acc = acc ++ flat_map F l.
Proof.
  revert acc. induction l as [|a l IH]; simpl; intros acc.
  - now rewrite app_nil_r.
  - rewrite IH. now rewrite <- app_assoc.
Qed.

Lemma serialize_embed g :
  plain_store g = true ->
  Program.serialize (embed g) = (Program.Ok (serialize g), embed g).
Proof.
  intros H. unfold Program.serialize.
  erewrite bind_ok by now apply nodes_embed.
  erewrite bind_ok.
  2:{ apply (forEach_fold _ (fun links source => links ++ links_of g source)).
      intros source links Hs.
      erewrite bind_ok
        by (apply adjacent_array_embed; left; eapply plain_store_nodes; eauto).
      rewrite (forEach_fold _
                 (fun links' target =>
                    links' ++ [Serialized.mkLink source target
                                 (Some (getEdgeWeight g source target))
                                 (Some (getEdgeData g source target))])).
      - now rewrite fold_left_snoc.
      - intros target links' _. reflexivity. }
  rewrite fold_left_append. unfold Program.ret, serialize. simpl.
  f_equal. f_equal. f_equal.
  induction (nodes g) as [|n l IH]; simpl; [reflexivity|].
  now rewrite IH.
Qed.

Lemma deserialize_embed g doc :
  plain_document doc = true ->
  Program.deserialize doc (embed g) = (Program.Ok tt, embed (deserialize g doc)).
Proof.
  intros H. unfold plain_document in H. apply andb_prop in H.
  destruct H as (Hn & Hl). rewrite forallb_forall in Hn, Hl.
  unfold Program.deserialize, deserialize.
  destruct (forEach_store
              (fun n (_ : unit) => Program.addNode (Serialized.id n))
              (fun g0 n => addNode g0 (Serialized.id n))
              (fun _ => True) (Serialized.nodes doc)) with (g0 := g)
    as (E1 & _); auto.
  { intros n g0 Hin _. split; auto. apply addNode_embed. auto. }
  erewrite bind_ok by exact E1.
  destruct (forEach_store
              (fun l (_ : unit) =>
                 Program.addEdge (Serialized.source l) (Serialized.target l)
                   (Serialized.weight l) (Serialized.data l))
              (fun g0 l =>
                 addEdge g0 (Serialized.source l) (Serialized.target l)
                   (Serialized.weight l) (Serialized.data l))
              (fun _ => True) (Serialized.links doc))
    with (g0 := fold_left (fun g0 n => addNode g0 (Serialized.id n))
                  (Serialized.nodes doc) g)
    as (E2 & _); auto.
  intros l g0 Hin _. split; auto. specialize (Hl l Hin).
  apply andb_prop in Hl. destruct Hl. now apply addEdge_embed.
Qed.

(** *** Every call *)

Lemma returning_ok {A : Type} (v : A -> Program.value) (m : Program.M A) s a s' :
  m s = (Program.Ok a, s') -> Program.returning v m s = (Program.Ok (v a), s').
Proof. intros H. unfold Program.returning. now erewrite bind_ok by exact H. Qed.

Lemma returning_stop {A : Type} (v : A -> Program.value) (m : Program.M A) s why s' :
  m s = (Program.Stop why, s') -> Program.returning v m s = (Program.Stop why, s').
Proof. intros H. unfold Program.returning. now erewrite bind_stop by exact H. Qed.

Lemma returning_handle (m : Program.M unit) s s' :
  m s = (Program.Ok tt, s') ->
  Program.returning (fun _ => Program.Handle) m s = (Program.Ok Program.Handle, s').
Proof. apply (returning_ok (fun _ => Program.Handle)). Qed.

Lemma run_embed (c : call) (g : graph) :
  plain_store g = true -> plain_call c = true ->
  Program.run c (embed g) = (agreed c (fst (exec c g)), embed (snd (exec c g))).
Proof.
  intros H Hc. destruct c; simpl in *.
  - apply returning_handle. now apply addNode_embed.
  - apply returning_handle. now apply removeNode_embed.
  - apply (returning_ok Program.NodeList). now apply nodes_embed.
  - apply (returning_ok Program.Adjacency). apply adjacent_embed. auto.
  - apply andb_prop in Hc. destruct Hc.
    apply returning_handle. now apply addEdge_embed.
  - apply returning_handle. now apply removeEdge_embed.
  - apply returning_handle. reflexivity.
  - apply (returning_ok Program.Weight). reflexivity.
  - apply returning_handle. reflexivity.
  - apply (returning_ok Program.Payload). reflexivity.
  - apply (returning_ok (fun n => Program.Degree (Some n))). apply indegree_embed.
  - apply (returning_ok Program.Degree). now apply outdegree_embed.
  - pose proof (depthFirstSearch_embed g sourceNodes includeSourceNodes H Hc) as E.
    destruct (depthFirstSearch g sourceNodes includeSourceNodes); simpl in *.
    + now apply (returning_ok Program.NodeList).
    + now apply returning_stop.
  - pose proof (topologicalSort_embed g sourceNodes includeSourceNodes H Hc) as E.
    destruct (topologicalSort g sourceNodes includeSourceNodes); simpl in *.
    + now apply (returning_ok Program.NodeList).
    + now apply returning_stop.
  - pose proof (shortestPath_embed g source destination H) as E.
    destruct (shortestPath g source destination) as [[[l w]|e]|]; simpl in *.
    + now apply (returning_ok (fun r => Program.Path (fst r) (snd r))
                   (Program.shortestPath source destination) _ (l, w)).
    + now apply returning_stop.
    + now apply returning_stop.
  - apply (returning_ok Program.Document). now apply serialize_embed.
  - apply returning_handle. now apply deserialize_embed.
Qed.
(** ** What every store of the program satisfies *)

Lemma keeps_ret {A : Type} (P : Program.store -> Prop) (a : A) :
  Program.keeps P (Program.ret a).
Proof. intros s H. exact H. Qed.

Lemma keeps_stop {A : Type} (P : Program.store -> Prop) why :
  Program.keeps P (@Program.stop A why).
Proof. intros s H. exact H. Qed.

Lemma keeps_reads {A : Type} (P : Program.store -> Prop) (m : Program.M A) :
  Program.reads m -> Program.keeps P m.
Proof. intros Hm s H. now rewrite Hm. Qed.

Lemma keeps_bind {A B : Type} (P : Program.store -> Prop)
  (m : Program.M A) (f : A -> Program.M B) :
  Program.keeps P m -> (forall a, Program.keeps P (f a)) ->
  Program.keeps P (Program.bind m f).
Proof.
  intros Hm Hf s H. unfold Program.bind. specialize (Hm s H).
  destruct (m s) as [[a|why] s']; simpl in *; auto. now apply Hf.
Qed.

Lemma keeps_forEach {A S : Type} (P : Program.store -> Prop)
  (f : A -> S -> Program.M S) (l : list A) :
  (forall a st, Program.keeps P (f a st)) ->
  forall st, Program.keeps P (Program.forEach l f st).
Proof.
  intros Hf. induction l as [|a l IH]; simpl; intros st.
  - apply keeps_ret.
  - apply keeps_bind; auto.
Qed.

Lemma entries_set (o : obj Program.entry) k e :
  forallb Program.entry_ok o = true -> Program.entry_ok (k, e) = true ->
  forallb Program.entry_ok (set o k e) = true.
Proof.
  intros Ho He. induction o as [|[k' e'] r IH]; simpl in *.
  - now rewrite He.
  - apply andb_prop in Ho. destruct Ho as (H1 & H2).
    destruct (String.eqb k' k) eqn:E; simpl.
    + apply String.eqb_eq in E. subst k'. now rewrite He, H2.
    + now rewrite H1, IH.
Qed.

Lemma entries_del (o : obj Program.entry) k :
  forallb Program.entry_ok o = true -> forallb Program.entry_ok (del o k) = true.
Proof.
  intros Ho. induction o as [|[k' e'] r IH]; simpl in *; auto.
  apply andb_prop in Ho. destruct Ho as (H1 & H2).
  destruct (String.eqb k' k); simpl; auto. now rewrite H1, IH.
Qed.

Lemma entries_get (o : obj Program.entry) k e :
  forallb Program.entry_ok o = true -> get o k = Some e ->
  Program.entry_ok (k, e) = true.
Proof.
  intros Ho E. apply get_pair in E. rewrite forallb_forall in Ho. auto.
Qed.

(** What [adjacent(k)] returns is fit to be stored under [k], unless [k] is
    ["__proto__"]. *)
Lemma adjacent_entry s k :
  Program.well_formed s = true ->
  exists e, Program.adjacent k s = (Program.Ok e, s) /\
    (String.eqb k "__proto__" = false -> Program.entry_ok (k, e) = true) /\
    (forall l, e = Program.Arr l -> plain k = true).
Proof.
  intros H. unfold Program.adjacent, Program.bind, Program.edges_at,
    ObjectPrototype.read.
  destruct (get (Program.edges s) k) as [e|] eqn:E.
  - exists e. split; [reflexivity|].
    pose proof (entries_get _ _ _ H E) as He. split; auto.
    intros l ->. exact He.
  - destruct (ObjectPrototype.inherited k) eqn:Ei.
    + exists (Program.Builtin k). split; [reflexivity|]. split.
      * intros Hk. unfold Program.entry_ok. simpl.
        now rewrite String.eqb_refl, Ei, Hk.
      * discriminate.
    + exists (Program.Arr []). split; [reflexivity|].
      unfold Program.entry_ok, plain. simpl. rewrite Ei. auto.
Qed.

Lemma keeps_set_edges k e :
  forall s, Program.well_formed s = true ->
    (String.eqb k "__proto__" = false -> Program.entry_ok (k, e) = true) ->
    Program.well_formed (snd (Program.set_edges k e s)) = true.
Proof.
  intros s H He. unfold Program.set_edges. simpl.
  destruct (String.eqb k "__proto__"); auto.
  unfold Program.well_formed. simpl. apply entries_set; auto.
Qed.

Lemma keeps_addNode node :
  Program.keeps (fun s => Program.well_formed s = true) (Program.addNode node).
Proof.
  intros s H. unfold Program.addNode.
  destruct (adjacent_entry s node H) as (e & E & He & _).
  erewrite bind_ok by exact E. now apply keeps_set_edges.
Qed.

Lemma keeps_removeEdge u v :
  Program.keeps (fun s => Program.well_formed s = true) (Program.removeEdge u v).
Proof.
  intros s H. unfold Program.removeEdge, Program.bind at 1, Program.edges_at.
  destruct (ObjectPrototype.read (Program.edges s) u); simpl; auto.
  - destruct (adjacent_entry s u H) as (e & E & He & Ha).
    erewrite bind_ok by exact E. destruct e as [l|name]; [|exact H].
    apply keeps_set_edges; [exact H|]. intros _. apply (Ha l eq_refl).
  - destruct (adjacent_entry s u H) as (e & E & He & Ha).
    erewrite bind_ok by exact E. destruct e as [l|name']; [|exact H].
    apply keeps_set_edges; [exact H|]. intros _. apply (Ha l eq_refl).
Qed.

Lemma keeps_tables (f : Program.store -> Program.store) :
  (forall s, Program.edges (f s) = Program.edges s) ->
  Program.keeps (fun s => Program.well_formed s = true) (fun s => (Program.Ok tt, f s)).
Proof. intros Hf s H. unfold Program.well_formed. simpl. now rewrite Hf. Qed.

Lemma keeps_addEdge u v w x :
  Program.keeps (fun s => Program.well_formed s = true) (Program.addEdge u v w x).
Proof.
  unfold Program.addEdge.
  apply keeps_bind; [apply keeps_addNode|intros _].
  apply keeps_bind; [apply keeps_addNode|intros _].
  intros s H. cbv beta.
  destruct (adjacent_entry s u H) as (e & E & He & Ha).
  erewrite bind_ok by exact E.
  refine (keeps_bind (fun s0 => Program.well_formed s0 = true) _ _ _ _ s H).
  - destruct e as [l|name]; [|apply keeps_stop].
    intros s0 H0. apply keeps_set_edges; [exact H0|]. intros _. apply (Ha l eq_refl).
  - intros _. apply keeps_bind.
    + destruct w as [z|]; [|apply keeps_ret]. apply (keeps_tables
        (fun s => Program.mkStore (Program.edges s)
                    (set (Program.edgeWeights s) (encodeEdge u v) z)
                    (Program.edgeData s))). reflexivity.
    + intros _. destruct x as [y|]; [|apply keeps_ret]. apply (keeps_tables
        (fun s => Program.mkStore (Program.edges s) (Program.edgeWeights s)
                    (set (Program.edgeData s) (encodeDataEdge u v) y))).
      reflexivity.
Qed.

Lemma keeps_removeNode node :
  Program.keeps (fun s => Program.well_formed s = true) (Program.removeNode node).
Proof.
  unfold Program.removeNode.
  apply keeps_bind; [apply keeps_reads, reads_keys_of_edges|intros ks].
  apply keeps_bind.
  - apply keeps_forEach. intros u _.
    apply keeps_bind; [apply keeps_reads, reads_array_at|intros l].
    apply keeps_forEach. intros v _.
    destruct (String.eqb v node); [apply keeps_removeEdge|apply keeps_ret].
  - intros _ s H. unfold Program.well_formed. simpl. now apply entries_del.
Qed.

Lemma keeps_deserialize doc :
  Program.keeps (fun s => Program.well_formed s = true) (Program.deserialize doc).
Proof.
  unfold Program.deserialize.
  apply keeps_bind; [|intros _]; apply keeps_forEach; intros a _.
  - apply keeps_addNode.
  - apply keeps_addEdge.
Qed.

Lemma keeps_returning {A : Type} (P : Program.store -> Prop)
  (v : A -> Program.value) (m : Program.M A) :
  Program.keeps P m -> Program.keeps P (Program.returning v m).
Proof.
  intros H. unfold Program.returning.
  apply keeps_bind; [exact H|intros a; apply keeps_ret].
Qed.

Lemma well_formed_embed g :
  Program.well_formed (embed g) = true
  <-> forall k, In k (map fst (edges g)) -> plain k = true.
Proof.
  unfold Program.well_formed, embed. simpl. rewrite forallb_forall. split.
  - intros H k Hk. apply in_map_iff in Hk. destruct Hk as ([k' l] & <- & Hin).
    apply (H (k', Program.Arr l)). apply in_map_iff. exists (k', l). auto.
  - intros H kv Hkv. apply in_map_iff in Hkv. destruct Hkv as ([k l] & <- & Hin).
    unfold Program.entry_ok. simpl. apply H. apply in_map_iff.
    exists (k, l). auto.
Qed.
(** The store of a new graph is well formed, and a call of a function of
    the handle, whatever its arguments and however it ends, leaves a well
    formed store well formed. *)
Theorem well_formed_kept (c : call) (s : Program.store) :
  Program.well_formed Program.empty_store = true /\
  (Program.well_formed s = true ->
   Program.well_formed (snd (Program.run c s)) = true).
Proof.
  split; [reflexivity|].
  assert (Program.keeps (fun s => Program.well_formed s = true) (Program.run c))
    as H; [|exact (H s)].
  destruct c; simpl; apply keeps_returning;
    try (apply keeps_reads;
         first [ apply reads_nodes | apply reads_adjacent
               | apply reads_getEdgeWeight | apply reads_getEdgeData
               | apply reads_indegree | apply reads_outdegree
               | apply reads_depthFirstSearch | apply reads_topologicalSort
               | apply reads_shortestPath | apply reads_serialize ]).
  - apply keeps_addNode.
  - apply keeps_removeNode.
  - apply keeps_addEdge.
  - apply keeps_removeEdge.
  - apply (keeps_tables
             (fun s => Program.mkStore (Program.edges s)
                         (set (Program.edgeWeights s) (encodeEdge u v) weight)
                         (Program.edgeData s))). reflexivity.
  - apply (keeps_tables
             (fun s => Program.mkStore (Program.edges s) (Program.edgeWeights s)
                         (set (Program.edgeData s) (encodeDataEdge u v) payload))).
    reflexivity.
  - apply keeps_deserialize.
Qed.

Lemma well_formed_kept_witness :
  let s := snd (Program.run (AddNode "constructor") Program.empty_store) in
  Program.edges s = [("constructor", Program.Builtin "constructor")] /\
  Program.well_formed s = true /\
  Program.well_formed (snd (Program.run (AddEdge "a" "__proto__" None None) s))
  = true.
Proof.
  intros s. split; [reflexivity|]. split; [reflexivity|].
  apply (well_formed_kept (AddEdge "a" "__proto__" None None) s). reflexivity.
Defined.

(** ** The store under the reading functions: an example *)

Lemma read_only_preserves_store_witness :
  let s := snd (Program.addEdge "A" "B" (Some 2%Z) None Program.empty_store) in
  read_only (ShortestPath "B" "A") = true /\
  fst (Program.run (ShortestPath "B" "A") s)
  = Program.Stop (Program.Thrown NoPathFound) /\
  snd (Program.run (ShortestPath "B" "A") s) = s.
Proof.
  intros s. split; [reflexivity|]. split; [reflexivity|].
  apply (read_only_preserves_store (ShortestPath "B" "A")). reflexivity.
Defined.

(** ** Weights and payloads of removed edges *)

Lemma tables_set_edges k e s :
  Program.edgeWeights (snd (Program.set_edges k e s)) = Program.edgeWeights s /\
  Program.edgeData (snd (Program.set_edges k e s)) = Program.edgeData s.
Proof. unfold Program.set_edges. simpl. now destruct (String.eqb k "__proto__"). Qed.

Lemma keeps_tables_addNode W D node :
  Program.keeps
    (fun s => Program.edgeWeights s = W /\ Program.edgeData s = D)
    (Program.addNode node).
Proof.
  unfold Program.addNode.
  apply keeps_bind; [apply keeps_reads, reads_adjacent|intros e].
  intros s (<- & <-). apply tables_set_edges.
Qed.

Lemma keeps_tables_removeEdge W D u v :
  Program.keeps
    (fun s => Program.edgeWeights s = W /\ Program.edgeData s = D)
    (Program.removeEdge u v).
Proof.
  unfold Program.removeEdge.
  apply keeps_bind; [apply keeps_reads, reads_edges_at|intros e].
  destruct e; [|apply keeps_ret].
  apply keeps_bind; [apply keeps_reads, reads_adjacent|intros a].
  destruct a; [|apply keeps_stop].
  intros s (<- & <-). apply tables_set_edges.
Qed.

Lemma keeps_tables_addEdge W D u v :
  Program.keeps
    (fun s => Program.edgeWeights s = W /\ Program.edgeData s = D)
    (Program.addEdge u v None None).
Proof.
  unfold Program.addEdge.
  apply keeps_bind; [apply keeps_tables_addNode|intros _].
  apply keeps_bind; [apply keeps_tables_addNode|intros _].
  apply keeps_bind; [apply keeps_reads, reads_adjacent|intros a].
  apply keeps_bind; [|intros _; apply keeps_bind; [|intros _]; apply keeps_ret].
  destruct a; [|apply keeps_stop].
  intros s (<- & <-). apply tables_set_edges.
Qed.

(** [addEdge(u, v)] that returns has put [v] last in the array of [u]. *)
Lemma addEdge_returns s u v w x :
  Program.well_formed s = true ->
  fst (Program.addEdge u v w x s) = Program.Ok tt ->
  exists l,
    get (Program.edges (snd (Program.addEdge u v w x s))) u
    = Some (Program.Arr (l ++ [v])).
Proof.
  intros H. unfold Program.addEdge.
  pose proof (keeps_addNode u s H) as H1. cbv beta in H1.
  assert (exists s1, Program.addNode u s = (Program.Ok tt, s1)) as (s1 & E1).
  { unfold Program.addNode, Program.bind, Program.adjacent, Program.edges_at,
      Program.set_edges, Program.ret. simpl. eauto. }
  rewrite E1 in H1. simpl in H1. erewrite bind_ok by exact E1.
  pose proof (keeps_addNode v s1 H1) as H2. cbv beta in H2.
  assert (exists s2, Program.addNode v s1 = (Program.Ok tt, s2)) as (s2 & E2).
  { unfold Program.addNode, Program.bind, Program.adjacent, Program.edges_at,
      Program.set_edges, Program.ret. simpl. eauto. }
  rewrite E2 in H2. simpl in H2. erewrite bind_ok by exact E2.
  destruct (adjacent_entry s2 u H2) as (e & E & _ & Ha).
  erewrite bind_ok by exact E.
  destruct e as [l|name].
  - intros _. exists l.
    assert (Program.set_edges u (Program.Arr (l ++ [v])) s2
            = (Program.Ok tt,
               Program.mkStore (set (Program.edges s2) u (Program.Arr (l ++ [v])))
                 (Program.edgeWeights s2) (Program.edgeData s2))) as E3.
    { unfold Program.set_edges. now rewrite (plain_not_proto u (Ha l eq_refl)). }
    erewrite bind_ok by exact E3.
    destruct w, x; simpl; apply get_set_same.
  - erewrite bind_stop by reflexivity. discriminate.
Qed.

(** [removeEdge(u, v)] and [addEdge(u, v)] return when [u] and [v] name no
    member of the prototype. *)
Lemma plain_edges_at s k :
  Program.well_formed s = true -> plain k = true ->
  exists r, Program.adjacent k s = (Program.Ok (Program.Arr r), s) /\
    (Program.edges_at k s = (Program.Ok (Some (Program.Arr r)), s)
     \/ Program.edges_at k s = (Program.Ok None, s)).
Proof.
  intros H Hk. unfold Program.adjacent, Program.bind, Program.edges_at.
  rewrite read_own by now apply plain_inherited.
  destruct (get (Program.edges s) k) as [[l|name]|] eqn:E;
    [exists l; split; [reflexivity | left; reflexivity]
    | | exists []; split; [reflexivity | right; reflexivity]].
  exfalso. pose proof (entries_get _ _ _ H E) as He.
  unfold Program.entry_ok in He. simpl in He.
  apply andb_prop in He. destruct He as (He & _).
  apply andb_prop in He. destruct He as (He1 & He2).
  apply String.eqb_eq in He1. subst name.
  unfold plain in Hk. now rewrite He2 in Hk.
Qed.

Lemma removeEdge_returns s u v :
  Program.well_formed s = true -> plain u = true ->
  fst (Program.removeEdge u v s) = Program.Ok tt.
Proof.
  intros H Hu. unfold Program.removeEdge.
  destruct (plain_edges_at s u H Hu) as (r & Ea & [E|E]);
    erewrite bind_ok by exact E; cbv beta iota; [|reflexivity].
  erewrite bind_ok by exact Ea. reflexivity.
Qed.

Lemma addNode_returns s node :
  exists s', Program.addNode node s = (Program.Ok tt, s').
Proof.
  unfold Program.addNode, Program.bind, Program.adjacent, Program.edges_at,
    Program.set_edges, Program.ret. simpl. eauto.
Qed.

Lemma plain_addEdge_returns s u v w x :
  Program.well_formed s = true -> plain u = true ->
  fst (Program.addEdge u v w x s) = Program.Ok tt.
Proof.
  intros H Hu. unfold Program.addEdge.
  destruct (addNode_returns s u) as (s1 & E1).
  pose proof (keeps_addNode u s H) as H1. cbv beta in H1.
  rewrite E1 in H1. simpl in H1. erewrite bind_ok by exact E1.
  destruct (addNode_returns s1 v) as (s2 & E2).
  pose proof (keeps_addNode v s1 H1) as H2. cbv beta in H2.
  rewrite E2 in H2. simpl in H2. erewrite bind_ok by exact E2.
  destruct (plain_edges_at s2 u H2 Hu) as (r & Ea & _).
  erewrite bind_ok by exact Ea.
  unfold Program.set_edges. rewrite (plain_not_proto u Hu).
  erewrite bind_ok by reflexivity.
  destruct w, x; reflexivity.
Qed.

(** C6.  A weight and a payload set for the pair [(u, v)] are still in the
    two tables after [removeEdge(u, v)], whether it returns or raises, and
    [getEdgeWeight] and [getEdgeData] return them; they are still there
    after [addEdge(u, v)] without a weight and without a payload; on a
    well formed store, which the store of a new graph is and every call of
    the handle leaves, [v] is in the adjacency array of [u] when that call
    returns, so the edge that is added again carries them, and both calls
    return when [u] names no member of [Object.prototype]. *)
Theorem removeEdge_keeps_metadata (s : Program.store) (u v : string)
  (w : Z) (x : data) :
  let s1 := snd (Program.setEdgeData u v x (snd (Program.setEdgeWeight u v w s))) in
  let s2 := snd (Program.removeEdge u v s1) in
  let s3 := snd (Program.addEdge u v None None s2) in
  Program.edgeWeights s2 = Program.edgeWeights s1 /\
  Program.edgeData s2 = Program.edgeData s1 /\
  fst (Program.getEdgeWeight u v s2) = Program.Ok w /\
  fst (Program.getEdgeData u v s2) = Program.Ok x /\
  fst (Program.getEdgeWeight u v s3) = Program.Ok w /\
  fst (Program.getEdgeData u v s3) = Program.Ok x /\
  (Program.well_formed s = true ->
   (fst (Program.addEdge u v None None s2) = Program.Ok tt ->
    exists l, get (Program.edges s3) u = Some (Program.Arr l) /\ In v l) /\
   (plain u = true ->
    fst (Program.removeEdge u v s1) = Program.Ok tt /\
    fst (Program.addEdge u v None None s2) = Program.Ok tt)).
Proof.
  intros s1 s2 s3.
  assert (Program.edgeWeights s1
          = set (Program.edgeWeights s) (encodeEdge u v) w) as W1 by reflexivity.
  assert (Program.edgeData s1
          = set (Program.edgeData s) (encodeDataEdge u v) x) as D1 by reflexivity.
  destruct (keeps_tables_removeEdge _ _ u v s1 (conj eq_refl eq_refl))
    as (W2 & D2). fold s2 in W2, D2.
  destruct (keeps_tables_addEdge _ _ u v s2 (conj W2 D2)) as (W3 & D3).
  fold s3 in W3, D3.
  split; [exact W2|]. split; [exact D2|].
  unfold Program.getEdgeWeight, Program.getEdgeData, Program.bind,
    Program.edgeWeights_at, Program.edgeData_at, Program.ret. simpl.
  rewrite W2, D2, W3, D3, W1, D1, !get_set_same.
  repeat (split; [reflexivity|]).
  intros H.
  assert (Program.well_formed s1 = true) as H1 by exact H.
  assert (Program.well_formed s2 = true) as H2 by now apply keeps_removeEdge.
  split.
  - intros Hok. destruct (addEdge_returns s2 u v None None H2 Hok) as (l & E).
    exists (l ++ [v]). split; [exact E|]. apply in_or_app. right. now left.
  - intros Hu. split.
    + now apply removeEdge_returns.
    + now apply plain_addEdge_returns.
Qed.

Lemma removeEdge_keeps_metadata_witness :
  let s := snd (Program.addEdge "A" "B" None None Program.empty_store) in
  let s1 := snd (Program.setEdgeData "A" "B" [("k", "v")]
                   (snd (Program.setEdgeWeight "A" "B" 5 s))) in
  let s2 := snd (Program.removeEdge "A" "B" s1) in
  Program.edges s2 = [("A", Program.Arr []); ("B", Program.Arr [])] /\
  fst (Program.getEdgeWeight "A" "B" s2) = Program.Ok 5%Z /\
  fst (Program.addEdge "A" "B" None None s2) = Program.Ok tt /\
  fst (Program.getEdgeWeight "A" "B" (snd (Program.addEdge "A" "B" None None s2)))
  = Program.Ok 5%Z.
Proof.
  intros s s1 s2.
  destruct (removeEdge_keeps_metadata s "A" "B" 5 [("k", "v")])
    as (_ & _ & Hw & _ & Hw' & _ & Hwf).
  destruct (Hwf eq_refl) as (_ & Hok). destruct (Hok eq_refl) as (_ & Ha).
  split; [reflexivity|]. split; [exact Hw|]. split; [exact Ha | exact Hw'].
Defined.
(** ** Identifiers that name a member of the prototype, in the program *)

(** C3, at the graph made by [addNode("constructor")]: the read of
    [edges["constructor"]] finds the member of the prototype, [addNode]
    stores it under the key, and [nodes()], hence [serialize()], calls
    [forEach] on it and raises; there is no document to deserialize. *)
Theorem serialize_after_prototype_member :
  let s := snd (Program.addNode "constructor" Program.empty_store) in
  fst (Program.addNode "constructor" Program.empty_store) = Program.Ok tt /\
  Program.edges s = [("constructor", Program.Builtin "constructor")] /\
  fst (Program.nodes s) = Program.Stop Program.TypeError /\
  fst (Program.serialize s) = Program.Stop Program.TypeError.
Proof. repeat split. Qed.

(** C4, at the graph made by [addEdge("a", "__proto__")]: ["__proto__"] is
    an entry of the adjacency array of ["a"], but [nodeSet["__proto__"] =
    true] makes no property, so [nodes()] does not list it, [d] has no
    entry for it, and [shortestPath("a", "__proto__")] raises the error of
    an unknown destination. *)
Theorem shortestPath_to_prototype_member :
  let s := snd (Program.addEdge "a" "__proto__" None None Program.empty_store) in
  fst (Program.addEdge "a" "__proto__" None None Program.empty_store)
  = Program.Ok tt /\
  Program.edges s = [("a", Program.Arr ["__proto__"])] /\
  fst (Program.nodes s) = Program.Ok ["a"] /\
  fst (Program.shortestPath "a" "__proto__" s)
  = Program.Stop (Program.Thrown DestinationNotInGraph).
Proof. repeat split. Qed.

(** C8, at the same graph: ["__proto__"] is an entry of the adjacency array
    of the source ["a"] and is no source, but [visited["__proto__"]] reads
    the prototype, which is truthy, so [DFSVisit] never appends it:
    [depthFirstSearch(["a"], false)] returns the empty list. *)
Theorem depthFirstSearch_skips_prototype_member :
  let s := snd (Program.addEdge "a" "__proto__" None None Program.empty_store) in
  Program.edges s = [("a", Program.Arr ["__proto__"])] /\
  ~ In "__proto__" ["a"] /\
  fst (Program.depthFirstSearch (Some ["a"]) (Some false) s) = Program.Ok [] /\
  fst (Program.depthFirstSearch (Some ["a"]) None s) = Program.Ok ["a"].
Proof.
  repeat split. simpl. intros [H|[]]. discriminate.
Qed.

(** ** Identifiers for which [removeEdge] raises *)

(** On a well formed store, [removeEdge(u, v)] raises the [TypeError]
    exactly when [u] names a member of [Object.prototype], whether or not
    [addNode(u)] was called before; for every other [u] it returns. *)
Theorem removeEdge_raises_iff (s : Program.store) (u v : string) :
  Program.well_formed s = true ->
  (fst (Program.removeEdge u v s) = Program.Stop Program.TypeError
   <-> ObjectPrototype.inherited u = true) /\
  (ObjectPrototype.inherited u = false ->
   fst (Program.removeEdge u v s) = Program.Ok tt).
Proof.
  intros H.
  assert (ObjectPrototype.inherited u = false ->
          fst (Program.removeEdge u v s) = Program.Ok tt) as Hp.
  { intros Hu. apply removeEdge_returns; auto. unfold plain. now rewrite Hu. }
  split; [|exact Hp]. split.
  - intros E. destruct (ObjectPrototype.inherited u) eqn:Hu; auto.
    rewrite Hp in E by reflexivity. discriminate.
  - intros Hu. unfold Program.removeEdge, Program.bind, Program.adjacent,
      Program.edges_at, ObjectPrototype.read.
    destruct (get (Program.edges s) u) as [[l|name]|] eqn:E; simpl.
    + exfalso. pose proof (entries_get _ _ _ H E) as He.
      unfold Program.entry_ok, plain in He. simpl in He.
      now rewrite Hu in He.
    + rewrite E. reflexivity.
    + rewrite Hu. simpl. rewrite E. reflexivity.
Qed.

Lemma removeEdge_raises_iff_witness :
  let s := snd (Program.addNode "constructor"
                  (snd (Program.addEdge "A" "C" None None Program.empty_store))) in
  Program.edges s
  = [("A", Program.Arr ["C"]); ("C", Program.Arr []);
     ("constructor", Program.Builtin "constructor")] /\
  fst (Program.removeEdge "A" "C" s) = Program.Ok tt /\
  fst (Program.removeEdge "constructor" "C" s) = Program.Stop Program.TypeError /\
  fst (Program.removeEdge "toString" "C" s) = Program.Stop Program.TypeError.
Proof.
  intros s.
  destruct (removeEdge_raises_iff s "A" "C" eq_refl) as (_ & H1).
  destruct (removeEdge_raises_iff s "constructor" "C" eq_refl) as (H2 & _).
  destruct (removeEdge_raises_iff s "toString" "C" eq_refl) as (H3 & _).
  split; [reflexivity|]. split; [apply H1; reflexivity|].
  split; [apply H2 | apply H3]; reflexivity.
Defined.

(** ** Order of the traversals *)

Lemma topologicalSort_reverses s sourceNodes includeSourceNodes :
  fst (Program.topologicalSort sourceNodes includeSourceNodes s)
  = match fst (Program.depthFirstSearch sourceNodes includeSourceNodes s) with
    | Program.Ok l => Program.Ok (rev l)
    | Program.Stop why => Program.Stop why
    end.
Proof.
  unfold Program.topologicalSort, Program.bind.
  destruct (Program.depthFirstSearch sourceNodes includeSourceNodes s)
    as [[l|why] s']; reflexivity.
Qed.

(** The traversals return on a plain store. *)
Lemma depthFirstSearch_returns g sourceNodes includeSourceNodes :
  plain_store g = true -> plain_sources sourceNodes = true ->
  exists l,
    depthFirstSearch g sourceNodes includeSourceNodes = Some l /\
    Program.depthFirstSearch sourceNodes includeSourceNodes (embed g)
    = (Program.Ok l, embed g) /\
    Program.topologicalSort sourceNodes includeSourceNodes (embed g)
    = (Program.Ok (rev l), embed g).
Proof.
  intros H Hs.
  destruct (depthFirstSearch_total g sourceNodes includeSourceNodes) as (l & E).
  exists l. split; [exact E|].
  rewrite topologicalSort_embed, depthFirstSearch_embed by auto.
  unfold topologicalSort. rewrite E. split; reflexivity.
Qed.

(** ** Traversals of a well formed store *)

Lemma get_map_values {A B : Type} (f : A -> B) (o : obj A) k :
  get (map (fun kv => (fst kv, f (snd kv))) o) k = option_map f (get o k).
Proof.
  induction o as [|[k' v] r IH]; simpl; auto.
  destruct (String.eqb k' k); auto.
Qed.

Lemma arrays_In s k l :
  In (k, l) (edges (arrays s)) <-> In (k, Program.Arr l) (Program.edges s).
Proof.
  unfold arrays. simpl. rewrite in_flat_map. split.
  - intros ([k' [l'|name]] & Hin & H); simpl in H; [|destruct H].
    destruct H as [H|[]]. inversion H; subst. exact Hin.
  - intros H. exists (k, Program.Arr l). split; [exact H|]. now left.
Qed.

Lemma arrays_keys_plain s k :
  Program.well_formed s = true -> In k (map fst (edges (arrays s))) ->
  plain k = true.
Proof.
  intros H Hin. apply in_map_iff in Hin. destruct Hin as ([k' l] & <- & Hin).
  apply arrays_In in Hin. unfold Program.well_formed in H.
  rewrite forallb_forall in H. exact (H _ Hin).
Qed.

Lemma arrays_get s k :
  Program.well_formed s = true ->
  get (edges (arrays s)) k
  = match get (Program.edges s) k with
    | Some (Program.Arr l) => Some l
    | _ => None
    end.
Proof.
  destruct s as [o W D]. unfold Program.well_formed, arrays. simpl.
  induction o as [|[k' e] r IH]; simpl; auto.
  intros H. apply andb_prop in H. destruct H as (H1 & H2).
  destruct e as [l|name]; simpl.
  - destruct (String.eqb k' k); auto.
  - destruct (String.eqb k' k) eqn:E; auto.
    apply String.eqb_eq in E. subst k'. apply get_None. intros Hin.
    pose proof (arrays_keys_plain (Program.mkStore r W D) k H2 Hin) as Hp.
    unfold Program.entry_ok in H1. simpl in H1.
    apply andb_prop in H1. destruct H1 as (H1 & _).
    apply andb_prop in H1. destruct H1 as (H1 & H3).
    apply String.eqb_eq in H1. subst name.
    unfold plain in Hp. now rewrite H3 in Hp.
Qed.

Lemma get_plain_arrays s k :
  get (edges (plain_arrays s)) k
  = option_map (filter plain) (get (edges (arrays s)) k).
Proof. apply (get_map_values (filter plain)). Qed.

Lemma adjacent_plain_arrays s k :
  adjacent (plain_arrays s) k = filter plain (adjacent (arrays s) k).
Proof.
  unfold adjacent. rewrite get_plain_arrays.
  now destruct (get (edges (arrays s)) k).
Qed.

Lemma edge_plain_arrays s u v :
  edge (plain_arrays s) u v <-> edge (arrays s) u v /\ plain v = true.
Proof.
  unfold edge. rewrite adjacent_plain_arrays. apply filter_In.
Qed.

Lemma reach_plain_arrays s a b :
  reach (plain_arrays s) a b ->
  reach (arrays s) a b /\ (plain a = true -> plain b = true).
Proof.
  induction 1 as [a b H|a|a b c _ [IH1 IH2] _ [IH3 IH4]].
  - apply edge_plain_arrays in H. destruct H. split; auto. now apply rt_step.
  - split; [apply rt_refl | auto].
  - split; [eapply rt_trans; eauto | auto].
Qed.

Lemma on_cycle_plain_arrays s u :
  on_cycle (plain_arrays s) u -> on_cycle (arrays s) u.
Proof.
  unfold on_cycle.
  assert (forall a b, clos_trans string (edge (plain_arrays s)) a b ->
            clos_trans string (edge (arrays s)) a b) as Hc; [|apply Hc].
  induction 1 as [a b H|a b c _ IH1 _ IH2].
  - apply t_step. apply edge_plain_arrays in H. tauto.
  - eapply t_trans; eauto.
Qed.

Lemma adjacent_array_plain s k :
  Program.well_formed s = true -> plain k = true ->
  Program.adjacent_array k s = (Program.Ok (adjacent (arrays s) k), s).
Proof.
  intros H Hk.
  unfold Program.adjacent_array, Program.adjacent, Program.bind,
    Program.edges_at, adjacent.
  rewrite arrays_get by auto. rewrite read_own by now apply plain_inherited.
  destruct (get (Program.edges s) k) as [[l|name]|] eqn:E; try reflexivity.
  exfalso. pose proof (entries_get _ _ _ H E) as He.
  unfold Program.entry_ok in He. simpl in He.
  apply andb_prop in He. destruct He as (He & _).
  apply andb_prop in He. destruct He as (He1 & He2).
  apply String.eqb_eq in He1. subst name.
  unfold plain in Hk. now rewrite He2 in Hk.
Qed.

Lemma adjacent_array_inherited s k :
  Program.well_formed s = true -> plain k = false ->
  Program.adjacent_array k s = (Program.Stop Program.TypeError, s).
Proof.
  intros H Hk.
  unfold Program.adjacent_array, Program.adjacent, Program.bind,
    Program.edges_at, ObjectPrototype.read.
  destruct (get (Program.edges s) k) as [[l|name]|] eqn:E.
  - pose proof (entries_get _ _ _ H E) as He.
    unfold Program.entry_ok in He. simpl in He. congruence.
  - reflexivity.
  - unfold plain in Hk.
    destruct (ObjectPrototype.inherited k); [reflexivity|discriminate].
Qed.

Lemma nodes_plain_arrays s :
  List.length (nodes (plain_arrays s)) <= List.length (Program.identifiers s).
Proof.
  apply NoDup_incl_length; [apply NoDup_nodes|].
  intros x Hx. unfold Program.identifiers. apply in_flat_map.
  apply In_nodes in Hx. destruct Hx as [Hx|(u & Hx)].
  - unfold has in Hx. rewrite get_plain_arrays in Hx.
    destruct (get (edges (arrays s)) x) as [l|] eqn:E; [|discriminate].
    apply get_pair, arrays_In in E.
    exists (x, Program.Arr l). split; [exact E | now left].
  - apply edge_plain_arrays in Hx. destruct Hx as (Hx & _).
    unfold edge, adjacent in Hx.
    destruct (get (edges (arrays s)) u) as [l|] eqn:E; [|destruct Hx].
    apply get_pair, arrays_In in E.
    exists (u, Program.Arr l). split; [exact E | now right].
Qed.

(** *** The marks *)

Lemma marks_true_empty : marks_true (mkDfs empty []).
Proof. intros k. discriminate. Qed.

Lemma marks_true_mark n st : marks_true st -> marks_true (mark n st).
Proof.
  intros H k. unfold mark. simpl. rewrite get_set.
  destruct (String.eqb n k); [discriminate | apply H].
Qed.

Lemma marks_true_assign n st : marks_true st -> marks_true (Program.mark n st).
Proof.
  intros H k. unfold Program.mark, Program.assign. simpl.
  destruct (String.eqb n "__proto__"); [apply H|].
  rewrite get_set. destruct (String.eqb n k); [discriminate | apply H].
Qed.

Lemma marks_true_assigns l st :
  marks_true st ->
  marks_true (fold_left (fun st1 node => Program.mark node st1) l st).
Proof.
  revert st. induction l as [|a l IH]; simpl; intros st H; auto.
  apply IH. now apply marks_true_assign.
Qed.

Lemma marked_inherited st k :
  marks_true st -> plain k = false -> Program.marked (visited st) k = true.
Proof.
  intros H Hk. unfold Program.marked, ObjectPrototype.read. specialize (H k).
  destruct (get (visited st) k) as [[|]|]; [reflexivity | congruence |].
  unfold plain in Hk. destruct (ObjectPrototype.inherited k); auto; discriminate.
Qed.

Lemma marks_true_forEachM (f : string -> dfs_state -> option dfs_state) :
  (forall n st st', f n st = Some st' -> marks_true st -> marks_true st') ->
  forall l st st', forEachM f l st = Some st' -> marks_true st -> marks_true st'.
Proof.
  intros Hf. induction l as [|a l IH]; simpl; intros st st' E H.
  - inversion E; subst. exact H.
  - destruct (f a st) as [st1|] eqn:E1; [|discriminate]. eauto.
Qed.

Lemma marks_true_DFSVisit g fuel :
  forall n st st', DFSVisit fuel g n st = Some st' ->
    marks_true st -> marks_true st'.
Proof.
  induction fuel as [|fuel IH]; intros n st st' E H; simpl in E; [discriminate|].
  destruct (truthy (get (visited st) n)); [inversion E; subst; exact H|].
  destruct (forEachM (DFSVisit fuel g) (adjacent g n) (mark n st)) as [st1|] eqn:Ec;
    [|discriminate].
  inversion E; subst. intros k. unfold push. simpl.
  apply (marks_true_forEachM _ IH _ _ _ Ec). now apply marks_true_mark.
Qed.

(** *** The loops *)

Lemma forEach_DFSVisit_plain s k :
  (forall n st, marks_true st -> List.length (unvisited (plain_arrays s) st) < k ->
     exists st', Program.DFSVisit k n st s = (Program.Ok st', s) /\
       (if plain n then DFSVisit k (plain_arrays s) n st = Some st'
        else st' = st)) ->
  forall l st, marks_true st -> List.length (unvisited (plain_arrays s) st) < k ->
    exists st', Program.forEach l (Program.DFSVisit k) st s = (Program.Ok st', s) /\
      forEachM (DFSVisit k (plain_arrays s)) (filter plain l) st = Some st'.
Proof.
  intros Hf. induction l as [|a l IH]; simpl; intros st Hm Hk.
  - exists st. split; reflexivity.
  - destruct (Hf a st Hm Hk) as (st1 & E1 & P1).
    unfold Program.bind. rewrite E1.
    destruct (plain a) eqn:Pa.
    + simpl. rewrite P1. apply IH.
      * eapply marks_true_DFSVisit; eauto.
      * destruct (DFSVisit_dfs_step _ k _ _ _ P1) as (S1 & _).
        pose proof (unvisited_le (plain_arrays s) st st1
                      (fun x => dfs_step_visited _ _ _ _ x S1)).
        lia.
    + subst st1. apply IH; auto.
Qed.

Lemma DFSVisit_plain_arrays s :
  Program.well_formed s = true ->
  forall fuel n st,
    marks_true st -> List.length (unvisited (plain_arrays s) st) < fuel ->
    exists st', Program.DFSVisit fuel n st s = (Program.Ok st', s) /\
      (if plain n then DFSVisit fuel (plain_arrays s) n st = Some st'
       else st' = st).
Proof.
  intros H. induction fuel as [|fuel IH]; intros n st Hm Hk; [lia|].
  cbn [Program.DFSVisit DFSVisit].
  destruct (plain n) eqn:Pn.
  - rewrite marked_plain by auto.
    destruct (truthy (get (visited st) n)) eqn:Vn;
      [exists st; split; reflexivity|].
    erewrite bind_ok by (now apply adjacent_array_plain).
    rewrite mark_plain by auto. rewrite adjacent_plain_arrays.
    destruct (adjacent (arrays s) n) as [|c cs] eqn:El.
    + exists (push n (mark n st)). split; reflexivity.
    + assert (In n (nodes (plain_arrays s))) as Hn.
      { apply In_nodes. left. unfold has. rewrite get_plain_arrays.
        unfold adjacent in El.
        destruct (get (edges (arrays s)) n); [reflexivity|discriminate]. }
      assert (~ is_visited st n) as Hv by (unfold is_visited; congruence).
      pose proof (unvisited_mark _ st n Hn Hv) as Hlt.
      destruct (forEach_DFSVisit_plain s fuel IH (c :: cs) (mark n st))
        as (st1 & E1 & P1); [now apply marks_true_mark | lia |].
      unfold Program.bind. rewrite E1, P1.
      exists (push n st1). split; reflexivity.
  - rewrite marked_inherited by auto. exists st. split; reflexivity.
Qed.

Lemma forEach_adjacent_plain s fuel :
  Program.well_formed s = true ->
  List.length (nodes (plain_arrays s)) < fuel ->
  forall l st, marks_true st ->
    exists r,
      Program.forEach l
        (fun node st1 =>
           Program.bind (Program.adjacent_array node)
             (fun a => Program.forEach a (Program.DFSVisit fuel) st1)) st s
      = (r, s) /\
      if all_plain l then
        exists st', r = Program.Ok st' /\
          forEachM
            (fun node => forEachM (DFSVisit fuel (plain_arrays s))
                           (adjacent (plain_arrays s) node)) l st
          = Some st'
      else r = Program.Stop Program.TypeError.
Proof.
  intros H Hf. induction l as [|a l IH]; simpl; intros st Hm.
  - eexists. split; [reflexivity|]. eauto.
  - destruct (plain a) eqn:Pa; simpl.
    + unfold Program.bind at 1.
      erewrite bind_ok by (now apply adjacent_array_plain).
      destruct (forEach_DFSVisit_plain s fuel (DFSVisit_plain_arrays s H fuel)
                  (adjacent (arrays s) a) st Hm)
        as (st1 & E1 & P1).
      { pose proof (unvisited_bound (plain_arrays s) st). lia. }
      rewrite E1. rewrite adjacent_plain_arrays, P1.
      apply IH.
      eapply (marks_true_forEachM _ (marks_true_DFSVisit _ fuel)); eauto.
    + unfold Program.bind at 1.
      erewrite bind_stop by (now apply adjacent_array_inherited).
      eauto.
Qed.

Lemma forEach_ends {A S : Type} (f : A -> S -> Program.M S) (l : list A) s :
  (forall a st, (exists st', f a st s = (Program.Ok st', s))
                \/ f a st s = (Program.Stop Program.TypeError, s)) ->
  forall st, (exists st', Program.forEach l f st s = (Program.Ok st', s))
             \/ Program.forEach l f st s = (Program.Stop Program.TypeError, s).
Proof.
  intros Hf. induction l as [|a l IH]; simpl; intros st.
  - left. exists st. reflexivity.
  - unfold Program.bind. destruct (Hf a st) as [(st' & ->)| ->]; auto.
Qed.

Lemma nodes_ends s :
  (exists l, Program.nodes s = (Program.Ok l, s))
  \/ Program.nodes s = (Program.Stop Program.TypeError, s).
Proof.
  remember (Program.nodes s) as r eqn:Hr.
  unfold Program.nodes, Program.keys_of_edges in Hr.
  unfold Program.bind at 1 in Hr. cbv beta iota in Hr.
  unfold Program.bind at 1 in Hr.
  match type of Hr with
  | context [Program.forEach ?l ?f ?st0 s] =>
      assert (forall a st, (exists st', f a st s = (Program.Ok st', s))
                \/ f a st s = (Program.Stop Program.TypeError, s)) as Hf;
      [|destruct (forEach_ends f l s Hf st0) as [(ns & E)|E];
        rewrite E in Hr; subst r]
  end.
  - intros u ns. unfold Program.bind, Program.array_at, Program.edges_at.
    unfold Program.bind.
    destruct (ObjectPrototype.read (Program.edges s) u) as [[l|name]|name|];
      simpl; auto.
    left. eexists. reflexivity.
  - left. eexists. reflexivity.
  - right. reflexivity.
Qed.

Lemma depthFirstSearch_sources s sourceNodes includeSourceNodes :
  Program.depthFirstSearch sourceNodes includeSourceNodes s
  = match sources_of s sourceNodes with
    | Program.Ok l => Program.depthFirstSearch (Some l) includeSourceNodes s
    | Program.Stop why => (Program.Stop why, s)
    end.
Proof.
  destruct sourceNodes as [l|]; [reflexivity|]. unfold sources_of.
  unfold Program.depthFirstSearch at 1. unfold Program.bind at 1.
  pose proof (reads_nodes s) as Hs.
  destruct (Program.nodes s) as [[l|why] s']; simpl in *; subst s'; reflexivity.
Qed.

(** On a well formed store [depthFirstSearch] is the traversal of the
    arrays without their entries that name a member of the prototype; with
    [includeSourceNodes] false it raises for such a source, and otherwise
    it passes over it. *)
Lemma depthFirstSearch_given s l includeSourceNodes :
  Program.well_formed s = true ->
  Program.depthFirstSearch (Some l) includeSourceNodes s
  = (if excludes includeSourceNodes then
       if all_plain l then
         fuelled (depthFirstSearch (plain_arrays s) (Some l) includeSourceNodes)
       else Program.Stop Program.TypeError
     else
       fuelled (depthFirstSearch (plain_arrays s) (Some (filter plain l))
                  includeSourceNodes),
     s).
Proof.
  intros H. unfold Program.depthFirstSearch. unfold Program.bind at 1.
  unfold Program.ret at 1. unfold Program.with_fuel.
  set (fuel := S (List.length (Program.identifiers s))).
  assert (S (List.length (nodes (plain_arrays s))) <= fuel) as Hf.
  { pose proof (nodes_plain_arrays s). unfold fuel. lia. }
  unfold depthFirstSearch, dfs_run. simpl chosen_sources.
  destruct includeSourceNodes as [[|]|]; cbn [excludes negb];
    cbv beta iota zeta.
  - destruct (forEach_DFSVisit_plain s fuel (DFSVisit_plain_arrays s H fuel)
                l (mkDfs empty []) marks_true_empty) as (st' & E & P).
    { pose proof (unvisited_bound (plain_arrays s) (mkDfs empty [])). lia. }
    unfold Program.bind. rewrite E.
    rewrite (forEachM_ext _ (DFSVisit fuel (plain_arrays s)))
      by (intros; symmetry; now apply DFSVisit_fuel).
    rewrite P. reflexivity.
  - destruct (forEach_adjacent_plain s fuel H Hf l
                (fold_left (fun st1 node => Program.mark node st1) l
                   (mkDfs empty [])))
      as (r & E & P).
    { apply marks_true_assigns, marks_true_empty. }
    unfold Program.bind at 1. rewrite E.
    destruct (all_plain l) eqn:Hl.
    + destruct P as (st' & -> & P). rewrite marks_plain in P by auto.
      rewrite (forEachM_ext _
                 (fun node => forEachM (DFSVisit fuel (plain_arrays s))
                                (adjacent (plain_arrays s) node))).
      * rewrite P. reflexivity.
      * intros a st _. apply forEachM_ext. intros. symmetry.
        now apply DFSVisit_fuel.
    + subst r. reflexivity.
  - destruct (forEach_DFSVisit_plain s fuel (DFSVisit_plain_arrays s H fuel)
                l (mkDfs empty []) marks_true_empty) as (st' & E & P).
    { pose proof (unvisited_bound (plain_arrays s) (mkDfs empty [])). lia. }
    unfold Program.bind. rewrite E.
    rewrite (forEachM_ext _ (DFSVisit fuel (plain_arrays s)))
      by (intros; symmetry; now apply DFSVisit_fuel).
    rewrite P. reflexivity.
Qed.

Lemma order_plain_arrays s chosen includeSourceNodes l sources :
  all_plain chosen = true -> incl chosen sources ->
  depthFirstSearch (plain_arrays s) (Some chosen) includeSourceNodes = Some l ->
  acyclic_from (arrays s) sources ->
  forall u v, edge (arrays s) u v -> In u (rev l) -> In v (rev l) ->
    precedes u v (rev l).
Proof.
  intros Hp Hi E Ha u v Huv Hu Hv. apply in_rev in Hu, Hv.
  unfold depthFirstSearch in E.
  destruct (dfs_run (plain_arrays s) (Some chosen) includeSourceNodes)
    as [st|] eqn:Hrun; [|discriminate].
  simpl in E. inversion E; subst l. clear E.
  destruct (dfs_run_result _ _ _ _ Hrun) as (_ & _ & Hpre & Hreach & Hedge & _).
  simpl in Hpre, Hreach, Hedge.
  assert (plain v = true) as Pv.
  { destruct (Hreach v Hv) as (r & Hr & Hrv).
    apply reach_plain_arrays in Hrv. destruct Hrv as (_ & Hrv).
    apply Hrv. eapply all_plain_In; eauto. }
  assert (edge (plain_arrays s) u v) as Huv' by (apply edge_plain_arrays; auto).
  destruct (Hedge u v Hu Huv') as (_ & [Ho|[Ho|Ho]]).
  - now apply precedes_rev.
  - exfalso. exact (Hpre v Hv Ho).
  - exfalso. destruct (Hreach u Hu) as (r & Hr & Hru).
    apply reach_plain_arrays in Hru. destruct Hru as (Hru & _).
    apply (Ha r u (Hi r Hr) Hru). apply on_cycle_plain_arrays.
    eapply edge_reach_cycle; eauto.
Qed.

Lemma all_plain_filter_plain l : all_plain (filter plain l) = true.
Proof.
  unfold all_plain. apply forallb_forall. intros x Hx.
  apply filter_In in Hx. tauto.
Qed.

(** C2.  On every store and for all arguments, [topologicalSort] ends as
    [depthFirstSearch] does for the same arguments, and returns its result
    reversed.  On a well formed store, which the store of a new graph is
    and every call of the handle leaves, with the argument or else the
    result of [nodes()] for source nodes: both raise the [TypeError] when
    [includeSourceNodes] is false and a source names a member of
    [Object.prototype], and both return otherwise; and when no node that
    the sources reach lies on a cycle, every edge [(u, v)] with both ends
    in the result of [topologicalSort] has [u] before [v] there. *)
Theorem topologicalSort_reverses_depthFirstSearch
  (s : Program.store) (sourceNodes : option (list string))
  (includeSourceNodes : option bool) :
  let visit := fst (Program.depthFirstSearch sourceNodes includeSourceNodes s) in
  let sorted := fst (Program.topologicalSort sourceNodes includeSourceNodes s) in
  sorted = match visit with
           | Program.Ok l => Program.Ok (rev l)
           | Program.Stop why => Program.Stop why
           end /\
  (Program.well_formed s = true ->
   forall sources, sources_of s sourceNodes = Program.Ok sources ->
     (if excludes includeSourceNodes && negb (all_plain sources)
      then visit = Program.Stop Program.TypeError
      else exists l, visit = Program.Ok l) /\
     (acyclic_from (arrays s) sources ->
      forall l, sorted = Program.Ok l ->
      forall u v, edge (arrays s) u v -> In u l -> In v l -> precedes u v l)).
Proof.
  intros visit sorted.
  assert (sorted = match visit with
                   | Program.Ok l => Program.Ok (rev l)
                   | Program.Stop why => Program.Stop why
                   end) as Hrev by apply topologicalSort_reverses.
  split; [exact Hrev|]. intros H sources Hs.
  assert (exists chosen,
            all_plain chosen = true /\ incl chosen sources /\
            visit = if excludes includeSourceNodes && negb (all_plain sources)
                    then Program.Stop Program.TypeError
                    else fuelled (depthFirstSearch (plain_arrays s) (Some chosen)
                                    includeSourceNodes)) as (chosen & Hp & Hi & Ev).
  { unfold visit. rewrite depthFirstSearch_sources, Hs.
    rewrite depthFirstSearch_given by exact H. simpl fst.
    destruct (excludes includeSourceNodes); simpl.
    - destruct (all_plain sources) eqn:Hp; simpl.
      + exists sources. split; [exact Hp|]. split; [apply incl_refl | reflexivity].
      + exists []. split; [reflexivity|]. split; [intros x []| reflexivity].
    - exists (filter plain sources). split; [apply all_plain_filter_plain|].
      split; [|reflexivity]. intros x Hx. apply filter_In in Hx. tauto. }
  destruct (depthFirstSearch_total (plain_arrays s) (Some chosen)
              includeSourceNodes) as (l0 & E0).
  rewrite E0 in Ev. simpl in Ev. split.
  - destruct (excludes includeSourceNodes && negb (all_plain sources)); eauto.
  - intros Ha l Hl u v. rewrite Hrev, Ev in Hl.
    destruct (excludes includeSourceNodes && negb (all_plain sources));
      [discriminate|].
    inversion Hl; subst l.
    eapply order_plain_arrays; eauto.
Qed.

Lemma topologicalSort_reverses_depthFirstSearch_witness :
  Program.well_formed (embed triangle) = true /\
  acyclic_from (arrays (embed triangle)) ["A"; "B"; "C"] /\
  fst (Program.topologicalSort None None (embed triangle))
  = Program.Ok ["A"; "B"; "C"] /\
  precedes "A" "C" ["A"; "B"; "C"] /\
  fst (Program.depthFirstSearch (Some ["constructor"]) (Some false)
         Program.empty_store)
  = Program.Stop Program.TypeError.
Proof.
  assert (acyclic_from (arrays (embed triangle)) ["A"; "B"; "C"]) as Ha.
  { apply (acyclic_by_rank triangle triangle_rank). apply triangle_ranked. }
  split; [reflexivity|]. split; [exact Ha|]. split; [reflexivity|]. split.
  - destruct (topologicalSort_reverses_depthFirstSearch (embed triangle) None None)
      as (_ & Hp).
    destruct (Hp eq_refl ["A"; "B"; "C"] eq_refl) as (_ & Ho).
    apply (Ho Ha ["A"; "B"; "C"] eq_refl "A" "C"); simpl; auto.
    unfold edge. simpl. auto.
  - destruct (topologicalSort_reverses_depthFirstSearch Program.empty_store
                (Some ["constructor"]) (Some false)) as (_ & Hp).
    destruct (Hp eq_refl ["constructor"] eq_refl) as (Hr & _).
    exact Hr.
Defined.

(** ** Plain stores under the mutators *)

Lemma in_graph_nodes g x : in_graph g x <-> In x (nodes g).
Proof. unfold in_graph. symmetry. apply In_nodes. Qed.

Lemma forallb_set {V : Type} (P : string * V -> bool) (o : obj V) k v :
  forallb P o = true -> P (k, v) = true -> forallb P (set o k v) = true.
Proof.
  intros Ho Hv. induction o as [|[k' v'] r IH]; simpl in *.
  - now rewrite Hv.
  - apply andb_prop in Ho. destruct Ho as (H1 & H2).
    destruct (String.eqb k' k) eqn:E; simpl.
    + apply String.eqb_eq in E. subst k'. now rewrite Hv, H2.
    + now rewrite H1, IH.
Qed.

Lemma forallb_del {V : Type} (P : string * V -> bool) (o : obj V) k :
  forallb P o = true -> forallb P (del o k) = true.
Proof.
  intros Ho. induction o as [|[k' v'] r IH]; simpl in *; auto.
  apply andb_prop in Ho. destruct Ho as (H1 & H2).
  destruct (String.eqb k' k); simpl; auto. now rewrite H1, IH.
Qed.

Lemma all_plain_filter (f : string -> bool) l :
  all_plain l = true -> all_plain (filter f l) = true.
Proof.
  unfold all_plain. rewrite !forallb_forall. intros H x Hx.
  apply filter_In in Hx. apply H. tauto.
Qed.

Lemma all_plain_app l l' :
  all_plain (l ++ l') = all_plain l && all_plain l'.
Proof. apply forallb_app. Qed.

Lemma plain_store_addNode g node :
  plain_store g = true -> plain node = true -> plain_store (addNode g node) = true.
Proof.
  intros H Hn. unfold plain_store, addNode. simpl.
  apply forallb_set; auto. simpl. rewrite Hn. simpl.
  now apply plain_store_adjacent.
Qed.

Lemma plain_store_removeEdge g u v :
  plain_store g = true -> plain_store (removeEdge g u v) = true.
Proof.
  intros H. unfold removeEdge.
  destruct (get (edges g) u) as [l|] eqn:E; auto.
  unfold plain_store. simpl. apply forallb_set; auto. simpl.
  destruct (plain_store_key g u l H E) as (-> & Hl). simpl.
  apply all_plain_filter. now apply plain_store_adjacent.
Qed.

Lemma plain_store_addEdge g u v w x :
  plain_store g = true -> plain u = true -> plain v = true ->
  plain_store (addEdge g u v w x) = true.
Proof.
  intros H Hu Hv.
  assert (plain_store (addNode (addNode g u) v) = true) as H2
    by (apply plain_store_addNode; auto; apply plain_store_addNode; auto).
  assert (plain_store
            (with_edges (addNode (addNode g u) v)
               (set (edges (addNode (addNode g u) v)) u
                  (adjacent (addNode (addNode g u) v) u ++ [v]))) = true) as H3.
  { unfold plain_store. simpl edges. apply forallb_set; [exact H2|]. simpl.
    rewrite Hu, all_plain_app, plain_store_adjacent by exact H2.
    simpl. now rewrite Hv. }
  unfold addEdge. destruct w, x; exact H3.
Qed.

Lemma plain_store_removeNode g node :
  plain_store g = true -> plain_store (removeNode g node) = true.
Proof.
  intros H. unfold removeNode.
  assert (forall ks g0, plain_store g0 = true ->
            plain_store
              (fold_left
                 (fun g0 u =>
                    fold_left
                      (fun g' v => if String.eqb v node then removeEdge g' u v else g')
                      (adjacent g0 u) g0) ks g0) = true) as Hfold.
  { induction ks as [|k ks IH]; simpl; intros g0 H0; auto.
    apply IH. generalize (adjacent g0 k). intros l. revert g0 H0.
    induction l as [|a l IHl]; simpl; intros g0 H0; auto.
    apply IHl. destruct (String.eqb a node); auto.
    now apply plain_store_removeEdge. }
  specialize (Hfold (keys (edges g)) g H).
  unfold plain_store in *. simpl. now apply forallb_del.
Qed.

Lemma plain_store_triangle : plain_store triangle = true.
Proof. reflexivity. Qed.

Lemma store_inv_triangle : store_inv triangle.
Proof.
  unfold triangle. repeat apply store_inv_addEdge. apply store_inv_empty.
Qed.

(** The document that [serialize] writes for a plain store is plain. *)
Lemma plain_document_serialize g :
  plain_store g = true -> plain_document (serialize g) = true.
Proof.
  intros H. unfold plain_document. apply andb_true_intro. split.
  - apply forallb_forall. intros n Hn.
    apply (plain_store_nodes g); auto. rewrite <- serialize_nodes.
    apply in_map_iff. eauto.
  - apply forallb_forall. intros l Hl.
    apply In_serialized_links in Hl. destruct Hl as (He & _).
    apply andb_true_intro. split.
    + eapply plain_store_nodes; eauto. eapply edge_source_node; eauto.
    + eapply plain_store_nodes; eauto. eapply edge_target_node; eauto.
Qed.
(** ** Calls that return, and the defaults of the queries *)

(** On a graph whose identifiers name no member of [Object.prototype], and
    for arguments of that kind, every function of the handle other than
    [shortestPath] returns: no [TypeError], and the traversals end.  A node
    of that kind that is neither a key of [edges] nor an entry of an
    adjacency array has an empty adjacency array, outdegree 0 and indegree
    0; a pair without a stored weight or payload reads as 1 and as the
    empty record. *)
Theorem calls_complete_with_defaults (g : graph) :
  plain_store g = true ->
  (forall c, plain_call c = true -> is_shortestPath c = false ->
     exists v, Program.run c (embed g) = (Program.Ok v, embed (snd (exec c g)))) /\
  (forall node, plain node = true -> ~ in_graph g node ->
     fst (Program.run (Adjacent node) (embed g))
     = Program.Ok (Program.Adjacency (Program.Arr [])) /\
     fst (Program.run (Outdegree node) (embed g))
     = Program.Ok (Program.Degree (Some 0)) /\
     fst (Program.run (Indegree node) (embed g))
     = Program.Ok (Program.Degree (Some 0))) /\
  (forall u v, get (edgeWeights g) (encodeEdge u v) = None ->
     fst (Program.run (GetEdgeWeight u v) (embed g))
     = Program.Ok (Program.Weight 1)) /\
  (forall u v, get (edgeData g) (encodeDataEdge u v) = None ->
     fst (Program.run (GetEdgeData u v) (embed g))
     = Program.Ok (Program.Payload empty_record)).
Proof.
  intros H. split; [|split; [|split]].
  - intros c Hc Hs. rewrite run_embed by auto.
    assert (exists v, fst (exec c g) = Returns v) as (v & ->).
    { destruct c; simpl in *; eauto; try discriminate.
      - destruct (depthFirstSearch_total g sourceNodes includeSourceNodes)
          as (l & ->). simpl. eauto.
      - unfold topologicalSort.
        destruct (depthFirstSearch_total g sourceNodes includeSourceNodes)
          as (l & ->). simpl. eauto. }
    simpl. eauto.
  - intros node Hn Hg.
    assert (get (edges g) node = None) as Hk.
    { apply has_false. destruct (has (edges g) node) eqn:E; auto.
      exfalso. apply Hg. now left. }
    assert (indegree g node = 0) as Hi.
    { apply indegree_no_edge. intros u Hu. apply Hg. right. eauto. }
    rewrite (run_embed (Adjacent node) g H Hn),
      (run_embed (Outdegree node) g H Hn),
      (run_embed (Indegree node) g H eq_refl). simpl.
    now rewrite adjacent_no_entry, outdegree_no_entry, Hi.
  - intros u v E. simpl. unfold Program.returning, Program.getEdgeWeight,
      Program.bind, Program.edgeWeights_at. simpl. now rewrite E.
  - intros u v E. simpl. unfold Program.returning, Program.getEdgeData,
      Program.bind, Program.edgeData_at. simpl. now rewrite E.
Qed.

Lemma calls_complete_with_defaults_witness :
  (exists v, fst (Program.run (TopologicalSort None (Some false)) (embed triangle))
             = Program.Ok v) /\
  fst (Program.run (Indegree "Z") (embed triangle))
  = Program.Ok (Program.Degree (Some 0)).
Proof.
  destruct (calls_complete_with_defaults triangle eq_refl) as (H1 & H2 & _).
  split.
  - destruct (H1 (TopologicalSort None (Some false)) eq_refl eq_refl) as (v & E).
    exists v. now rewrite E.
  - apply (H2 "Z" eq_refl). intros [H|(u & H)]; [discriminate|].
    apply edge_target_node in H. simpl in H.
    destruct H as [E|[E|[E|[]]]]; discriminate.
Defined.

(** ** Shortest paths on plain stores *)

Lemma bounded_weights_spec g W :
  bounded_weights g W = true ->
  (forall u v, (0 <= getEdgeWeight g u v <= W)%Z) /\
  ((Z.of_nat (List.length (nodes g)) + 1) * W <= 2 ^ 53)%Z.
Proof.
  unfold bounded_weights. intros H.
  apply andb_prop in H. destruct H as (H & H3).
  apply andb_prop in H. destruct H as (H1 & H2).
  apply Z.leb_le in H2, H3. split; [|exact H3].
  intros u v. unfold getEdgeWeight.
  destruct (get (edgeWeights g) (encodeEdge u v)) as [w|] eqn:E; [|lia].
  apply get_pair in E. rewrite forallb_forall in H1. specialize (H1 _ E).
  simpl in H1. apply andb_prop in H1. destruct H1 as (A & B).
  apply Z.leb_le in A, B. lia.
Qed.

Lemma bounded_nonnegative g W s :
  bounded_weights g W = true -> nonnegative_from g s.
Proof.
  intros H u v _ _. destruct (bounded_weights_spec g W H) as (Hw & _).
  apply Hw.
Qed.

Lemma weight_of_bound g W l :
  (forall u v, (0 <= getEdgeWeight g u v <= W)%Z) ->
  (0 <= weight_of g l <= Z.of_nat (List.length l) * W)%Z.
Proof.
  intros Hw. assert (0 <= W)%Z as HW by (specialize (Hw "" ""); lia).
  induction l as [|x [|y r] IH].
  - cbn [weight_of List.length]. lia.
  - cbn [weight_of List.length]. lia.
  - change (weight_of g (x :: y :: r))
      with (getEdgeWeight g x y + weight_of g (y :: r))%Z.
    change (List.length (x :: y :: r)) with (S (List.length (y :: r))).
    specialize (Hw x y). rewrite Nat2Z.inj_succ, Z.mul_succ_l. lia.
Qed.

Lemma shortest_route (g : graph) (source destination : string) (W : Z) :
  plain_store g = true -> bounded_weights g W = true ->
  ~ in_graph g "" -> in_graph g source -> in_graph g destination ->
  (reach g source destination ->
   exists l w,
     Program.shortestPath source destination (embed g)
     = (Program.Ok (l, w), embed g) /\
     route g source destination l /\
     weight_of g l = w /\ (0 <= w <= 2 ^ 53)%Z /\
     forall l', route g source destination l' -> (w <= weight_of g l')%Z) /\
  (~ reach g source destination ->
   Program.shortestPath source destination (embed g)
   = (Program.Stop (Program.Thrown NoPathFound), embed g)).
Proof.
  intros H Hb Hne Hs Ht. rewrite in_graph_nodes in Hne, Hs, Ht.
  pose proof (bounded_nonnegative g W source Hb) as Hnn.
  destruct (shortestPath_minimal g source destination Hne Hnn Hs Ht) as (H1 & H2).
  rewrite shortestPath_embed by auto. split.
  - intros Hr. destruct (H1 Hr) as (l & w & E & Hroute & Hw & Hmin).
    destruct (simple_path g source destination Hne Hnn Hs Ht Hr)
      as (l' & w' & E' & _ & _ & Hlen).
    assert (l' = l) as -> by congruence.
    exists l, w. rewrite E. split; [reflexivity|]. split; [exact Hroute|].
    split; [exact Hw|]. split; [|exact Hmin].
    destruct (bounded_weights_spec g W Hb) as (Hall & Hsum).
    pose proof (weight_of_bound g W l Hall) as Hwb. rewrite Hw in Hwb.
    assert (0 <= W)%Z by (specialize (Hall "" ""); lia). nia.
  - intros Hr. now rewrite (H2 Hr).
Qed.

(** On a graph whose identifiers name no member of [Object.prototype],
    without a node named by the empty string, and whose stored weights are
    integers between 0 and [W] with sums that stay exact
    ([bounded_weights]): for [source] and [destination] in the derived node
    set, when [destination] is reached, [shortestPath] returns a route
    from [source] to [destination] with the sum of its weights, which is at
    most [2^53], and no route between them weighs less; when it is not
    reached, [shortestPath] raises the error of a missing path. *)
Theorem shortestPath_correct (g : graph) (source destination : string) (W : Z) :
  plain_store g = true -> bounded_weights g W = true ->
  ~ in_graph g "" -> in_graph g source -> in_graph g destination ->
  (reach g source destination ->
   exists l w,
     Program.shortestPath source destination (embed g)
     = (Program.Ok (l, w), embed g) /\
     route g source destination l /\
     weight_of g l = w /\ (0 <= w <= 2 ^ 53)%Z /\
     forall l', route g source destination l' -> (w <= weight_of g l')%Z) /\
  (~ reach g source destination ->
   Program.shortestPath source destination (embed g)
   = (Program.Stop (Program.Thrown NoPathFound), embed g)).
Proof. exact (shortest_route g source destination W). Qed.

Lemma bounded_triangle : bounded_weights triangle 1 = true.
Proof. reflexivity. Qed.

Lemma triangle_no_empty_id : ~ in_graph triangle "".
Proof.
  rewrite in_graph_nodes. simpl. intros [H|[H|[H|[]]]]; discriminate.
Qed.

Lemma triangle_node x : In x ["A"; "B"; "C"] -> in_graph triangle x.
Proof. intros H. apply in_graph_nodes. exact H. Qed.

Lemma shortestPath_correct_witness :
  fst (Program.shortestPath "A" "C" (embed triangle))
  = Program.Ok (["A"; "C"], 1%Z) /\
  forall l', route triangle "A" "C" l' -> (1 <= weight_of triangle l')%Z.
Proof.
  assert (reach triangle "A" "C") as H5.
  { apply rt_step. unfold edge. simpl. auto. }
  destruct (shortestPath_correct triangle "A" "C" 1 plain_store_triangle
              bounded_triangle triangle_no_empty_id)
    as (Hr & _); [apply triangle_node; simpl; auto ..|].
  destruct (Hr H5) as (l & w & Hsp & _ & _ & _ & Hmin).
  assert (Program.shortestPath "A" "C" (embed triangle)
          = (Program.Ok (["A"; "C"], 1%Z), embed triangle)) as E by reflexivity.
  rewrite E in Hsp. inversion Hsp; subst.
  split; [reflexivity | exact Hmin].
Defined.

(** The loop of [dijkstra()] ends on a graph whose identifiers name no
    member of [Object.prototype], whatever the weights: [dijkstra()] raises
    for an unknown node and otherwise leaves an empty queue. *)
Theorem dijkstra_terminates (g : graph) (source destination : string) :
  plain_store g = true ->
  exists r,
    Program.dijkstra source destination (embed g) = (thrown r, embed g) /\
    match r with
    | Normal st => q st = []
    | Throw e => unknown_node e = true
    end.
Proof.
  intros H. destruct (dijkstra_ends g source destination) as (r & E & Hr).
  exists r. split; [|exact Hr].
  destruct (dijkstra_embed g source destination H) as (-> & _).
  rewrite E. now destruct r.
Qed.

Lemma dijkstra_terminates_witness :
  exists st,
    fst (Program.dijkstra "A" "C" (embed triangle)) = Program.Ok st
    /\ q st = [].
Proof.
  destruct (dijkstra_terminates triangle "A" "C" plain_store_triangle)
    as (r & E & Hr).
  assert (exists st, r = Normal st) as (st & ->).
  { assert (exists st, fst (Program.dijkstra "A" "C" (embed triangle))
                       = Program.Ok st) as (st & Est)
      by (eexists; reflexivity).
    rewrite E in Est. destruct r; [eauto | discriminate]. }
  exists st. rewrite E. auto.
Defined.

(** On a graph whose identifiers name no member of [Object.prototype],
    [shortestPath] tests the source first: a source outside the derived
    node set raises the error of the source, whatever the destination, and
    a destination outside it raises its error when the source is inside;
    the arguments themselves may be any strings. *)
Theorem shortestPath_first_error (g : graph) (source destination : string) :
  plain_store g = true ->
  (~ in_graph g source ->
   Program.shortestPath source destination (embed g)
   = (Program.Stop (Program.Thrown SourceNotInGraph), embed g)) /\
  (in_graph g source -> ~ in_graph g destination ->
   Program.shortestPath source destination (embed g)
   = (Program.Stop (Program.Thrown DestinationNotInGraph), embed g)).
Proof.
  intros H. rewrite !in_graph_nodes.
  destruct (first_error g source destination) as (H1 & H2).
  rewrite shortestPath_embed by auto. split.
  - intros Hs. now rewrite (H1 Hs).
  - intros Hs Ht. now rewrite (H2 Hs Ht).
Qed.

Lemma shortestPath_first_error_witness :
  fst (Program.shortestPath "constructor" "Y" (embed triangle))
  = Program.Stop (Program.Thrown SourceNotInGraph) /\
  fst (Program.shortestPath "A" "__proto__" (embed triangle))
  = Program.Stop (Program.Thrown DestinationNotInGraph).
Proof.
  destruct (shortestPath_first_error triangle "constructor" "Y"
              plain_store_triangle) as (H1 & _).
  destruct (shortestPath_first_error triangle "A" "__proto__"
              plain_store_triangle) as (_ & H2).
  split.
  - rewrite H1; [reflexivity|]. rewrite in_graph_nodes. simpl.
    intros [E|[E|[E|[]]]]; discriminate.
  - rewrite H2; [reflexivity | apply triangle_node; simpl; auto |].
    rewrite in_graph_nodes. simpl. intros [E|[E|[E|[]]]]; discriminate.
Defined.

(** [shortestPath] raises one of the two errors of an unknown node exactly
    when [source] or [destination] is outside the derived node set: the
    keys of [edges] and the entries of the adjacency arrays.  This holds on
    a graph whose identifiers name no member of [Object.prototype]; the
    arguments themselves may be any strings. *)
Theorem shortestPath_unknown_node (g : graph) (source destination : string) :
  plain_store g = true ->
  ((exists e, fst (Program.shortestPath source destination (embed g))
              = Program.Stop (Program.Thrown e)
              /\ unknown_node e = true)
   <-> (~ in_graph g source \/ ~ in_graph g destination)).
Proof.
  intros H. rewrite shortestPath_embed by auto. simpl. rewrite !in_graph_nodes.
  rewrite <- unknown_node_raised. split.
  - intros (e & E & He). exists e. split; auto.
    destruct (shortestPath g source destination) as [[[l w]|e']|];
      simpl in E; try discriminate. now inversion E.
  - intros (e & E & He). exists e. now rewrite E.
Qed.

Lemma shortestPath_unknown_node_witness :
  in_graph triangle "A" /\ in_graph triangle "C" /\
  ~ (exists e, fst (Program.shortestPath "A" "C" (embed triangle))
               = Program.Stop (Program.Thrown e)
               /\ unknown_node e = true).
Proof.
  assert (in_graph triangle "A") as Ha by (apply triangle_node; simpl; auto).
  assert (in_graph triangle "C") as Hc by (apply triangle_node; simpl; auto).
  split; [exact Ha|]. split; [exact Hc|].
  intros He.
  apply (shortestPath_unknown_node triangle "A" "C" plain_store_triangle) in He.
  tauto.
Defined.

(** With stored weights that are integers between 0 and [W] whose sums
    stay exact ([bounded_weights]), the shortest path
    from a node of the graph to itself is the node alone, with weight 0,
    also when an edge leads from the node back to it. *)
Theorem shortestPath_same_node (g : graph) (node : string) (W : Z) :
  plain_store g = true -> bounded_weights g W = true -> in_graph g node ->
  Program.shortestPath node node (embed g) = (Program.Ok ([node], 0%Z), embed g).
Proof.
  intros H Hb Hn. rewrite in_graph_nodes in Hn.
  rewrite shortestPath_embed by auto.
  now rewrite (same_node g node (bounded_nonnegative g W node Hb) Hn).
Qed.

Lemma shortestPath_same_node_witness :
  fst (Program.shortestPath "A" "A"
         (embed (addEdge triangle "C" "A" None None)))
  = Program.Ok (["A"], 0%Z).
Proof.
  rewrite (shortestPath_same_node (addEdge triangle "C" "A" None None) "A" 1).
  - reflexivity.
  - reflexivity.
  - reflexivity.
  - apply in_graph_nodes. simpl. auto.
Defined.

(** On a graph of plain identifiers without a node named by the empty
    string and with weights as [bounded_weights] asks, the path that
    [shortestPath] returns visits no node twice and stays inside the
    derived node set, and its weight is at most [2^53]. *)
Theorem shortestPath_simple (g : graph) (source destination : string) (W : Z) :
  plain_store g = true -> bounded_weights g W = true ->
  ~ in_graph g "" -> in_graph g source -> in_graph g destination ->
  reach g source destination ->
  exists l w,
    Program.shortestPath source destination (embed g)
    = (Program.Ok (l, w), embed g) /\
    NoDup l /\ (forall x, In x l -> in_graph g x) /\
    List.length l <= List.length (nodes g) /\
    (0 <= w <= 2 ^ 53)%Z.
Proof.
  intros H Hb Hne Hs Ht Hr.
  destruct (shortest_route g source destination W H Hb Hne Hs Ht)
    as (H1 & _).
  destruct (H1 Hr) as (l & w & E & _ & _ & Hw & _).
  rewrite in_graph_nodes in Hne, Hs, Ht.
  destruct (simple_path g source destination Hne
              (bounded_nonnegative g W source Hb) Hs Ht Hr)
    as (l' & w' & E' & Hnd & Hin & Hlen).
  rewrite shortestPath_embed, E' in E by auto. simpl in E.
  inversion E; subst.
  exists l, w. rewrite shortestPath_embed, E' by auto.
  split; [reflexivity|]. split; [exact Hnd|]. split; [|auto].
  intros x Hx. apply in_graph_nodes. auto.
Qed.

Lemma shortestPath_simple_witness :
  fst (Program.shortestPath "A" "C" (embed triangle))
  = Program.Ok (["A"; "C"], 1%Z) /\
  NoDup ["A"; "C"].
Proof.
  assert (reach triangle "A" "C") as H5.
  { apply rt_step. unfold edge. simpl. auto. }
  destruct (shortestPath_simple triangle "A" "C" 1 plain_store_triangle
              bounded_triangle triangle_no_empty_id)
    as (l & w & Hsp & Hnd & _); [apply triangle_node; simpl; auto ..|exact H5|].
  assert (Program.shortestPath "A" "C" (embed triangle)
          = (Program.Ok (["A"; "C"], 1%Z), embed triangle)) as E by reflexivity.
  rewrite E in Hsp. inversion Hsp; subst.
  split; [reflexivity | exact Hnd].
Defined.
(** ** Traversals on plain stores *)

(** On a graph whose identifiers, and those of the source nodes, name no
    member of [Object.prototype]: without [includeSourceNodes = false],
    [depthFirstSearch] returns exactly the nodes that the sources reach,
    each once. *)
Theorem depthFirstSearch_reachable
  (g : graph) (sourceNodes : option (list string))
  (includeSourceNodes : option bool) :
  plain_store g = true -> plain_sources sourceNodes = true ->
  excludes includeSourceNodes = false ->
  exists l,
    Program.depthFirstSearch sourceNodes includeSourceNodes (embed g)
    = (Program.Ok l, embed g) /\
    NoDup l /\
    forall x, In x l <->
              exists s, In s (chosen_sources g sourceNodes) /\ reach g s x.
Proof.
  intros H Hs Hex.
  destruct (depthFirstSearch_returns g sourceNodes includeSourceNodes H Hs)
    as (l & E & Ed & _).
  destruct (depthFirstSearch_reach g sourceNodes includeSourceNodes Hex)
    as (l' & E' & Hnd & Hin).
  assert (l' = l) as -> by congruence. eauto.
Qed.

Lemma depthFirstSearch_reachable_witness :
  fst (Program.depthFirstSearch (Some ["B"]) None (embed triangle))
  = Program.Ok ["C"; "B"] /\
  ~ reach triangle "B" "A".
Proof.
  destruct (depthFirstSearch_reachable triangle (Some ["B"]) None
              plain_store_triangle eq_refl eq_refl)
    as (l & Hl & _ & Hin).
  assert (Program.depthFirstSearch (Some ["B"]) None (embed triangle)
          = (Program.Ok ["C"; "B"], embed triangle)) as E by reflexivity.
  rewrite E in Hl. inversion Hl; subst l.
  split; [reflexivity|]. intros Hr.
  assert (In "A" ["C"; "B"]) as Ha.
  { apply Hin. exists "B". split; [now left | exact Hr]. }
  simpl in Ha. destruct Ha as [H|[H|[]]]; discriminate.
Defined.

(** On a graph whose identifiers, and those of the source nodes, name no
    member of [Object.prototype]: with [includeSourceNodes] false no source
    node is in the result, yet the entries of the adjacency arrays of the
    sources that are no sources themselves are, and so is every entry, no
    source, of the adjacency array of a node of the result; for every call
    the result has no duplicates. *)
Theorem depthFirstSearch_visits
  (g : graph) (sourceNodes : option (list string))
  (includeSourceNodes : option bool) :
  plain_store g = true -> plain_sources sourceNodes = true ->
  let sources := chosen_sources g sourceNodes in
  exists l,
    Program.depthFirstSearch sourceNodes includeSourceNodes (embed g)
    = (Program.Ok l, embed g) /\
    NoDup l /\
    (includeSourceNodes = Some false ->
     (forall s, In s sources -> ~ In s l) /\
     (forall s v, In s sources -> edge g s v -> ~ In v sources -> In v l) /\
     (forall u v, In u l -> edge g u v -> ~ In v sources -> In v l)).
Proof.
  intros H Hs sources.
  destruct (depthFirstSearch_returns g sourceNodes includeSourceNodes H Hs)
    as (l & E & Ed & _).
  destruct (depthFirstSearch_result g sourceNodes includeSourceNodes)
    as (st & _ & E' & Hnd & _ & Hex).
  assert (nodeList st = l) as El by congruence. rewrite El in *.
  exists l. auto.
Qed.

Lemma depthFirstSearch_visits_witness :
  fst (Program.depthFirstSearch (Some ["A"; "B"]) (Some false) (embed triangle))
  = Program.Ok ["C"] /\
  ~ In "B" ["C"] /\ In "C" ["C"].
Proof.
  destruct (depthFirstSearch_visits triangle (Some ["A"; "B"]) (Some false)
              plain_store_triangle eq_refl)
    as (l & Hd & _ & Hex).
  assert (Program.depthFirstSearch (Some ["A"; "B"]) (Some false) (embed triangle)
          = (Program.Ok ["C"], embed triangle)) as E by reflexivity.
  rewrite E in Hd. inversion Hd; subst l.
  destruct (Hex eq_refl) as (H1 & H2 & _).
  split; [reflexivity|]. split.
  - apply (H1 "B"). simpl. auto.
  - apply (H2 "A" "C").
    + simpl. auto.
    + unfold edge. simpl. auto.
    + simpl. intros [H|[H|[]]]; discriminate.
Defined.

(** On a graph whose identifiers name no member of [Object.prototype] and
    that has no cycle: without source nodes, and unless
    [includeSourceNodes] is false, [topologicalSort] returns every node of
    the graph once, and the source of every edge before its target. *)
Theorem topologicalSort_whole_graph (g : graph) (includeSourceNodes : option bool) :
  plain_store g = true ->
  excludes includeSourceNodes = false ->
  acyclic_from g (nodes g) ->
  exists l,
    Program.topologicalSort None includeSourceNodes (embed g)
    = (Program.Ok l, embed g) /\
    NoDup l /\ (forall x, In x l <-> in_graph g x) /\
    forall u v, edge g u v -> precedes u v l.
Proof.
  intros H Hex Ha.
  destruct (topologicalSort_all g includeSourceNodes Hex Ha) as (l & E & Hp & Ho).
  exists l. rewrite topologicalSort_embed, E by auto.
  split; [reflexivity|]. split.
  - eapply Permutation_NoDup; [symmetry; exact Hp | apply NoDup_nodes].
  - split; [|exact Ho]. intros x. rewrite in_graph_nodes.
    split; apply Permutation_in; [|symmetry]; exact Hp.
Qed.

Lemma topologicalSort_whole_graph_witness :
  fst (Program.topologicalSort None None (embed triangle))
  = Program.Ok ["A"; "B"; "C"] /\
  precedes "B" "C" ["A"; "B"; "C"].
Proof.
  destruct (topologicalSort_whole_graph triangle None plain_store_triangle eq_refl)
    as (l & Hl & _ & _ & Ho).
  { apply (acyclic_by_rank triangle triangle_rank). apply triangle_ranked. }
  assert (Program.topologicalSort None None (embed triangle)
          = (Program.Ok ["A"; "B"; "C"], embed triangle)) as E by reflexivity.
  rewrite E in Hl. inversion Hl; subst l.
  split; [reflexivity|]. apply Ho. unfold edge. simpl. auto.
Defined.

(** ** Mutators on plain stores *)

(** On a graph whose identifiers name no member of [Object.prototype] and
    whose [edges] has no key twice, [removeNode(node)] returns, takes
    [node] out of every adjacency array and out of the derived node set,
    and leaves the weights and the payloads in the store. *)
Theorem removeNode_removes_edges (g : graph) (node : string) :
  plain_store g = true -> NoDup (map fst (edges g)) ->
  Program.removeNode node (embed g) = (Program.Ok tt, embed (removeNode g node)) /\
  (forall a, adjacent (removeNode g node) a
             = if String.eqb node a then []
               else filter (differs node) (adjacent g a)) /\
  ~ in_graph (removeNode g node) node /\
  edgeWeights (removeNode g node) = edgeWeights g /\
  edgeData (removeNode g node) = edgeData g.
Proof.
  intros H Hn. split; [now apply removeNode_embed|].
  rewrite in_graph_nodes. now apply removeNode_effect.
Qed.

Lemma removeNode_removes_edges_witness :
  Program.removeNode "C" (embed triangle)
  = (Program.Ok tt, embed (removeNode triangle "C")) /\
  nodes (removeNode triangle "C") = ["A"; "B"] /\
  getEdgeWeight (removeNode triangle "C") "A" "C" = 1%Z.
Proof.
  destruct (removeNode_removes_edges triangle "C" plain_store_triangle)
    as (E & _ & _ & Hw & _).
  { apply store_inv_triangle. }
  split; [exact E|]. split; [reflexivity|].
  unfold getEdgeWeight. rewrite Hw. reflexivity.
Defined.

(** For a node that names no member of [Object.prototype], [addNode(node)]
    returns; on a node that has an adjacency array it leaves the store as
    it is, so adding a node twice is adding it once; it keeps every
    adjacency array, the weights and the payloads, and the derived node set
    afterwards is [node] and the one before. *)
Theorem addNode_keeps_store (g : graph) (node : string) :
  plain node = true ->
  Program.addNode node (embed g) = (Program.Ok tt, embed (addNode g node)) /\
  (has (edges g) node = true -> addNode g node = g) /\
  addNode (addNode g node) node = addNode g node /\
  (forall x, adjacent (addNode g node) x = adjacent g x) /\
  (forall x, in_graph (addNode g node) x <-> x = node \/ in_graph g x) /\
  edgeWeights (addNode g node) = edgeWeights g /\
  edgeData (addNode g node) = edgeData g.
Proof.
  intros Hn. split; [now apply addNode_embed|].
  destruct (addNode_effect g node) as (H1 & H2 & H3 & H4 & H5).
  split; [exact H1|]. split; [exact H2|]. split; [exact H3|].
  split; [|exact H5]. intros x. rewrite !in_graph_nodes. apply H4.
Qed.

Lemma addNode_keeps_store_witness :
  Program.addNode "B" (embed triangle) = (Program.Ok tt, embed triangle).
Proof.
  destruct (addNode_keeps_store triangle "B" eq_refl) as (E & H & _).
  rewrite E. now rewrite H.
Defined.

(** The graphs that [addNode], [addEdge], [removeEdge] and [removeNode]
    make from the new graph, called with identifiers that name no member
    of [Object.prototype]: every entry of an adjacency array is a key of
    [edges] and no key is there twice ([store_inv]), and the identifiers
    are plain.  On such a graph [nodes()] returns the keys of [edges],
    each once. *)
Theorem nodes_are_keys (g : graph) :
  (store_inv empty_graph /\ plain_store empty_graph = true) /\
  (store_inv g -> plain_store g = true ->
   (forall n, plain n = true ->
      store_inv (addNode g n) /\ plain_store (addNode g n) = true) /\
   (forall u v w x, plain u = true -> plain v = true ->
      store_inv (addEdge g u v w x) /\ plain_store (addEdge g u v w x) = true) /\
   (forall u v,
      store_inv (removeEdge g u v) /\ plain_store (removeEdge g u v) = true) /\
   (forall n,
      store_inv (removeNode g n) /\ plain_store (removeNode g n) = true) /\
   Program.nodes (embed g) = (Program.Ok (nodes g), embed g) /\
   (forall x, in_graph g x <-> has (edges g) x = true) /\
   Permutation (nodes g) (keys (edges g))).
Proof.
  split; [split; [apply store_inv_empty | reflexivity]|].
  intros Hi H.
  split; [intros n Hn; split;
          [now apply store_inv_addNode | now apply plain_store_addNode]|].
  split; [intros u v w x Hu Hv; split;
          [now apply store_inv_addEdge | now apply plain_store_addEdge]|].
  split; [intros u v; split;
          [now apply store_inv_removeEdge | now apply plain_store_removeEdge]|].
  split; [intros n; split;
          [now apply store_inv_removeNode | now apply plain_store_removeNode]|].
  split; [now apply nodes_embed|].
  split; [|now apply nodes_keys_perm].
  intros x. rewrite in_graph_nodes. now apply nodes_keys.
Qed.

Lemma nodes_are_keys_witness :
  store_inv triangle /\
  fst (Program.nodes (embed triangle)) = Program.Ok ["A"; "B"; "C"] /\
  Permutation (nodes triangle) (keys (edges triangle)).
Proof.
  destruct (nodes_are_keys triangle) as (_ & H).
  destruct (H store_inv_triangle plain_store_triangle)
    as (_ & _ & _ & _ & E & _ & Hp).
  split; [apply store_inv_triangle|]. split; [now rewrite E | exact Hp].
Defined.

(** For [u] that names no member of [Object.prototype], [removeEdge(u, v)]
    returns, takes every entry [v] out of the adjacency array of [u] and
    touches no other array; it leaves the store as it is when [v] is not in
    that array, and it removes no node when every entry of an adjacency
    array is a key of [edges]. *)
Theorem removeEdge_removes_all (g : graph) (u v : string) :
  plain u = true ->
  Program.removeEdge u v (embed g) = (Program.Ok tt, embed (removeEdge g u v)) /\
  ~ edge (removeEdge g u v) u v /\
  (forall a, adjacent (removeEdge g u v) a
             = if String.eqb u a then filter (differs v) (adjacent g u)
               else adjacent g a) /\
  (~ edge g u v -> removeEdge g u v = g) /\
  removeEdge (removeEdge g u v) u v = removeEdge g u v /\
  (store_inv g ->
   forall x, in_graph (removeEdge g u v) x <-> in_graph g x).
Proof.
  intros Hu. split; [now apply removeEdge_embed|].
  destruct (removeEdge_effect g u v) as (H1 & H2 & H3 & H4 & H5).
  split; [exact H1|]. split; [exact H2|]. split; [exact H3|].
  split; [exact H4|]. intros Hi x. rewrite !in_graph_nodes. now apply H5.
Qed.

Lemma removeEdge_removes_all_witness :
  ~ edge triangle "C" "A" /\
  Program.removeEdge "C" "A" (embed triangle) = (Program.Ok tt, embed triangle) /\
  nodes (removeEdge triangle "A" "C") = ["A"; "B"; "C"].
Proof.
  assert (~ edge triangle "C" "A") as H by (unfold edge; simpl; tauto).
  destruct (removeEdge_removes_all triangle "C" "A" eq_refl)
    as (E & _ & _ & H1 & _).
  split; [exact H|]. split; [|reflexivity]. rewrite E. now rewrite (H1 H).
Defined.

(** On a graph whose identifiers name no member of [Object.prototype],
    [removeNode(node)] for a node outside the derived node set leaves the
    store as it is, and it undoes [addNode(node)] for such a node that
    names no member of the prototype either. *)
Theorem removeNode_unknown (g : graph) (node : string) :
  plain_store g = true -> ~ in_graph g node ->
  Program.removeNode node (embed g) = (Program.Ok tt, embed g) /\
  (plain node = true ->
   Program.addNode node (embed g) = (Program.Ok tt, embed (addNode g node)) /\
   Program.removeNode node (embed (addNode g node)) = (Program.Ok tt, embed g)).
Proof.
  intros H Hg. rewrite in_graph_nodes in Hg.
  destruct (removeNode_undo g node Hg) as (E1 & E2). split.
  - rewrite removeNode_embed by auto. now rewrite E1.
  - intros Hn. split; [now apply addNode_embed|].
    rewrite removeNode_embed by now apply plain_store_addNode.
    now rewrite E2.
Qed.

Lemma removeNode_unknown_witness :
  ~ in_graph triangle "Z" /\
  Program.removeNode "Z" (embed (addNode triangle "Z"))
  = (Program.Ok tt, embed triangle).
Proof.
  assert (~ in_graph triangle "Z") as H.
  { rewrite in_graph_nodes. simpl. intros [E|[E|[E|[]]]]; discriminate. }
  split; [exact H|].
  destruct (removeNode_unknown triangle "Z" plain_store_triangle H) as (_ & H2).
  apply (H2 eq_refl).
Defined.

(** For [u] and [v] that name no member of [Object.prototype],
    [addEdge(u, v, weight, data)] returns, appends [v] to the adjacency
    array of [u] and touches no other array, so an edge added twice is
    there twice; the derived node set afterwards is [u], [v] and the one
    before; a weight or a payload that is given is what is read
    afterwards, and one that is left out leaves what was read before. *)
Theorem addEdge_appends (g : graph) (u v : string)
  (weight : option Z) (payload : option data) :
  plain u = true -> plain v = true ->
  let g' := addEdge g u v weight payload in
  Program.addEdge u v weight payload (embed g) = (Program.Ok tt, embed g') /\
  (forall a, adjacent g' a
             = if String.eqb u a then adjacent g u ++ [v] else adjacent g a) /\
  (forall n, in_graph g' n <-> n = u \/ n = v \/ in_graph g n) /\
  outdegree g' u = S (outdegree g u) /\
  getEdgeWeight g' u v
  = match weight with Some z => z | None => getEdgeWeight g u v end /\
  getEdgeData g' u v
  = match payload with Some y => y | None => getEdgeData g u v end.
Proof.
  intros Hu Hv g'. split; [now apply addEdge_embed|].
  destruct (addEdge_effect g u v weight payload) as (H1 & H2 & H3).
  split; [exact H1|]. split; [|exact H3].
  intros n. rewrite !in_graph_nodes. apply H2.
Qed.

Lemma addEdge_appends_witness :
  Program.addEdge "A" "C" None None (embed triangle)
  = (Program.Ok tt, embed (addEdge triangle "A" "C" None None)) /\
  adjacent (addEdge triangle "A" "C" None None) "A" = ["B"; "C"; "C"] /\
  getEdgeWeight (addEdge triangle "A" "C" None None) "A" "C" = 1%Z.
Proof.
  destruct (addEdge_appends triangle "A" "C" None None eq_refl eq_refl)
    as (E & Ha & _ & _ & Hw & _).
  split; [exact E|]. split; [now rewrite Ha | now rewrite Hw].
Defined.

(** ** Degrees on plain stores *)

(** For a node that names no member of [Object.prototype], [outdegree]
    returns the length of its adjacency array; [indegree] returns 0
    exactly when no adjacency array holds the node; and when [edges] has
    no key twice, [addEdge(u, v)] adds one to the indegree of [v] and
    leaves the indegree of every other node. *)
Theorem degrees_count_edges (g : graph) (node : string) :
  (plain node = true ->
   Program.outdegree node (embed g)
   = (Program.Ok (Some (List.length (adjacent g node))), embed g)) /\
  Program.indegree node (embed g) = (Program.Ok (indegree g node), embed g) /\
  (indegree g node = 0 <-> forall u, ~ edge g u node) /\
  (NoDup (map fst (edges g)) ->
   forall u v w x, plain u = true -> plain v = true ->
     Program.indegree node (embed (addEdge g u v w x))
     = (Program.Ok (indegree g node + (if String.eqb v node then 1 else 0)),
        embed (addEdge g u v w x))).
Proof.
  destruct (degrees_graph g node) as (H1 & H2 & H3).
  split; [intros Hn; rewrite outdegree_embed by auto; now rewrite H1|].
  split; [apply indegree_embed|]. split; [exact H2|].
  intros Hnd u v w x _ _. rewrite indegree_embed. now rewrite H3.
Qed.

Lemma degrees_count_edges_witness :
  fst (Program.indegree "A" (embed (addEdge triangle "B" "A" None None)))
  = Program.Ok 1 /\
  fst (Program.indegree "C" (embed (addEdge triangle "B" "A" None None)))
  = Program.Ok 2.
Proof.
  destruct (degrees_count_edges triangle "A") as (_ & _ & _ & Ha).
  destruct (degrees_count_edges triangle "C") as (_ & _ & _ & Hc).
  destruct store_inv_triangle as (Hnd & _).
  rewrite (Ha Hnd "B" "A" None None eq_refl eq_refl).
  rewrite (Hc Hnd "B" "A" None None eq_refl eq_refl).
  split; reflexivity.
Defined.

(** ** Serialization on plain stores *)

(** On a graph whose identifiers name no member of [Object.prototype],
    [serialize()] returns a document that lists the derived node set and
    one link per entry of an adjacency array: the targets of the links
    that leave a node, in the order of the document, are the adjacency
    array of the node, and every link carries the weight and the payload
    that [getEdgeWeight] and [getEdgeData] return for its pair. *)
Theorem serialize_lists_edges (g : graph) :
  plain_store g = true ->
  exists doc,
    Program.serialize (embed g) = (Program.Ok doc, embed g) /\
    (forall x, In x (map Serialized.id (Serialized.nodes doc)) <-> in_graph g x) /\
    (forall u, map Serialized.target (links_from u (Serialized.links doc))
               = adjacent g u) /\
    (forall l, In l (Serialized.links doc) ->
       edge g (Serialized.source l) (Serialized.target l) /\
       Serialized.weight l
       = Some (getEdgeWeight g (Serialized.source l) (Serialized.target l)) /\
       Serialized.data l
       = Some (getEdgeData g (Serialized.source l) (Serialized.target l))).
Proof.
  intros H. exists (serialize g). split; [now apply serialize_embed|].
  destruct (serialize_links_spec g) as (H1 & H2 & H3).
  split; [|split; [exact H2 | exact H3]].
  intros x. rewrite H1. symmetry. apply in_graph_nodes.
Qed.

Lemma serialize_lists_edges_witness :
  exists doc,
    fst (Program.serialize (embed triangle)) = Program.Ok doc /\
    map Serialized.target (links_from "A" (Serialized.links doc)) = ["B"; "C"].
Proof.
  destruct (serialize_lists_edges triangle plain_store_triangle)
    as (doc & E & _ & H & _).
  exists doc. rewrite E. split; [reflexivity|]. rewrite H. reflexivity.
Defined.

(** For a document whose identifiers name no member of
    [Object.prototype], [deserialize(doc)] returns and adds to the graph:
    every adjacency array keeps its entries and gets, after them, the
    targets of the links of the document that leave its node, in their
    order; the derived node set afterwards is the one before, the nodes of
    the document and the ends of its links.  So a plain graph that
    deserializes its own serialization has every edge twice. *)
Theorem deserialize_appends (g : graph) (doc : Serialized.t) :
  plain_document doc = true ->
  Program.deserialize doc (embed g) = (Program.Ok tt, embed (deserialize g doc)) /\
  (forall u, adjacent (deserialize g doc) u
             = adjacent g u
               ++ map Serialized.target (links_from u (Serialized.links doc))) /\
  (forall x, in_graph (deserialize g doc) x
             <-> in_graph g x
                 \/ In x (map Serialized.id (Serialized.nodes doc))
                 \/ exists l, In l (Serialized.links doc)
                              /\ (x = Serialized.source l
                                  \/ x = Serialized.target l)) /\
  (plain_store g = true ->
   Program.deserialize (serialize g) (embed g)
   = (Program.Ok tt, embed (deserialize g (serialize g))) /\
   forall u, adjacent (deserialize g (serialize g)) u
             = adjacent g u ++ adjacent g u).
Proof.
  intros Hd. split; [now apply deserialize_embed|].
  destruct (deserialize_effect g doc) as (H1 & H2 & H3).
  split; [exact H1|]. split.
  - intros x. rewrite !in_graph_nodes. apply H2.
  - intros H. split; [|exact H3].
    apply deserialize_embed. now apply plain_document_serialize.
Qed.

Lemma deserialize_appends_witness :
  Program.deserialize (serialize triangle) (embed triangle)
  = (Program.Ok tt, embed (deserialize triangle (serialize triangle))) /\
  adjacent (deserialize triangle (serialize triangle)) "A"
  = ["B"; "C"; "B"; "C"].
Proof.
  destruct (deserialize_appends triangle (serialize triangle) eq_refl)
    as (_ & _ & _ & H).
  destruct (H plain_store_triangle) as (E & Ha).
  split; [exact E|]. now rewrite Ha.
Defined.

(** On a graph whose identifiers name no member of [Object.prototype],
    [serialize()] returns a document, and the graph that
    [Graph(document)] builds has the derived node set of the first, for
    every node the adjacency array that the first has, entry for entry,
    and for every edge the weight and the payload that [getEdgeWeight] and
    [getEdgeData] return on the first. *)
Theorem serialize_deserialize_roundtrip (g : graph) :
  plain_store g = true ->
  let g' := Graph (Some (serialize g)) in
  Program.serialize (embed g) = (Program.Ok (serialize g), embed g) /\
  Program.Graph (Some (serialize g)) = (Program.Ok tt, embed g') /\
  (forall x, in_graph g' x <-> in_graph g x) /\
  (forall u, adjacent g' u = adjacent g u) /\
  (forall u v, edge g u v ->
     getEdgeWeight g' u v = getEdgeWeight g u v /\
     getEdgeData g' u v = getEdgeData g u v).
Proof.
  intros H g'. split; [now apply serialize_embed|]. split.
  - unfold Program.Graph. change Program.empty_store with (embed empty_graph).
    apply deserialize_embed. now apply plain_document_serialize.
  - destruct (roundtrip_graph g) as (H1 & _ & H3 & H4).
    split; [|split; [exact H3 | exact H4]].
    intros x. rewrite !in_graph_nodes. apply H1.
Qed.

Lemma serialize_deserialize_roundtrip_witness :
  edge triangle "A" "C" /\
  adjacent (Graph (Some (serialize triangle))) "A" = ["B"; "C"] /\
  getEdgeWeight (Graph (Some (serialize triangle))) "A" "C" = 1%Z.
Proof.
  assert (edge triangle "A" "C") as He by (unfold edge; simpl; auto).
  destruct (serialize_deserialize_roundtrip triangle plain_store_triangle)
    as (_ & _ & _ & Ha & Hw).
  split; [exact He|]. split.
  - rewrite Ha. reflexivity.
  - destruct (Hw "A" "C" He) as (-> & _). reflexivity.
Defined.

(** ** The two embeddings: an example *)

(** On a store whose identifiers name no member of [Object.prototype] and
    for such arguments, a call of the program returns what the function on
    graphs computes, raises what it raises, and leaves the store of the
    graph that it leaves. *)
Theorem program_agrees (c : call) (g : graph) :
  plain_store g = true -> plain_call c = true ->
  Program.run c (embed g) = (agreed c (fst (exec c g)), embed (snd (exec c g))).
Proof. exact (run_embed c g). Qed.

Lemma program_agrees_witness :
  Program.run (ShortestPath "A" "C") (embed triangle)
  = (Program.Ok (Program.Path ["A"; "C"] 1), embed triangle) /\
  Program.run (RemoveNode "B") (embed triangle)
  = (Program.Ok Program.Handle, embed (removeNode triangle "B")).
Proof.
  split.
  - apply (program_agrees (ShortestPath "A" "C") triangle); reflexivity.
  - apply (program_agrees (RemoveNode "B") triangle); reflexivity.
Defined.
